(** * YouTube transcript extractor: a shallow embedding of
    [youtube_transcript_extractor.py] and the properties of its
    URL parser, transcript fetcher, batch extractor, exporter and
    training-data chunker. *)

From Stdlib Require Import List ZArith NArith Bool Ascii String Lia.
Import ListNotations.

Local Open Scope string_scope.
Local Open Scope list_scope.
Local Open Scope Z_scope.

(** ** Python strings

    A Python [str] is a sequence of Unicode code points.  Code points are
    numbers ([N]); string literals of the source are written with [py]. *)

Module PyStr.

Definition char := N.
Definition str := list char.

Definition ch (a : ascii) : char := N_of_ascii a.

Definition py (s : string) : str := map ch (list_ascii_of_string s).

(** [len(s)] *)
Definition len {A : Type} (s : list A) : Z := Z.of_nat (List.length s).

Definition str_eqb (a b : str) : bool :=
  if list_eq_dec N.eq_dec a b then true else false.

(** The code points for which [str.isspace], [str.split], [str.strip]
    and the [\s] class of [re] (on [str] patterns) agree: the Unicode
    white space of CPython. *)
Definition is_space (c : char) : bool :=
  match c with
  | 9%N | 10%N | 11%N | 12%N | 13%N          (* \t \n \v \f \r *)
  | 28%N | 29%N | 30%N | 31%N                (* FS GS RS US *)
  | 32%N                                     (* space *)
  | 133%N | 160%N                            (* NEL, NBSP *)
  | 5760%N
  | 8192%N | 8193%N | 8194%N | 8195%N | 8196%N | 8197%N
  | 8198%N | 8199%N | 8200%N | 8201%N | 8202%N
  | 8232%N | 8233%N | 8239%N | 8287%N | 12288%N => true
  | _ => false
  end.

Definition space : char := 32%N.
Definition newline : char := 10%N.

Definition nonempty {A : Type} (l : list A) : bool :=
  match l with [] => false | _ => true end.

(** [text.split()]: the maximal runs of non-white-space characters, in
    order.  [cur] is the word being scanned, most recent character
    first. *)
Fixpoint split_scan (s : str) (cur : str) : list str :=
  match s with
  | [] => if nonempty cur then [rev cur] else []
  | c :: s' =>
      if is_space c
      then (if nonempty cur then rev cur :: split_scan s' [] else split_scan s' [])
      else split_scan s' (c :: cur)
  end.

Definition split (s : str) : list str := split_scan s [].

(** [sep.join(l)] *)
Fixpoint join (sep : str) (l : list str) : str :=
  match l with
  | [] => []
  | [x] => x
  | x :: l' => x ++ sep ++ join sep l'
  end.

Fixpoint lstrip (s : str) : str :=
  match s with
  | [] => []
  | c :: s' => if is_space c then lstrip s' else s
  end.

Definition rstrip (s : str) : str := rev (lstrip (rev s)).

(** [s.strip()] *)
Definition strip (s : str) : str := rstrip (lstrip s).

(** A word, as [split] returns them: not empty, no white space inside. *)
Definition is_word (w : str) : Prop :=
  w <> [] /\ Forall (fun c => is_space c = false) w.

End PyStr.

Import PyStr.

(** ** The training-data chunker *)

Module Chunker.

(** The local variables of the loop of [chunk_text]. *)
Record chunk_state : Type := {
  chunks : list str;
  current_chunk : list str;
  current_length : Z
}.

Definition chunk_init : chunk_state :=
  {| chunks := []; current_chunk := []; current_length := 0 |}.

(** One iteration of [for word in words]. *)
Definition chunk_step (max_chunk_length : Z) (st : chunk_state) (word : str)
  : chunk_state :=
  if current_length st + len word + 1 <=? max_chunk_length then
    {| chunks := chunks st;
       current_chunk := current_chunk st ++ [word];
       current_length := current_length st + len word + 1 |}
  else
    {| chunks := if nonempty (current_chunk st)
                 then chunks st ++ [join [space] (current_chunk st)]
                 else chunks st;
       current_chunk := [word];
       current_length := len word |}.

Definition chunk_loop (max_chunk_length : Z) (words : list str) : chunk_state :=
  fold_left (chunk_step max_chunk_length) words chunk_init.

(** [AITrainingDataPreparer.chunk_text], with [self.max_chunk_length]
    as first argument. *)
Definition chunk_text (max_chunk_length : Z) (text : str) : list str :=
  let st := chunk_loop max_chunk_length (split text) in
  if nonempty (current_chunk st)
  then chunks st ++ [join [space] (current_chunk st)]
  else chunks st.

(** Length of the longest white-space separated word of a text
    (0 when there is none). *)
Definition longest_word (text : str) : Z :=
  fold_right (fun w m => Z.max (len w) m) 0 (split text).

(** A group of words that [chunk_text] emits as one chunk: it is not
    empty, and it is a single word or fits the bound [N]. *)
Definition group_ok (N : Z) (g : list str) : Prop :=
  g <> [] /\ ((exists w, g = [w]) \/ len (join [space] g) <= N).

(** Invariant of the loop of [chunk_text] after the words [ws] have
    been read. *)
Definition chunk_inv (N : Z) (ws : list str) (st : chunk_state) : Prop :=
  exists groups,
    chunks st = map (join [space]) groups /\
    List.concat groups ++ current_chunk st = ws /\
    Forall (group_ok N) groups /\
    len (join [space] (current_chunk st)) <= current_length st /\
    (current_chunk st = [] \/ (exists w, current_chunk st = [w]) \/
     current_length st <= N).

End Chunker.

Import Chunker.

(** ** Regular expressions of [re], as far as the source uses them

    The quantifiers of the source ([+] and [*?]) are applied to single
    characters or character sets only, so the repeated atom is a
    character set. *)

Module Regex.

Inductive cset : Type :=
| CChar (c : char)              (* a literal character *)
| CDot                          (* [.]: anything but a newline *)
| CNoneOf (cs : list char)      (* [[^...]] *)
| CSpace.                       (* [\s] *)

Inductive regex : Type :=
| Eps
| One (cs : cset)
| PlusG (cs : cset)             (* [x+], greedy *)
| StarL (cs : cset)             (* [x*?], lazy *)
| Cat (r1 r2 : regex)
| Opt (r : regex)               (* [(?:r)?], greedy *)
| Group (r : regex).            (* [(r)], capturing *)

Definition in_cset (cs : cset) (c : char) : bool :=
  match cs with
  | CChar d => N.eqb c d
  | CDot => negb (N.eqb c newline)
  | CNoneOf ds => negb (existsb (N.eqb c) ds)
  | CSpace => is_space c
  end.

(** One way of matching at the start of a string: the text consumed,
    the text captured by the (last) group, and what is left. *)
Record rmatch : Type := {
  consumed : str;
  group1 : option str;
  rest : str
}.

Definition extend (c : char) (m : str * str) : str * str :=
  (c :: fst m, snd m).

(** The non-empty prefixes of the longest run of [cs], longest first. *)
Fixpoint plus_greedy (cs : cset) (s : str) : list (str * str) :=
  match s with
  | [] => []
  | c :: s' =>
      if in_cset cs c
      then map (extend c) (plus_greedy cs s') ++ [([c], s')]
      else []
  end.

(** The prefixes of the longest run of [cs], shortest first. *)
Fixpoint star_lazy (cs : cset) (s : str) : list (str * str) :=
  ([], s) ::
  match s with
  | [] => []
  | c :: s' => if in_cset cs c then map (extend c) (star_lazy cs s') else []
  end.

Definition plain (m : str * str) : rmatch :=
  {| consumed := fst m; group1 := None; rest := snd m |}.

Definition after (m1 m2 : rmatch) : rmatch :=
  {| consumed := consumed m1 ++ consumed m2;
     group1 := match group1 m2 with Some g => Some g | None => group1 m1 end;
     rest := rest m2 |}.

(** All the ways [r] matches a prefix of [s], in the order in which a
    backtracking matcher tries them: the head is the match [re] reports. *)
Fixpoint matches (r : regex) (s : str) : list rmatch :=
  match r with
  | Eps => [plain ([], s)]
  | One cs =>
      match s with
      | c :: s' => if in_cset cs c then [plain ([c], s')] else []
      | [] => []
      end
  | PlusG cs => map plain (plus_greedy cs s)
  | StarL cs => map plain (star_lazy cs s)
  | Cat r1 r2 =>
      flat_map (fun m1 => map (after m1) (matches r2 (rest m1))) (matches r1 s)
  | Opt r1 => matches r1 s ++ [plain ([], s)]
  | Group r1 =>
      map (fun m => {| consumed := consumed m;
                       group1 := Some (consumed m);
                       rest := rest m |}) (matches r1 s)
  end.

(** [re.search(r, s)]: the match at the leftmost position that has one. *)
Fixpoint re_search (r : regex) (s : str) : option rmatch :=
  match matches r s with
  | m :: _ => Some m
  | [] => match s with
          | [] => None
          | _ :: s' => re_search r s'
          end
  end.

(** [re.sub(r, repl, s)]; [skip] counts the characters of [s] that the
    last match still covers. *)
Fixpoint re_sub_from (r : regex) (repl : str) (s : str) (skip : nat) : str :=
  match s with
  | [] => match skip, matches r [] with
          | O, _ :: _ => repl
          | _, _ => []
          end
  | c :: s' =>
      match skip with
      | S k => re_sub_from r repl s' k
      | O =>
          match matches r s with
          | m :: _ =>
              match List.length (consumed m) with
              | O => repl ++ c :: re_sub_from r repl s' 0
              | S k => repl ++ re_sub_from r repl s' k
              end
          | [] => c :: re_sub_from r repl s' 0
          end
      end
  end.

Definition re_sub (r : regex) (repl : str) (s : str) : str :=
  re_sub_from r repl s 0.

(** A literal string as a pattern. *)
Fixpoint lit (s : str) : regex :=
  match s with
  | [] => Eps
  | [c] => One (CChar c)
  | c :: s' => Cat (One (CChar c)) (lit s')
  end.

(** A pattern whose matches all capture a text with property [Q]. *)
Definition captures (Q : str -> Prop) (r : regex) : Prop :=
  forall s m, In m (matches r s) -> exists g, group1 m = Some g /\ Q g.

End Regex.

Import Regex.

(** ** The URL parser and the text normalizer *)

Module Parser.

(** [[^&\n?#]] *)
Definition id_excluded : list char := [ch "&"; newline; ch "?"; ch "#"].

Definition id_group : regex := Group (PlusG (CNoneOf id_excluded)).

(** [(?:https?://)?(?:www\.)?] *)
Definition url_prefix (r : regex) : regex :=
  Cat (Opt (Cat (lit (py "http")) (Cat (Opt (One (CChar (ch "s")))) (lit (py "://")))))
      (Cat (Opt (lit (py "www."))) r).

Definition pattern_watch : regex :=
  url_prefix (Cat (lit (py "youtube.com/watch?v=")) id_group).

Definition pattern_short : regex :=
  url_prefix (Cat (lit (py "youtu.be/")) id_group).

Definition pattern_embed : regex :=
  url_prefix (Cat (lit (py "youtube.com/embed/")) id_group).

Definition patterns : list regex :=
  [pattern_watch; pattern_short; pattern_embed].

(** [for pattern in patterns: ... return match.group(1)] *)
Fixpoint first_group (ps : list regex) (url : str) : option str :=
  match ps with
  | [] => None
  | p :: ps' =>
      match re_search p url with
      | Some m => group1 m
      | None => first_group ps' url
      end
  end.

(** [YouTubeTranscriptExtractor.extract_video_id] *)
Definition extract_video_id (url : str) : option str :=
  first_group patterns url.

Definition bracketed (open close : char) : regex :=
  Cat (One (CChar open)) (Cat (StarL CDot) (One (CChar close))).

(** [YouTubeTranscriptExtractor.clean_transcript_text] *)
Definition clean_transcript_text (text : str) : str :=
  let text := re_sub (bracketed (ch "[") (ch "]")) [] text in
  let text := re_sub (bracketed (ch "(") (ch ")")) [] text in
  let text := re_sub (PlusG (CChar newline)) [space] text in
  let text := re_sub (PlusG CSpace) [space] text in
  strip text.

(** What the group [[^&\n?#]+] can capture: at least one character,
    none of them excluded. *)
Definition valid_id (g : str) : Prop :=
  g <> [] /\ Forall (fun c => ~ In c id_excluded) g.

(** What may follow the identifier in a URL: nothing, or a part that
    starts with [?], [&], [#] (query parameters, a fragment) or a
    newline. *)
Definition trailing (t : str) : Prop :=
  t = [] \/ exists c t', t = c :: t' /\ In c id_excluded.

(** The optional scheme and [www.] in front of the recognized shapes. *)
Definition shape_prefixes : list str :=
  [py ""; py "http://"; py "https://";
   py "www."; py "http://www."; py "https://www."].

(** The three recognized shapes, without the optional prefix. *)
Definition shape_literals : list str :=
  [py "youtube.com/watch?v="; py "youtu.be/"; py "youtube.com/embed/"].

(** The identifier of a URL of a recognized shape is returned whatever
    trailing part follows it. *)
Definition insensitive_to_trailing : Prop :=
  forall pre shape g t,
    In pre shape_prefixes -> In shape shape_literals ->
    valid_id g -> trailing t ->
    extract_video_id (pre ++ shape ++ g ++ t) = Some g.

End Parser.

Import Parser.

(** ** Records of the pipeline *)

Module Records.

(** A Python number carried through unchanged: an [int], or a [float]
    given as mantissa and binary exponent. *)
Inductive number : Type :=
| PyInt (z : Z)
| PyFloat (mantissa exponent : Z).

(** An entry of the list the captioning service returns: the keys
    ['start'], ['text'], and ['duration'] when present. *)
Record cue : Type := {
  cue_start : number;
  cue_duration : option number;
  cue_text : str
}.

(** An element of ['segments']. *)
Record segment : Type := {
  seg_start : number;
  seg_duration : number;
  seg_text : str
}.

(** The dictionaries stored in a batch: the one with
    ['status': 'success'] and the two with ['status': 'failed'] (the
    one for an unparsable URL has no ['video_id'] key). *)
Inductive video_record : Type :=
| Success (video_id : str) (full_text : str) (segments : list segment)
          (total_segments : Z)
| Failure (video_id : option str) (error : str).

(** [data.get('status')] *)
Definition status (data : video_record) : str :=
  match data with
  | Success _ _ _ _ => py "success"
  | Failure _ _ => py "failed"
  end.

(** A Python [dict] with [str] keys: the items in insertion order. *)
Definition dict (V : Type) : Type := list (str * V).

(** [d[k] = v]: an existing key keeps its place. *)
Fixpoint dict_set {V : Type} (d : dict V) (k : str) (v : V) : dict V :=
  match d with
  | [] => [(k, v)]
  | (k', v') :: d' =>
      if str_eqb k' k then (k', v) :: d' else (k', v') :: dict_set d' k v
  end.

(** [d.get(k)] *)
Fixpoint dict_get {V : Type} (d : dict V) (k : str) : option V :=
  match d with
  | [] => None
  | (k', v') :: d' => if str_eqb k' k then Some v' else dict_get d' k
  end.

Definition keys {V : Type} (d : dict V) : list str := map fst d.

Definition batch : Type := dict video_record.

(** An element of the list [prepare_for_training] returns. *)
Record training_chunk : Type := {
  tc_video_id : str;
  tc_chunk_index : Z;
  tc_text : str
}.

(** A row of the table given to [pd.DataFrame]. *)
Record csv_row : Type := {
  row_video_id : str;
  row_start_time : number;
  row_duration : number;
  row_text : str
}.

(** What is handed to the writer of a file: the object given to
    [json.dump], the text written with [f.write], or the rows given to
    [DataFrame.to_csv]. *)
Inductive file_content : Type :=
| JsonDoc (transcripts : batch)
| Text (s : str)
| Csv (rows : list csv_row).

End Records.

Import Records.

(** ** Effects: exceptions, the captioning service and the file system

    A method is a tree of calls to the outside world; each call is
    answered by the world with a value or with a raised exception.
    Calls to the logger are not part of the model. *)

Module Effects.

Record exn : Type := {
  exn_class : string;           (* name of the class *)
  exn_is_Exception : bool;      (* [isinstance(e, Exception)] *)
  exn_str : str                 (* [str(e)] *)
}.

Definition ValueError (msg : str) : exn :=
  {| exn_class := "ValueError"; exn_is_Exception := true; exn_str := msg |}.

Inductive result (A : Type) : Type :=
| Ok (a : A)
| Err (e : exn).
Arguments Ok {A} a.
Arguments Err {A} e.

Inductive prog (A : Type) : Type :=
| Ret (a : A)
| Raise (e : exn)
| GetTranscript (video_id : str) (k : result (list cue) -> prog A)
| PathExists (path : str) (k : bool -> prog A)
| MakeDirs (path : str) (k : result unit -> prog A)
| WriteFile (path : str) (content : file_content) (k : result unit -> prog A).
Arguments Ret {A} a.
Arguments Raise {A} e.
Arguments GetTranscript {A} video_id k.
Arguments PathExists {A} path k.
Arguments MakeDirs {A} path k.
Arguments WriteFile {A} path content k.

(** A call whose exception is not handled where it is made. *)
Definition reraise {A : Type} (r : result A) : prog A :=
  match r with
  | Ok a => Ret a
  | Err e => Raise e
  end.

Fixpoint bind {A B : Type} (p : prog A) (f : A -> prog B) : prog B :=
  match p with
  | Ret a => f a
  | Raise e => Raise e
  | GetTranscript v k => GetTranscript v (fun r => bind (k r) f)
  | PathExists q k => PathExists q (fun b => bind (k b) f)
  | MakeDirs q k => MakeDirs q (fun r => bind (k r) f)
  | WriteFile q c k => WriteFile q c (fun r => bind (k r) f)
  end.

(** [try: body  except Exception as e: handler e] *)
Fixpoint try_except {A : Type} (body : prog A) (handler : exn -> prog A)
  : prog A :=
  match body with
  | Ret a => Ret a
  | Raise e => if exn_is_Exception e then handler e else Raise e
  | GetTranscript v k => GetTranscript v (fun r => try_except (k r) handler)
  | PathExists q k => PathExists q (fun b => try_except (k b) handler)
  | MakeDirs q k => MakeDirs q (fun r => try_except (k r) handler)
  | WriteFile q c k => WriteFile q c (fun r => try_except (k r) handler)
  end.

(** [for x in l: s = body x s] *)
Fixpoint for_each {X S : Type} (l : list X) (body : X -> S -> prog S) (s : S)
  : prog S :=
  match l with
  | [] => Ret s
  | x :: l' => bind (body x s) (for_each l' body)
  end.

(** What the world saw and answered. *)
Inductive event : Type :=
| EvGetTranscript (video_id : str) (r : result (list cue))
| EvPathExists (path : str) (b : bool)
| EvMakeDirs (path : str) (r : result unit)
| EvWriteFile (path : str) (content : file_content) (r : result unit).

Inductive outcome (A : Type) : Type :=
| Returned (a : A)
| Raised (e : exn).
Arguments Returned {A} a.
Arguments Raised {A} e.

(** [runs p tr o]: with the answers recorded in [tr], [p] makes exactly
    the calls of [tr] and ends with [o]. *)
Inductive runs {A : Type} : prog A -> list event -> outcome A -> Prop :=
| runs_Ret a : runs (Ret a) [] (Returned a)
| runs_Raise e : runs (Raise e) [] (Raised e)
| runs_GetTranscript v k r tr o :
    runs (k r) tr o -> runs (GetTranscript v k) (EvGetTranscript v r :: tr) o
| runs_PathExists q k b tr o :
    runs (k b) tr o -> runs (PathExists q k) (EvPathExists q b :: tr) o
| runs_MakeDirs q k r tr o :
    runs (k r) tr o -> runs (MakeDirs q k) (EvMakeDirs q r :: tr) o
| runs_WriteFile q c k r tr o :
    runs (k r) tr o -> runs (WriteFile q c k) (EvWriteFile q c r :: tr) o.

(** A world that answers the calls, for running a method. *)
Record world (W : Type) : Type := {
  on_get_transcript : str -> W -> result (list cue) * W;
  on_path_exists : str -> W -> bool;
  on_makedirs : str -> W -> result unit * W;
  on_write_file : str -> file_content -> W -> result unit * W
}.
Arguments on_get_transcript {W} _ _ _.
Arguments on_path_exists {W} _ _ _.
Arguments on_makedirs {W} _ _ _.
Arguments on_write_file {W} _ _ _ _.

Fixpoint run {W A : Type} (E : world W) (p : prog A) (w : W)
  : list event * outcome A * W :=
  match p with
  | Ret a => ([], Returned a, w)
  | Raise e => ([], Raised e, w)
  | GetTranscript v k =>
      let '(r, w1) := on_get_transcript E v w in
      let '(tr, o, w2) := run E (k r) w1 in
      (EvGetTranscript v r :: tr, o, w2)
  | PathExists q k =>
      let b := on_path_exists E q w in
      let '(tr, o, w2) := run E (k b) w in
      (EvPathExists q b :: tr, o, w2)
  | MakeDirs q k =>
      let '(r, w1) := on_makedirs E q w in
      let '(tr, o, w2) := run E (k r) w1 in
      (EvMakeDirs q r :: tr, o, w2)
  | WriteFile q c k =>
      let '(r, w1) := on_write_file E q c w in
      let '(tr, o, w2) := run E (k r) w1 in
      (EvWriteFile q c r :: tr, o, w2)
  end.

End Effects.

Import Effects.

Notation "x <- p ;; q" := (bind p (fun x => q))
  (at level 61, p at next level, right associativity).

(** ** [class YouTubeTranscriptExtractor] *)

Module Extractor.

(** The object: its one attribute that the methods read. *)
Record extractor : Type := { output_dir : str }.

(** [ensure_output_directory] *)
Definition ensure_output_directory (self : extractor) : prog unit :=
  PathExists (output_dir self) (fun found =>
    if negb found then MakeDirs (output_dir self) reraise else Ret tt).

(** [__init__] *)
Definition init (output_dir : str) : prog extractor :=
  let self := {| output_dir := output_dir |} in
  _ <- ensure_output_directory self ;;
  Ret self.

(** The local variables of the loop of [extract_single_transcript]. *)
Record fetch_state : Type := {
  full_text : str;
  processed_segments : list segment
}.

Definition fetch_init : fetch_state :=
  {| full_text := []; processed_segments := [] |}.

(** One iteration of [for entry in transcript_list]. *)
Definition fetch_step (st : fetch_state) (entry : cue) : fetch_state :=
  let cleaned_text := clean_transcript_text (cue_text entry) in
  {| full_text := full_text st ++ (cleaned_text ++ [space]);
     processed_segments :=
       processed_segments st ++
       [{| seg_start := cue_start entry;
           seg_duration := match cue_duration entry with
                           | Some d => d
                           | None => PyInt 0
                           end;
           seg_text := cleaned_text |}] |}.

(** [extract_single_transcript] *)
Definition extract_single_transcript (video_id : str) : prog video_record :=
  try_except
    (transcript_list <- GetTranscript video_id reraise ;;
     let st := fold_left fetch_step transcript_list fetch_init in
     Ret (Success video_id (strip (full_text st)) (processed_segments st)
                  (len (processed_segments st))))
    (fun e => Ret (Failure (Some video_id) (exn_str e))).

Definition invalid_url_record : video_record :=
  Failure None (py "Invalid YouTube URL").

(** The body of the loop of [extract_transcripts]; [if video_id:] is
    false for [None] and for the empty string. *)
Definition extract_one (url : str) (results : batch) : prog batch :=
  match extract_video_id url with
  | Some video_id =>
      if nonempty video_id then
        result <- extract_single_transcript video_id ;;
        Ret (dict_set results video_id result)
      else Ret (dict_set results url invalid_url_record)
  | None => Ret (dict_set results url invalid_url_record)
  end.

(** [extract_transcripts] *)
Definition extract_transcripts (urls : list str) : prog batch :=
  for_each urls extract_one [].

(** The key under which [extract_transcripts] stores the entry of a
    URL. *)
Definition batch_key (url : str) : str :=
  match extract_video_id url with
  | Some video_id => if nonempty video_id then video_id else url
  | None => url
  end.

(** [for k, v in entries: d[k] = v] *)
Definition store_all (entries : list (str * video_record)) (d : batch) : batch :=
  fold_left (fun d it => dict_set d (fst it) (snd it)) entries d.

(** The entries the batch extractor is to produce, as the specification
    words them: for each URL in input order, if the URL parser yields an
    identifier, the result of the transcript fetcher under that
    identifier, otherwise the record of an invalid URL under the raw
    URL.  [tr] collects the calls made for them, in order. *)
Inductive entries_for : list str -> list event -> list (str * video_record) -> Prop :=
| entries_nil : entries_for [] [] []
| entries_fetched url video_id tr1 result urls tr entries :
    extract_video_id url = Some video_id ->
    runs (extract_single_transcript video_id) tr1 (Returned result) ->
    entries_for urls tr entries ->
    entries_for (url :: urls) (tr1 ++ tr) ((video_id, result) :: entries)
| entries_invalid url urls tr entries :
    extract_video_id url = None ->
    entries_for urls tr entries ->
    entries_for (url :: urls) tr ((url, invalid_url_record) :: entries).

(** The video identifiers the captioning service was asked for. *)
Definition asked (tr : list event) : list str :=
  flat_map (fun ev => match ev with
                      | EvGetTranscript v _ => [v]
                      | _ => []
                      end) tr.

(** The exceptions the captioning service raised in a run. *)
Definition service_errors (tr : list event) : list exn :=
  flat_map (fun ev => match ev with
                      | EvGetTranscript _ (Err e) => [e]
                      | _ => []
                      end) tr.

(** The identifiers of the URLs that the URL parser accepts. *)
Definition parsed_ids (urls : list str) : list str :=
  flat_map (fun url => match extract_video_id url with
                       | Some v => [v]
                       | None => []
                       end) urls.

(** Modelled from the spec: [SUPPORTED_FORMATS] of the [config] module,
    which is not among the sources; the spec gives the recognized set
    as json, txt, csv. *)
Definition SUPPORTED_FORMATS : list str := [py "json"; py "txt"; py "csv"].

(** [repr] of a list of plain strings, as an f-string prints it. *)
Definition repr_list (l : list str) : str :=
  py "[" ++ join (py ", ") (map (fun x => py "'" ++ x ++ py "'") l) ++ py "]".

(** [os.path.join(a, b)] *)
Definition path_join (a b : str) : str :=
  let joined := match rev a with
                | [] => b
                | d :: _ => if N.eqb d (ch "/") then a ++ b else a ++ py "/" ++ b
                end in
  match b with
  | c :: _ => if N.eqb c (ch "/") then b else joined
  | [] => joined
  end.

(** The text written for one item in the txt format. *)
Definition txt_block (video_id : str) (data : video_record) : str :=
  if str_eqb (status data) (py "success") then
    match data with
    | Success _ text _ _ =>
        (py "Video ID: " ++ video_id ++ [newline]) ++
        (py "Full Text: " ++ text ++ [newline]) ++
        (repeat (ch "-") 80 ++ [newline; newline])
    | Failure _ _ => []
    end
  else [].

(** The rows appended for one item in the csv format. *)
Definition csv_rows (video_id : str) (data : video_record) : list csv_row :=
  if str_eqb (status data) (py "success") then
    match data with
    | Success _ _ segments _ =>
        map (fun sg => {| row_video_id := video_id;
                          row_start_time := seg_start sg;
                          row_duration := seg_duration sg;
                          row_text := seg_text sg |}) segments
    | Failure _ _ => []
    end
  else [].

(** [save_transcripts] *)
Definition save_transcripts (self : extractor) (transcripts : batch)
    (format filename : str) : prog str :=
  if negb (existsb (str_eqb format) SUPPORTED_FORMATS) then
    Raise (ValueError (py "Unsupported format: " ++ format ++
                       py ". Use one of " ++ repr_list SUPPORTED_FORMATS))
  else
    let filepath := path_join (output_dir self) (filename ++ py "." ++ format) in
    _ <- (if str_eqb format (py "json") then
            WriteFile filepath (JsonDoc transcripts) reraise
          else if str_eqb format (py "txt") then
            WriteFile filepath
              (Text (flat_map (fun it => txt_block (fst it) (snd it)) transcripts))
              reraise
          else if str_eqb format (py "csv") then
            WriteFile filepath
              (Csv (flat_map (fun it => csv_rows (fst it) (snd it)) transcripts))
              reraise
          else Ret tt) ;;
    Ret filepath.

(** The message of the [ValueError] of [save_transcripts]. *)
Definition unsupported_format_message (format : str) : str :=
  py "Unsupported format: " ++ format ++
  py ". Use one of " ++ repr_list SUPPORTED_FORMATS.

(** The path [save_transcripts] writes to. *)
Definition save_path (self : extractor) (format filename : str) : str :=
  path_join (output_dir self) (filename ++ py "." ++ format).

Definition is_write (ev : event) : Prop :=
  match ev with
  | EvWriteFile _ _ _ => True
  | _ => False
  end.

(** In the calls [tr], every file write comes after the directory [d]
    was found to exist or was created. *)
Definition ensured_before_writes (d : str) (tr : list event) : Prop :=
  forall tr1 q c r tr2,
    tr = tr1 ++ EvWriteFile q c r :: tr2 ->
    In (EvPathExists d true) tr1 \/ In (EvMakeDirs d (Ok tt)) tr1.

(** Every call of [save_transcripts] finds or creates the output
    directory before it writes. *)
Definition save_ensures_directory : Prop :=
  forall self transcripts format filename tr o,
    runs (save_transcripts self transcripts format filename) tr o ->
    ensured_before_writes (output_dir self) tr.

End Extractor.

Import Extractor.

(** ** [class AITrainingDataPreparer], second part *)

Module Preparer.

(** [enumerate(l)] *)
Fixpoint enumerate_from {A : Type} (i : Z) (l : list A) : list (Z * A) :=
  match l with
  | [] => []
  | x :: l' => (i, x) :: enumerate_from (i + 1) l'
  end.

Definition enumerate {A : Type} (l : list A) : list (Z * A) :=
  enumerate_from 0 l.

(** Modelled from the spec: the end of [prepare_for_training].  The
    source stops inside the dictionary appended for a chunk, after
    ['video_id': video_id]; the spec gives the record as video
    identifier, chunk index and text, with the index of [enumerate], and
    the list [training_data] as the value returned. *)
Definition make_chunk (video_id : str) (it : Z * str) : training_chunk :=
  {| tc_video_id := video_id; tc_chunk_index := fst it; tc_text := snd it |}.

(** One iteration of [for video_id, data in transcripts.items()]. *)
Definition prepare_step (max_chunk_length : Z)
    (training_data : list training_chunk) (item : str * video_record)
  : list training_chunk :=
  let (video_id, data) := item in
  if str_eqb (status data) (py "success") then
    match data with
    | Success _ text _ _ =>
        let text_chunks := chunk_text max_chunk_length text in
        training_data ++ map (make_chunk video_id) (enumerate text_chunks)
    | Failure _ _ => training_data
    end
  else training_data.

(** [prepare_for_training], with [self.max_chunk_length] as first
    argument. *)
Definition prepare_for_training (max_chunk_length : Z) (transcripts : batch)
  : list training_chunk :=
  fold_left (prepare_step max_chunk_length) transcripts [].

End Preparer.

Import Preparer.

(** ** A world to run the methods in

    One possible world: a captioning service that answers by video
    identifier, and a file system that knows its directories and files
    by name. *)

Module SampleWorld.

Record state : Type := {
  service : str -> result (list cue);
  dirs : list str;
  files : dict file_content
}.

Definition FileNotFoundError (path : str) : exn :=
  {| exn_class := "FileNotFoundError"; exn_is_Exception := true;
     exn_str := py "No such file or directory: " ++ path |}.

Definition FileExistsError (path : str) : exn :=
  {| exn_class := "FileExistsError"; exn_is_Exception := true;
     exn_str := py "File exists: " ++ path |}.

Fixpoint drop_last_component (r : str) : str :=
  match r with
  | [] => []
  | c :: r' => if N.eqb c (ch "/") then r' else drop_last_component r'
  end.

(** The directory part of a path (empty for a bare file name). *)
Definition dirname (path : str) : str := rev (drop_last_component (rev path)).

Definition has_dir (w : state) (d : str) : bool := existsb (str_eqb d) (dirs w).

Definition sample : world state :=
  {| on_get_transcript := fun v w => (service w v, w);
     on_path_exists := fun q w =>
       has_dir w q || existsb (str_eqb q) (keys (files w));
     on_makedirs := fun q w =>
       if has_dir w q then (Err (FileExistsError q), w)
       else (Ok tt, {| service := service w; dirs := dirs w ++ [q];
                       files := files w |});
     on_write_file := fun q c w =>
       if negb (nonempty (dirname q)) || has_dir w (dirname q)
       then (Ok tt, {| service := service w; dirs := dirs w;
                       files := dict_set (files w) q c |})
       else (Err (FileNotFoundError q), w) |}.

End SampleWorld.

(** ** Sample inputs *)

Module Samples.

Import SampleWorld.

Definition cues : list cue :=
  [ {| cue_start := PyFloat 0 0;
       cue_duration := Some (PyFloat 3 (-1));
       cue_text := py "hello [Music] there" |};
    {| cue_start := PyInt 2;
       cue_duration := None;
       cue_text := py "(applause)  world" |} ].

Definition segments : list segment :=
  [ {| seg_start := PyFloat 0 0;
       seg_duration := PyFloat 3 (-1);
       seg_text := py "hello there" |};
    {| seg_start := PyInt 2;
       seg_duration := PyInt 0;
       seg_text := py "world" |} ].

Definition record : video_record :=
  Success (py "ABC123") (py "hello there world") segments 2.

Definition disabled : exn :=
  {| exn_class := "TranscriptsDisabled"; exn_is_Exception := true;
     exn_str := py "Subtitles are disabled for this video" |}.

Definition failed_record : video_record :=
  Failure (Some (py "bad1")) (py "Subtitles are disabled for this video").

(** A service that knows one video. *)
Definition service (video_id : str) : result (list cue) :=
  if str_eqb video_id (py "ABC123") then Ok cues else Err disabled.

(** A world with no directory and no file. *)
Definition empty_world : state :=
  {| SampleWorld.service := service; dirs := []; files := [] |}.

Definition urls2 : list str := [py "https://youtu.be/ABC123"; py "not a url"].

Definition urls3 : list str :=
  [py "https://youtu.be/bad1"; py "not a url";
   py "https://www.youtube.com/watch?v=ABC123&t=10"].

Definition batch2 : batch :=
  [(py "ABC123", record); (py "not a url", invalid_url_record)].

Definition batch3 : batch :=
  [(py "bad1", failed_record); (py "not a url", invalid_url_record);
   (py "ABC123", record)].

Definition trace3 : list event :=
  [EvGetTranscript (py "bad1") (Err disabled);
   EvGetTranscript (py "ABC123") (Ok cues)].

Definition self : extractor := {| output_dir := py "output" |}.

(** The calls of constructing an extractor and saving a batch, in a
    world where the directory is missing. *)
Definition trace_init_save : list event :=
  [EvPathExists (py "output") false;
   EvMakeDirs (py "output") (Ok tt);
   EvWriteFile (py "output/x.json") (JsonDoc batch2) (Ok tt)].

End Samples.

(** ** Shapes of the output of the chunker *)

Module ChunkerShape.

(** What [chunk_text] would return if the loop stopped in state [st]. *)
Definition flushed (st : chunk_state) : list str :=
  if nonempty (current_chunk st)
  then chunks st ++ [join [space] (current_chunk st)]
  else chunks st.

(** The length the loop counts for words taken by its first branch:
    each word and one separator. *)
Definition mass (ws : list str) : Z :=
  fold_right (fun w a => len w + 1 + a) 0 ws.

(** Consecutive groups of words are tight for the bound [N]: a group,
    one space and the first word of the next group, and one more
    character, exceed [N]. *)
Fixpoint tight (N : Z) (groups : list (list str)) : Prop :=
  match groups with
  | [] => True
  | g :: rest =>
      match rest with
      | [] => True
      | g' :: _ => N < len (join [space] g) + len (hd [] g') + 2
      end /\ tight N rest
  end.

(** Invariant of the loop of [chunk_text] for tightness. *)
Definition tight_inv (N : Z) (ws : list str) (st : chunk_state) : Prop :=
  exists groups,
    chunks st = map (join [space]) groups /\
    List.concat groups ++ current_chunk st = ws /\
    tight N groups /\
    current_length st <= mass (current_chunk st) /\
    (groups <> [] ->
     current_chunk st <> [] /\
     N < len (join [space] (last groups [])) +
         len (hd [] (current_chunk st)) + 2).

End ChunkerShape.

Import ChunkerShape.

(** ** The URL patterns, by shape *)

Module Shapes.

(** The pattern of the source for the shape literal [l]. *)
Definition shape_pattern (l : str) : regex :=
  url_prefix (Cat (lit l) id_group).

(** A match of a pattern is found in [url] after the literal [l]: the
    URL is some text, the literal, the captured text, and a trailing
    part that the group cannot extend into. *)
Definition found_after (l : str) (url g : str) : Prop :=
  exists a t, url = a ++ l ++ g ++ t /\ valid_id g /\ trailing t.

End Shapes.

Import Shapes.

(** ** Normalized texts *)

Module Normalized.

(** No white space at either end. *)
Definition stripped (t : str) : Prop :=
  (forall c r, t = c :: r -> is_space c = false) /\
  (forall c r, t = r ++ [c] -> is_space c = false).

(** The only white space is the plain space. *)
Definition plain_spaces (t : str) : Prop :=
  Forall (fun c => is_space c = true -> c = space) t.

(** No two spaces in a row. *)
Fixpoint no_double (t : str) : Prop :=
  match t with
  | [] => True
  | a :: r =>
      match r with
      | b :: _ => ~ (a = space /\ b = space)
      | [] => True
      end /\ no_double r
  end.

(** The text starts with something that is not white space, or is
    empty. *)
Definition starts_solid (t : str) : Prop :=
  match t with
  | [] => True
  | c :: _ => is_space c = false
  end.

End Normalized.

Import Normalized.

(** ** Views of cues, batches and traces *)

Module Views.

(** The segment [extract_single_transcript] makes of a cue. *)
Definition segment_of (entry : cue) : segment :=
  {| seg_start := cue_start entry;
     seg_duration := match cue_duration entry with
                     | Some d => d
                     | None => PyInt 0
                     end;
     seg_text := clean_transcript_text (cue_text entry) |}.

(** The keys of a list in order of first occurrence. *)
Definition first_occurrences (ks : list str) : list str :=
  fold_left (fun acc k => if existsb (str_eqb k) acc then acc else acc ++ [k])
            ks [].

(** The last entry stored under a key. *)
Definition last_stored (entries : list (str * video_record)) (k : str)
  : option video_record :=
  match find (fun it => str_eqb (fst it) k) (rev entries) with
  | Some it => Some (snd it)
  | None => None
  end.

(** A call to the captioning service with an identifier the URL parser
    can produce. *)
Definition is_fetch (ev : event) : Prop :=
  match ev with
  | EvGetTranscript v _ => valid_id v
  | _ => False
  end.

(** The items of a batch whose status is success. *)
Definition only_success (b : batch) : batch :=
  filter (fun it => str_eqb (status (snd it)) (py "success")) b.

(** The number of segments of a record (none for a failed one). *)
Definition segment_count (data : video_record) : Z :=
  match data with
  | Success _ _ segments _ => len segments
  | Failure _ _ => 0
  end.

End Views.

Import Views.

(** ** The example scripts

    The scripts import their classes from [src.transcript_extractor],
    which is not among the sources.  [DEFAULT_OUTPUT_DIR] belongs to
    the [config] module, which is not among the sources either: it is
    a parameter.  Calls to [print] are not part of the model. *)

Module Examples.

(** The steps the example scripts share: construct the extractor,
    extract, save twice, and go on with the batch. *)
Definition export_twice {A : Type} (DEFAULT_OUTPUT_DIR : str)
    (urls : list str) (format1 filename1 format2 filename2 : str)
    (k : batch -> prog A) : prog A :=
  extractor <- init DEFAULT_OUTPUT_DIR ;;
  transcripts <- extract_transcripts urls ;;
  _ <- save_transcripts extractor transcripts format1 filename1 ;;
  _ <- save_transcripts extractor transcripts format2 filename2 ;;
  k transcripts.

Definition video_urls : list str :=
  [py "https://youtube.com/watch?v=YOUR_VIDEO_ID_1";
   py "https://youtube.com/watch?v=YOUR_VIDEO_ID_2"].

(** Modelled from the spec: the class [YouTubeTranscriptExtractor]
    that [examples/basic_usage.py] imports from the absent module
    [src.transcript_extractor]; it is taken to be the class of that
    name in [youtube_transcript_extractor.py], whose methods are the
    URL parser, fetcher, batch extractor and exporter the spec
    describes.  The body is [basic_extraction_example] as the script
    has it. *)
Definition basic_extraction_example (DEFAULT_OUTPUT_DIR : str) : prog batch :=
  extractor <- init DEFAULT_OUTPUT_DIR ;;
  transcripts <- extract_transcripts video_urls ;;
  _ <- save_transcripts extractor transcripts (py "json") (py "basic_transcripts") ;;
  _ <- save_transcripts extractor transcripts (py "txt") (py "basic_transcripts") ;;
  Ret transcripts.

Definition business_urls : list str :=
  [py "https://youtube.com/watch?v=BUSINESS_VIDEO_1";
   py "https://youtube.com/watch?v=TRAINING_VIDEO_2";
   py "https://youtube.com/watch?v=TESTIMONIAL_VIDEO_3"].

(** Modelled from the spec: the classes [YouTubeTranscriptExtractor]
    and [AITrainingDataPreparer] that [examples/business_example.py]
    imports from the absent module [src.transcript_extractor]; they
    are taken to be the classes of these names in
    [youtube_transcript_extractor.py], the components the spec
    describes.  The body is [extract_business_content] as the script
    has it. *)
Definition extract_business_content (DEFAULT_OUTPUT_DIR : str)
  : prog (batch * list training_chunk) :=
  extractor <- init DEFAULT_OUTPUT_DIR ;;
  transcripts <- extract_transcripts business_urls ;;
  _ <- save_transcripts extractor transcripts (py "csv") (py "business_transcripts") ;;
  _ <- save_transcripts extractor transcripts (py "json") (py "business_transcripts") ;;
  let training_data := prepare_for_training 256 transcripts in
  Ret (transcripts, training_data).

(** The calls of the constructor when it returns: the directory is
    found, or it is not found and then created. *)
Definition init_calls (d : str) (tr : list event) : Prop :=
  tr = [EvPathExists d true] \/
  tr = [EvPathExists d false; EvMakeDirs d (Ok tt)].

(** What [save_transcripts] hands to the writer in the txt and csv
    formats. *)
Definition txt_of (b : batch) : file_content :=
  Text (flat_map (fun it => txt_block (fst it) (snd it)) b).

Definition csv_of (b : batch) : file_content :=
  Csv (flat_map (fun it => csv_rows (fst it) (snd it)) b).

End Examples.

Import Examples.

(** ** Sample runs *)

Module SampleRuns.

Import SampleWorld.

(** The value a run returned ([d] when it raised). *)
Definition returned {A : Type} (d : A) (o : outcome A) : A :=
  match o with
  | Returned a => a
  | Raised _ => d
  end.

Definition trace_of {A W : Type} (r : list event * outcome A * W) : list event :=
  fst (fst r).

Definition outcome_of {A W : Type} (r : list event * outcome A * W) : outcome A :=
  snd (fst r).

(** Two URLs with the same identifier, between them one that is not a
    URL. *)
Definition urls_twice : list str :=
  [py "https://youtu.be/ABC123"; py "not a url";
   py "https://www.youtube.com/watch?v=ABC123&t=10"].

Definition batch_run := run sample (extract_transcripts urls_twice) Samples.empty_world.

Definition basic_run :=
  run sample (basic_extraction_example (py "output")) Samples.empty_world.

Definition business_run :=
  run sample (extract_business_content (py "output")) Samples.empty_world.

Definition csv_run :=
  run sample (save_transcripts Samples.self Samples.batch3 (py "csv") (py "x"))
      {| service := Samples.service; dirs := [py "output"]; files := [] |}.

End SampleRuns.

(** ** Asides in a text *)

Module Asides.

(** The text has an opening character [o] with a closing character [c]
    somewhere after it. *)
Definition has_pair (o c : char) (t : str) : Prop :=
  exists a b d, t = a ++ o :: b ++ c :: d.

(** [t] is [s] with some characters left out and some spaces put in. *)
Inductive thinned : str -> str -> Prop :=
| thinned_nil : thinned [] []
| thinned_keep x s t : thinned s t -> thinned (x :: s) (x :: t)
| thinned_drop x s t : thinned s t -> thinned (x :: s) t
| thinned_space s t : thinned s t -> thinned s (space :: t).

End Asides.

Import Asides.

(** * Properties *)

(** ** Facts about Python strings *)

Section PyStrFacts.

Lemma len_nonneg {A : Type} (l : list A) : 0 <= len l.
Proof. unfold len. lia. Qed.

Lemma len_app {A : Type} (l1 l2 : list A) : len (l1 ++ l2) = len l1 + len l2.
Proof. unfold len. rewrite length_app. lia. Qed.

Lemma len_cons {A : Type} (x : A) (l : list A) : len (x :: l) = 1 + len l.
Proof. unfold len. simpl List.length. lia. Qed.

Lemma space_is_space : is_space space = true.
Proof. reflexivity. Qed.

Lemma nonempty_true {A : Type} (l : list A) : nonempty l = true <-> l <> [].
Proof. destruct l; simpl; split; congruence. Qed.

Lemma nonempty_false {A : Type} (l : list A) : nonempty l = false <-> l = [].
Proof. destruct l; simpl; split; congruence. Qed.

Lemma str_eqb_eq (a b : str) : str_eqb a b = true <-> a = b.
Proof.
  unfold str_eqb. destruct (list_eq_dec N.eq_dec a b); split; congruence.
Qed.

Lemma str_eqb_refl (a : str) : str_eqb a a = true.
Proof. now apply str_eqb_eq. Qed.

Lemma str_eqb_neq (a b : str) : str_eqb a b = false <-> a <> b.
Proof.
  unfold str_eqb. destruct (list_eq_dec N.eq_dec a b); split; congruence.
Qed.

(** Scanning a run of non-white-space characters only extends the
    current word. *)
Lemma split_scan_word (w s cur : str) :
  Forall (fun c => is_space c = false) w ->
  split_scan (w ++ s) cur = split_scan s (rev w ++ cur).
Proof.
  revert cur. induction w as [|c w IH]; intros cur Hw; simpl.
  - reflexivity.
  - inversion Hw as [|? ? Hc Hw']; subst. rewrite Hc, IH by assumption.
    now rewrite <- app_assoc.
Qed.

Lemma split_scan_words (s cur : str) :
  Forall (fun c => is_space c = false) cur ->
  Forall is_word (split_scan s cur).
Proof.
  revert cur. induction s as [|c s IH]; intros cur Hcur; simpl.
  - destruct cur as [|d cur]; simpl; constructor; [|constructor].
    split.
    + intro E. apply (f_equal (@List.length _)) in E.
      rewrite length_app in E. simpl in E. lia.
    + apply Forall_app. split.
      * apply Forall_rev. now inversion Hcur.
      * inversion Hcur; subst. now constructor.
  - destruct (is_space c) eqn:Hc.
    + destruct cur as [|d cur]; simpl.
      * apply IH. constructor.
      * constructor; [|apply IH; constructor].
        split.
        -- intro E. apply (f_equal (@List.length _)) in E.
           rewrite length_app in E. simpl in E. lia.
        -- apply Forall_app. split.
           ++ apply Forall_rev. now inversion Hcur.
           ++ inversion Hcur; subst. now constructor.
    + apply IH. now constructor.
Qed.

Lemma split_words (s : str) : Forall is_word (split s).
Proof. apply split_scan_words. constructor. Qed.

Lemma split_whitespace (s : str) :
  Forall (fun c => is_space c = true) s -> split s = [].
Proof.
  unfold split. induction s as [|c s IH]; intros H; simpl.
  - reflexivity.
  - inversion H as [|? ? Hc Hs]; subst. rewrite Hc. simpl. now apply IH.
Qed.

Lemma nonempty_rev {A : Type} (w : list A) :
  w <> [] -> nonempty (rev w) = true.
Proof.
  intros H. apply nonempty_true. intro E.
  apply (f_equal (@rev _)) in E. rewrite rev_involutive in E. now simpl in E.
Qed.

Lemma split_join (ws : list str) :
  Forall is_word ws -> split (join [space] ws) = ws.
Proof.
  unfold split. induction ws as [|w ws IH]; intros H.
  - reflexivity.
  - inversion H as [|? ? [Hne Hw] Hws]; subst.
    destruct ws as [|w' ws].
    + replace (join [space] [w]) with (w ++ []) by apply app_nil_r.
      rewrite split_scan_word by assumption. rewrite app_nil_r.
      unfold split_scan. now rewrite nonempty_rev, rev_involutive.
    + change (join [space] (w :: w' :: ws))
        with (w ++ space :: join [space] (w' :: ws)).
      rewrite split_scan_word by assumption. rewrite app_nil_r.
      cbn [split_scan]. rewrite space_is_space.
      rewrite nonempty_rev, rev_involutive by assumption.
      f_equal. now apply IH.
Qed.

Lemma join_app (sep : str) (l1 l2 : list str) :
  l1 <> [] -> l2 <> [] ->
  join sep (l1 ++ l2) = join sep l1 ++ sep ++ join sep l2.
Proof.
  induction l1 as [|x l1 IH]; intros H1 H2; [congruence|].
  destruct l1 as [|y l1].
  - simpl. destruct l2; [congruence|reflexivity].
  - change (join sep ((x :: y :: l1) ++ l2))
      with (x ++ sep ++ join sep ((y :: l1) ++ l2)).
    rewrite IH by (assumption || discriminate).
    change (join sep (x :: y :: l1)) with (x ++ sep ++ join sep (y :: l1)).
    now rewrite <- !app_assoc.
Qed.

Lemma join_snoc_len (sep : str) (l : list str) (w : str) :
  len (join sep (l ++ [w])) <= len (join sep l) + len sep + len w.
Proof.
  destruct l as [|x l].
  - simpl. pose proof (len_nonneg sep). unfold len at 2. simpl. lia.
  - rewrite join_app by discriminate. rewrite !len_app. simpl. lia.
Qed.

(** Joining the joined groups is joining all the words. *)
Lemma join_concat (sep : str) (groups : list (list str)) :
  Forall (fun g => g <> []) groups ->
  join sep (map (join sep) groups) = join sep (List.concat groups).
Proof.
  induction groups as [|g gs IH]; intros H; [reflexivity|].
  inversion H as [|? ? Hg Hgs]; subst.
  destruct gs as [|g' gs].
  - simpl. now rewrite app_nil_r.
  - change (join sep (map (join sep) (g :: g' :: gs)))
      with (join sep g ++ sep ++ join sep (map (join sep) (g' :: gs))).
    rewrite IH by assumption.
    change (List.concat (g :: g' :: gs)) with (g ++ List.concat (g' :: gs)).
    rewrite join_app; [reflexivity|assumption|].
    inversion Hgs; subst. simpl. destruct g'; [congruence|discriminate].
Qed.

Lemma word_in_join_len (sep : str) (l : list str) (w : str) :
  In w l -> len w <= len (join sep l).
Proof.
  induction l as [|x l IH]; intros Hin; [contradiction|].
  destruct l as [|y l].
  - destruct Hin as [->|[]]. simpl. lia.
  - change (join sep (x :: y :: l)) with (x ++ sep ++ join sep (y :: l)).
    rewrite !len_app. pose proof (len_nonneg sep). pose proof (len_nonneg x).
    destruct Hin as [->|Hin]; [|specialize (IH Hin)]; 
      pose proof (len_nonneg (join sep (y :: l))); lia.
Qed.

Lemma lstrip_app_space (s : str) :
  lstrip (s ++ [space]) = match lstrip s with [] => [] | t => t ++ [space] end.
Proof.
  induction s as [|c s IH]; simpl.
  - reflexivity.
  - destruct (is_space c); [assumption|reflexivity].
Qed.

(** A trailing space does not survive [strip]. *)
Lemma strip_app_space (s : str) : strip (s ++ [space]) = strip s.
Proof.
  unfold strip, rstrip. rewrite lstrip_app_space.
  destruct (lstrip s) as [|c t]; [reflexivity|].
  rewrite rev_app_distr. reflexivity.
Qed.

End PyStrFacts.

(** ** Evaluations on concrete inputs *)

Example chunk_abc :
  chunk_text 3 (py "a b c") = [py "a"; py "b c"].
Proof. reflexivity. Qed.

Example chunk_abc5 :
  chunk_text 5 (py "  a b   c ") = [py "a b"; py "c"].
Proof. reflexivity. Qed.

Example vid1 : extract_video_id (py "https://youtu.be/90mj79GqWhc?si=vsV7zFMErNt7uVSV") = Some (py "90mj79GqWhc").
Proof. vm_compute. reflexivity. Qed.
Example vid2 : extract_video_id (py "https://www.youtube.com/watch?v=abc&t=1") = Some (py "abc").
Proof. vm_compute. reflexivity. Qed.
Example vid3 : extract_video_id (py "youtube.com/embed/abc#x") = Some (py "abc").
Proof. vm_compute. reflexivity. Qed.
Example vid4 : extract_video_id (py "not a url") = None.
Proof. vm_compute. reflexivity. Qed.
Example vid5 : extract_video_id (py "https://youtu.be/ABC123?feature=youtube.com/watch?v=XYZ") = Some (py "XYZ").
Proof. vm_compute. reflexivity. Qed.
Example clean1 : clean_transcript_text (py "  hello [Music] (applause) world
 foo  ") = py "hello world foo".
Proof. vm_compute. reflexivity. Qed.
Example clean2 : clean_transcript_text (py "a [b c] d ] (e") = py "a d ] (e".
Proof. vm_compute. reflexivity. Qed.

(** ** The chunker packs whole words *)

Section ChunkerFacts.

Variable N : Z.

Lemma chunk_inv_init : chunk_inv N [] chunk_init.
Proof.
  exists []. simpl. repeat split; try constructor; try reflexivity.
Qed.

Lemma flush_group_ok (st : chunk_state) :
  current_chunk st <> [] ->
  len (join [space] (current_chunk st)) <= current_length st ->
  (current_chunk st = [] \/ (exists w, current_chunk st = [w]) \/
   current_length st <= N) ->
  group_ok N (current_chunk st).
Proof.
  intros Hne Hlen [H|[H|H]]; split; auto; try contradiction.
  right. lia.
Qed.

Lemma chunk_inv_step (ws : list str) (st : chunk_state) (word : str) :
  chunk_inv N ws st -> chunk_inv N (ws ++ [word]) (chunk_step N st word).
Proof.
  intros (groups & Hch & Hws & Hok & Hlen & Hcur).
  unfold chunk_step.
  destruct (current_length st + len word + 1 <=? N) eqn:Hfit.
  - apply Z.leb_le in Hfit.
    exists groups. simpl. repeat split; auto.
    + now rewrite app_assoc, Hws.
    + pose proof (join_snoc_len [space] (current_chunk st) word) as H.
      change (len [space]) with 1 in H. lia.
  - destruct (nonempty (current_chunk st)) eqn:Hne.
    + apply nonempty_true in Hne.
      exists (groups ++ [current_chunk st]). simpl.
      repeat split.
      * now rewrite map_app, Hch.
      * rewrite concat_app. simpl. rewrite app_nil_r. now rewrite Hws.
      * apply Forall_app. split; auto. constructor; [|constructor].
        now apply flush_group_ok.
      * lia.
      * right. left. now exists word.
    + apply nonempty_false in Hne.
      exists groups. simpl. repeat split; auto.
      * rewrite Hne, app_nil_r in Hws. now rewrite Hws.
      * lia.
      * right. left. now exists word.
Qed.

Lemma chunk_inv_fold (ws ws0 : list str) (st : chunk_state) :
  chunk_inv N ws0 st ->
  chunk_inv N (ws0 ++ ws) (fold_left (chunk_step N) ws st).
Proof.
  revert ws0 st. induction ws as [|w ws IH]; intros ws0 st H; simpl.
  - now rewrite app_nil_r.
  - replace (ws0 ++ w :: ws) with ((ws0 ++ [w]) ++ ws)
      by now rewrite <- app_assoc.
    apply IH. now apply chunk_inv_step.
Qed.

(** The chunks are the joins of consecutive groups of the words of the
    text. *)
Lemma chunk_text_groups (text : str) :
  exists groups,
    chunk_text N text = map (join [space]) groups /\
    List.concat groups = split text /\
    Forall (group_ok N) groups.
Proof.
  pose proof (chunk_inv_fold (split text) [] chunk_init chunk_inv_init) as H.
  simpl in H. fold (chunk_loop N (split text)) in H.
  destruct H as (groups & Hch & Hws & Hok & Hlen & Hcur).
  unfold chunk_text.
  destruct (nonempty (current_chunk (chunk_loop N (split text)))) eqn:Hne.
  - apply nonempty_true in Hne.
    exists (groups ++ [current_chunk (chunk_loop N (split text))]).
    repeat split.
    + now rewrite map_app, Hch.
    + rewrite concat_app. simpl. now rewrite app_nil_r.
    + apply Forall_app. split; auto. constructor; [|constructor].
      now apply flush_group_ok.
  - apply nonempty_false in Hne.
    exists groups. rewrite Hne, app_nil_r in Hws. auto.
Qed.

Lemma in_concat_words (groups : list (list str)) (g : list str) (w : str) :
  In g groups -> In w g -> In w (List.concat groups).
Proof. intros Hg Hw. apply in_concat. eauto. Qed.

Lemma longest_word_bound (text w : str) :
  In w (split text) -> len w <= longest_word text.
Proof.
  unfold longest_word. induction (split text) as [|x l IH]; intros H.
  - contradiction.
  - simpl. destruct H as [->|H]; [|specialize (IH H)]; lia.
Qed.

Lemma join_words_word (g : list str) :
  g <> [] -> Forall is_word g ->
  join [space] g <> [] /\
  (forall c r, join [space] g = c :: r -> is_space c = false) /\
  (forall c r, join [space] g = r ++ [c] -> is_space c = false).
Proof.
  induction g as [|w g IH]; intros Hne Hw; [congruence|].
  inversion Hw as [|? ? [Hwne Hwc] Hg]; subst.
  destruct g as [|w' g].
  - simpl. repeat split; auto.
    + intros c r E. subst. now inversion Hwc.
    + intros c r E. subst. apply Forall_app in Hwc as [_ Hc]. now inversion Hc.
  - change (join [space] (w :: w' :: g))
      with (w ++ space :: join [space] (w' :: g)).
    destruct (IH ltac:(discriminate) Hg) as (Hjne & _ & Hlast).
    repeat split.
    + destruct w; [congruence|discriminate].
    + intros c r E. destruct w as [|d w]; [congruence|].
      simpl in E. injection E as -> _. now inversion Hwc.
    + intros c r E.
      destruct (exists_last Hjne) as (r' & c' & Hj).
      rewrite Hj in E.
      change (w ++ space :: r' ++ [c']) with (w ++ (space :: r') ++ [c']) in E.
      rewrite app_assoc in E. apply app_inj_tail in E as [_ <-].
      now apply (Hlast c' r').
Qed.

End ChunkerFacts.

(** C1: for every text and bound, the chunks of [chunk_text] are joins
    of consecutive whole words of the text (no word is split across
    chunks), and joining the chunks with single spaces and splitting on
    white space gives the words of the text:
    [' '.join(chunk_text(text)).split() == text.split()]. *)
Theorem chunk_text_keeps_words (N : Z) (text : str) :
  (exists groups,
     List.concat groups = split text /\
     Forall (fun g => g <> []) groups /\
     chunk_text N text = map (join [space]) groups) /\
  split (join [space] (chunk_text N text)) = split text.
Proof.
  destruct (chunk_text_groups N text) as (groups & Hch & Hws & Hok).
  assert (Hne : Forall (fun g => g <> []) groups).
  { eapply Forall_impl; [|exact Hok]. now intros g [H _]. }
  split.
  - exists groups. auto.
  - rewrite Hch, join_concat, Hws by assumption.
    apply split_join, split_words.
Qed.

(** C2: every chunk of [chunk_text] is at most
    [max(N, length of the longest word of the text)] long; the chunks
    are the joins of consecutive groups of words covering all the words
    (the last group is emitted at the end of the input), and a word
    longer than [N] is a group, and so a chunk, of its own. *)
Theorem chunk_text_length_bound (N : Z) (text : str) :
  Forall (fun chunk => len chunk <= Z.max N (longest_word text))
         (chunk_text N text) /\
  exists groups,
    chunk_text N text = map (join [space]) groups /\
    List.concat groups = split text /\
    Forall (fun g => forall w, In w g -> N < len w -> g = [w]) groups.
Proof.
  destruct (chunk_text_groups N text) as (groups & Hch & Hws & Hok).
  split.
  - rewrite Hch. apply Forall_map. apply Forall_forall. intros g Hg.
    rewrite Forall_forall in Hok. destruct (Hok g Hg) as [Hne [[w ->]|Hle]].
    + simpl. assert (In w (split text)).
      { rewrite <- Hws. eapply in_concat_words; eauto. now left. }
      pose proof (longest_word_bound text w H). lia.
    + lia.
  - exists groups. repeat split; auto.
    eapply Forall_impl; [|exact Hok].
    intros g [Hne [[w ->]|Hle]] w' Hin Hlong.
    + destruct Hin as [->|[]]. reflexivity.
    + pose proof (word_in_join_len [space] g w' Hin). lia.
Qed.

(** C10: on a text of white space only (the empty text included)
    [chunk_text] returns the empty list; and every chunk it returns, for
    any text, is non-empty and neither starts nor ends with white
    space. *)
Theorem chunk_text_no_empty_chunk (N : Z) (text : str) :
  (Forall (fun c => is_space c = true) text -> chunk_text N text = []) /\
  Forall (fun chunk =>
            chunk <> [] /\
            (forall c r, chunk = c :: r -> is_space c = false) /\
            (forall c r, chunk = r ++ [c] -> is_space c = false))
         (chunk_text N text).
Proof.
  split.
  - intros Hws. unfold chunk_text. now rewrite (split_whitespace text Hws).
  - destruct (chunk_text_groups N text) as (groups & Hch & Hws & Hok).
    rewrite Hch. apply Forall_map. apply Forall_forall. intros g Hg.
    rewrite Forall_forall in Hok. destruct (Hok g Hg) as [Hne _].
    apply join_words_word; auto.
    apply Forall_forall. intros w Hw.
    pose proof (split_words text) as Hall. rewrite Forall_forall in Hall.
    apply Hall. rewrite <- Hws. eapply in_concat_words; eauto.
Qed.

(** ** Runs of a method *)

Section RunFacts.

Context {A B : Type}.

Lemma runs_bind_inv (p : prog A) (f : A -> prog B) tr o :
  runs (bind p f) tr o ->
  (exists tr1 a tr2,
      runs p tr1 (Returned a) /\ runs (f a) tr2 o /\ tr = tr1 ++ tr2) \/
  (exists e, runs p tr (Raised e) /\ o = Raised e).
Proof.
  revert tr o.
  induction p as [a|e|v k IH|q k IH|q k IH|q c k IH]; intros tr o H; simpl in H.
  - left. exists [], a, tr. repeat split; auto. constructor.
  - inversion H; subst. right. exists e. split; constructor.
  - inversion H; subst.
    match goal with Hr : runs (bind (k ?r) f) _ _ |- _ =>
      destruct (IH r _ _ Hr) as [(tr1 & a & tr2 & H1 & H2 & ->)|(e & H1 & ->)]
    end.
    + left. exists (EvGetTranscript v r :: tr1), a, tr2.
      repeat split; auto. now constructor.
    + right. exists e. split; auto. now constructor.
  - inversion H; subst.
    match goal with Hr : runs (bind (k ?r) f) _ _ |- _ =>
      destruct (IH r _ _ Hr) as [(tr1 & a & tr2 & H1 & H2 & ->)|(e & H1 & ->)]
    end.
    + left. exists (EvPathExists q b :: tr1), a, tr2.
      repeat split; auto. now constructor.
    + right. exists e. split; auto. now constructor.
  - inversion H; subst.
    match goal with Hr : runs (bind (k ?r) f) _ _ |- _ =>
      destruct (IH r _ _ Hr) as [(tr1 & a & tr2 & H1 & H2 & ->)|(e & H1 & ->)]
    end.
    + left. exists (EvMakeDirs q r :: tr1), a, tr2.
      repeat split; auto. now constructor.
    + right. exists e. split; auto. now constructor.
  - inversion H; subst.
    match goal with Hr : runs (bind (k ?r) f) _ _ |- _ =>
      destruct (IH r _ _ Hr) as [(tr1 & a & tr2 & H1 & H2 & ->)|(e & H1 & ->)]
    end.
    + left. exists (EvWriteFile q c r :: tr1), a, tr2.
      repeat split; auto. now constructor.
    + right. exists e. split; auto. now constructor.
Qed.

Lemma runs_bind_returned (p : prog A) (f : A -> prog B) tr1 a tr2 o :
  runs p tr1 (Returned a) -> runs (f a) tr2 o ->
  runs (bind p f) (tr1 ++ tr2) o.
Proof.
  revert tr1.
  induction p as [a'|e|v k IH|q k IH|q k IH|q c k IH]; intros tr1 H1 H2;
    inversion H1; subst; simpl; try constructor; auto.
Qed.

Lemma runs_bind_raised (p : prog A) (f : A -> prog B) tr e :
  runs p tr (Raised e) -> runs (bind p f) tr (Raised e).
Proof.
  revert tr.
  induction p as [a'|e'|v k IH|q k IH|q k IH|q c k IH]; intros tr H1;
    inversion H1; subst; simpl; try constructor; auto.
Qed.

End RunFacts.

(** What the interpreter computes is a run. *)
Lemma run_runs {W A : Type} (E : world W) (p : prog A) (w : W) :
  runs p (fst (fst (run E p w))) (snd (fst (run E p w))).
Proof.
  revert w.
  induction p as [a|e|v k IH|q k IH|q k IH|q c k IH]; intros w; simpl.
  - constructor.
  - constructor.
  - destruct (on_get_transcript E v w) as [r w1].
    specialize (IH r w1). destruct (run E (k r) w1) as [[tr o] w2].
    now constructor.
  - specialize (IH (on_path_exists E q w) w).
    destruct (run E (k (on_path_exists E q w)) w) as [[tr o] w2].
    now constructor.
  - destruct (on_makedirs E q w) as [r w1].
    specialize (IH r w1). destruct (run E (k r) w1) as [[tr o] w2].
    now constructor.
  - destruct (on_write_file E q c w) as [r w1].
    specialize (IH r w1). destruct (run E (k r) w1) as [[tr o] w2].
    now constructor.
Qed.

(** ** The transcript fetcher *)

Section FetcherFacts.

Lemma fetch_fold (cues : list cue) (st : fetch_state) :
  full_text (fold_left fetch_step cues st) =
    full_text st ++
    List.concat (map (fun c => clean_transcript_text (cue_text c) ++ [space]) cues) /\
  map seg_text (processed_segments (fold_left fetch_step cues st)) =
    map seg_text (processed_segments st) ++
    map (fun c => clean_transcript_text (cue_text c)) cues /\
  map seg_start (processed_segments (fold_left fetch_step cues st)) =
    map seg_start (processed_segments st) ++ map cue_start cues.
Proof.
  revert st. induction cues as [|c cues IH]; intros st; simpl.
  - now rewrite !app_nil_r.
  - destruct (IH (fetch_step st c)) as (H1 & H2 & H3).
    rewrite H1, H2, H3. simpl. rewrite !map_app. simpl.
    now rewrite <- !app_assoc.
Qed.

Lemma concat_trailing_space (ts : list str) :
  ts <> [] ->
  List.concat (map (fun t => t ++ [space]) ts) = join [space] ts ++ [space].
Proof.
  induction ts as [|t ts IH]; intros H; [congruence|].
  destruct ts as [|t' ts].
  - simpl. now rewrite app_nil_r.
  - change (List.concat (map (fun t => t ++ [space]) (t :: t' :: ts)))
      with ((t ++ [space]) ++ List.concat (map (fun t => t ++ [space]) (t' :: ts))).
    rewrite IH by discriminate.
    change (join [space] (t :: t' :: ts))
      with (t ++ [space] ++ join [space] (t' :: ts)).
    now rewrite <- !app_assoc.
Qed.

Lemma strip_concat_join (ts : list str) :
  strip (List.concat (map (fun t => t ++ [space]) ts)) = strip (join [space] ts).
Proof.
  destruct ts as [|t ts]; [reflexivity|].
  rewrite concat_trailing_space by discriminate. apply strip_app_space.
Qed.

(** The runs of the fetcher: one call to the service, and an outcome
    fixed by the answer. *)
Lemma fetch_runs_inv (video_id : str) tr o :
  runs (extract_single_transcript video_id) tr o ->
  exists r, tr = [EvGetTranscript video_id r] /\
    match r with
    | Ok cues =>
        let st := fold_left fetch_step cues fetch_init in
        o = Returned (Success video_id (strip (full_text st))
                              (processed_segments st)
                              (len (processed_segments st)))
    | Err e =>
        if exn_is_Exception e
        then o = Returned (Failure (Some video_id) (exn_str e))
        else o = Raised e
    end.
Proof.
  unfold extract_single_transcript. simpl. intros H.
  inversion H as [| |v k r tr' o' Hk| | |]; subst.
  exists r. destruct r as [cues|e]; simpl in Hk.
  - inversion Hk; subst. auto.
  - destruct (exn_is_Exception e); inversion Hk; subst; auto.
Qed.

Lemma fetch_runs_intro (video_id : str) (r : result (list cue)) :
  (forall e, r = Err e -> exn_is_Exception e = true) ->
  exists result,
    runs (extract_single_transcript video_id)
         [EvGetTranscript video_id r] (Returned result).
Proof.
  intros Hr. unfold extract_single_transcript. simpl.
  destruct r as [cues|e].
  - eexists. constructor. simpl. constructor.
  - eexists. constructor. simpl. rewrite (Hr e eq_refl). constructor.
Qed.

End FetcherFacts.

(** C5: a record with status success returned by
    [extract_single_transcript] has a segment count equal to the length
    of its segment list, and a full text equal to the segment texts
    joined with single spaces and stripped; the segment texts are the
    normalized texts of the cues the service returned. *)
Theorem success_record_invariant (video_id : str) tr v text segments total :
  runs (extract_single_transcript video_id) tr
       (Returned (Success v text segments total)) ->
  total = len segments /\
  text = strip (join [space] (map seg_text segments)) /\
  exists cues,
    tr = [EvGetTranscript video_id (Ok cues)] /\
    map seg_text segments =
      map (fun c => clean_transcript_text (cue_text c)) cues.
Proof.
  intros H. apply fetch_runs_inv in H as (r & -> & Hr).
  destruct r as [cues|e].
  - simpl in Hr. injection Hr as -> -> -> ->.
    destruct (fetch_fold cues fetch_init) as (Hft & Hseg & _).
    simpl in Hft, Hseg. repeat split.
    + rewrite Hft, Hseg.
      rewrite <- strip_concat_join. now rewrite map_map.
    + now exists cues.
  - destruct (exn_is_Exception e); discriminate.
Qed.

(** ** What a match of the URL patterns captures *)

Section RegexFacts.

Lemma plus_greedy_sound (cs : cset) (s m r : str) :
  In (m, r) (plus_greedy cs s) ->
  m <> [] /\ Forall (fun c => in_cset cs c = true) m /\ s = m ++ r.
Proof.
  revert m r. induction s as [|c s IH]; intros m r H; simpl in H.
  - contradiction.
  - destruct (in_cset cs c) eqn:Hc; [|contradiction].
    apply in_app_or in H as [H|H].
    + apply in_map_iff in H as ([m' r'] & E & H). unfold extend in E.
      simpl in E. injection E as <- <-.
      destruct (IH _ _ H) as (Hne & Hall & ->).
      repeat split; auto. discriminate.
    + destruct H as [E|[]]. injection E as <- <-.
      repeat split; auto. discriminate.
Qed.

Lemma captures_cat (Q : str -> Prop) (r1 r2 : regex) :
  captures Q r2 -> captures Q (Cat r1 r2).
Proof.
  intros H s m Hm. simpl in Hm.
  apply in_flat_map in Hm as (m1 & _ & Hm).
  apply in_map_iff in Hm as (m2 & <- & Hm2).
  destruct (H _ _ Hm2) as (g & Hg & HQ).
  exists g. simpl. now rewrite Hg.
Qed.

Lemma in_cset_none_of (ds : list char) (c : char) :
  in_cset (CNoneOf ds) c = true <-> ~ In c ds.
Proof.
  simpl. rewrite negb_true_iff. split.
  - intros H Hin. assert (existsb (N.eqb c) ds = true); [|congruence].
    apply existsb_exists. exists c. split; auto. apply N.eqb_refl.
  - intros H. destruct (existsb (N.eqb c) ds) eqn:E; auto.
    apply existsb_exists in E as (d & Hd & Hcd).
    apply N.eqb_eq in Hcd. subst. contradiction.
Qed.

Lemma captures_id_group : captures valid_id id_group.
Proof.
  intros s m Hm. unfold id_group in Hm. simpl in Hm.
  apply in_map_iff in Hm as (m' & <- & Hm').
  apply in_map_iff in Hm' as ([g r] & <- & Hg).
  apply plus_greedy_sound in Hg as (Hne & Hall & _).
  exists g. simpl. split; auto. split; auto.
  eapply Forall_impl; [|exact Hall].
  intros c Hc. now apply in_cset_none_of.
Qed.

Lemma captures_url_prefix (Q : str -> Prop) (l : str) :
  captures Q id_group -> captures Q (url_prefix (Cat (lit l) id_group)).
Proof.
  intros H. unfold url_prefix. now repeat apply captures_cat.
Qed.

Lemma re_search_matches (r : regex) (s : str) (m : rmatch) :
  re_search r s = Some m -> exists s', In m (matches r s').
Proof.
  induction s as [|c s IH]; simpl.
  - destruct (matches r []) eqn:E; [discriminate|].
    intros H. injection H as <-. exists []. rewrite E. now left.
  - destruct (matches r (c :: s)) eqn:E.
    + apply IH.
    + intros H. injection H as <-. exists (c :: s). rewrite E. now left.
Qed.

Lemma first_group_captures (Q : str -> Prop) (ps : list regex) (url g : str) :
  Forall (captures Q) ps -> first_group ps url = Some g -> Q g.
Proof.
  induction ps as [|p ps IH]; intros Hps H; simpl in H; [discriminate|].
  inversion Hps as [|? ? Hp Hps']; subst.
  destruct (re_search p url) as [m|] eqn:E.
  - apply re_search_matches in E as (s' & Hm).
    destruct (Hp _ _ Hm) as (g' & Hg & HQ). congruence.
  - now apply IH.
Qed.

(** Whatever [extract_video_id] returns is a non-empty text without
    [&], newline, [?] and [#]. *)
Lemma extract_video_id_valid (url g : str) :
  extract_video_id url = Some g -> valid_id g.
Proof.
  apply first_group_captures.
  repeat constructor; apply captures_url_prefix, captures_id_group.
Qed.

Lemma extract_video_id_nonempty (url g : str) :
  extract_video_id url = Some g -> nonempty g = true.
Proof.
  intros H. apply extract_video_id_valid in H as [Hne _].
  now apply nonempty_true.
Qed.

End RegexFacts.

(** ** The batch extractor *)

Section BatchFacts.

Lemma dict_get_set {V : Type} (d : dict V) (k : str) (v : V) :
  dict_get (dict_set d k v) k = Some v.
Proof.
  induction d as [|[k' v'] d IH]; simpl.
  - now rewrite str_eqb_refl.
  - destruct (str_eqb k' k) eqn:E; simpl; rewrite E; auto.
Qed.

Lemma keys_dict_set {V : Type} (d : dict V) (k : str) (v : V) :
  keys (dict_set d k v) = if existsb (str_eqb k) (keys d) then keys d
                          else keys d ++ [k].
Proof.
  unfold keys. induction d as [|[k' v'] d IH]; simpl.
  - reflexivity.
  - destruct (str_eqb k' k) eqn:E.
    + apply str_eqb_eq in E. subst. now rewrite str_eqb_refl.
    + assert (str_eqb k k' = false) as ->.
      { apply str_eqb_neq. apply str_eqb_neq in E. congruence. }
      simpl. rewrite IH. now destruct (existsb (str_eqb k) (map fst d)).
Qed.

Lemma dict_set_fresh {V : Type} (d : dict V) (k : str) (v : V) :
  ~ In k (keys d) -> dict_set d k v = d ++ [(k, v)].
Proof.
  unfold keys. induction d as [|[k' v'] d IH]; simpl; intros H.
  - reflexivity.
  - destruct (str_eqb k' k) eqn:E.
    + apply str_eqb_eq in E. subst. tauto.
    + rewrite IH; auto.
Qed.

Lemma in_keys_dict_set {V : Type} (d : dict V) (k k' : str) (v : V) :
  In k' (keys (dict_set d k v)) <-> k' = k \/ In k' (keys d).
Proof.
  rewrite keys_dict_set. destruct (existsb (str_eqb k) (keys d)) eqn:E.
  - apply existsb_exists in E as (x & Hx & Hkx). apply str_eqb_eq in Hkx.
    subst x. split; auto. intros [->|H]; auto.
  - rewrite in_app_iff. simpl. intuition.
Qed.

Lemma in_keys_store_all (es : list (str * video_record)) (d : batch) (k : str) :
  In k (keys (store_all es d)) <-> In k (map fst es) \/ In k (keys d).
Proof.
  revert d. unfold store_all.
  induction es as [|[k' v] es IH]; intros d; simpl.
  - tauto.
  - rewrite IH, in_keys_dict_set. intuition.
Qed.

(** Storing entries with pairwise different keys into an empty batch
    gives the entries, in their order. *)
Lemma store_all_nodup (es : list (str * video_record)) (d : batch) :
  NoDup (keys d ++ map fst es) -> store_all es d = d ++ es.
Proof.
  revert d. unfold store_all.
  induction es as [|[k v] es IH]; intros d H; simpl.
  - now rewrite app_nil_r.
  - assert (Hk : ~ In k (keys d)).
    { intro Hin. apply NoDup_remove_2 in H. apply H.
      apply in_or_app. now left. }
    rewrite dict_set_fresh by assumption.
    rewrite IH.
    + now rewrite <- app_assoc.
    + unfold keys in *. rewrite map_app. simpl. simpl in H.
      now rewrite <- app_assoc.
Qed.

(** The runs of one iteration of the loop of [extract_transcripts]. *)
Lemma extract_one_inv (url : str) (results : batch) tr o :
  runs (extract_one url results) tr o ->
  match extract_video_id url with
  | Some video_id =>
      (exists result,
          runs (extract_single_transcript video_id) tr (Returned result) /\
          o = Returned (dict_set results video_id result)) \/
      (exists e,
          runs (extract_single_transcript video_id) tr (Raised e) /\
          o = Raised e)
  | None => tr = [] /\ o = Returned (dict_set results url invalid_url_record)
  end.
Proof.
  unfold extract_one. destruct (extract_video_id url) as [video_id|] eqn:E.
  - rewrite (extract_video_id_nonempty _ _ E). intros H.
    apply runs_bind_inv in H
      as [(tr1 & a & tr2 & H1 & H2 & ->)|(e & H1 & ->)].
    + inversion H2; subst. rewrite app_nil_r. left. eauto.
    + right. eauto.
  - intros H. inversion H; subst. auto.
Qed.

Lemma fetch_raised_not_Exception (video_id : str) tr e :
  runs (extract_single_transcript video_id) tr (Raised e) ->
  tr = [EvGetTranscript video_id (Err e)] /\ exn_is_Exception e = false.
Proof.
  intros H. apply fetch_runs_inv in H as (r & -> & Hr).
  destruct r as [cues|e']; [discriminate|].
  destruct (exn_is_Exception e') eqn:E; [discriminate|].
  injection Hr as <-. auto.
Qed.

(** The runs of the loop: either every URL got its entry, or the
    service raised something that is not an [Exception]. *)
Lemma batch_loop_inv (urls : list str) (results : batch) tr o :
  runs (for_each urls extract_one results) tr o ->
  (exists entries,
      entries_for urls tr entries /\
      o = Returned (store_all entries results)) \/
  (exists e,
      o = Raised e /\ In e (service_errors tr) /\
      exn_is_Exception e = false).
Proof.
  revert results tr o.
  induction urls as [|url urls IH]; intros results tr o H; simpl in H.
  - inversion H; subst. left. exists []. split; constructor.
  - apply runs_bind_inv in H
      as [(tr1 & b1 & tr2 & H1 & H2 & ->)|(e & H1 & ->)];
      apply extract_one_inv in H1;
      destruct (extract_video_id url) as [video_id|] eqn:E.
    + destruct H1 as [(result & Hf & Hb)|(e & _ & Hb)]; [|discriminate].
      injection Hb as ->.
      destruct (IH _ _ _ H2) as [(es & Hes & ->)|(e & -> & Hin & He)].
      * left. exists ((video_id, result) :: es). split; auto.
        econstructor; eauto.
      * right. exists e. repeat split; auto.
        unfold service_errors in *. rewrite flat_map_app.
        apply in_or_app. now right.
    + destruct H1 as [-> Hb]. injection Hb as ->. simpl.
      destruct (IH _ _ _ H2) as [(es & Hes & ->)|(e & -> & Hin & He)].
      * left. exists ((url, invalid_url_record) :: es). split; auto.
        now constructor.
      * right. eauto.
    + destruct H1 as [(result & _ & Hb)|(e' & Hf & Hb)]; [discriminate|].
      injection Hb as <-.
      apply fetch_raised_not_Exception in Hf as [-> He].
      right. exists e. repeat split; auto. simpl. now left.
    + destruct H1 as [_ Hb]. discriminate.
Qed.

Lemma entries_for_keys (urls : list str) tr entries :
  entries_for urls tr entries -> map fst entries = map batch_key urls.
Proof.
  induction 1 as [|url video_id tr1 result urls tr entries E Hf _ IH
                  |url urls tr entries E _ IH]; simpl.
  - reflexivity.
  - unfold batch_key at 1. rewrite E.
    rewrite (extract_video_id_nonempty _ _ E). now rewrite IH.
  - unfold batch_key at 1. rewrite E. now rewrite IH.
Qed.

Lemma entries_for_asked (urls : list str) tr entries :
  entries_for urls tr entries -> asked tr = parsed_ids urls.
Proof.
  induction 1 as [|url video_id tr1 result urls tr entries E Hf _ IH
                  |url urls tr entries E _ IH]; simpl.
  - reflexivity.
  - apply fetch_runs_inv in Hf as (r & -> & _).
    rewrite E. simpl. now rewrite IH.
  - rewrite E. simpl. now rewrite IH.
Qed.

End BatchFacts.

(** The example of the specification, for every answer of the service:
    the batch of ["https://youtu.be/ABC123", "not a url"] has two
    entries, the fetcher's record under "ABC123" and the invalid-URL
    record under "not a url". *)
Lemma example_batch_two_entries tr (b : batch) :
  runs (extract_transcripts [py "https://youtu.be/ABC123"; py "not a url"])
       tr (Returned b) ->
  exists result,
    runs (extract_single_transcript (py "ABC123")) tr (Returned result) /\
    b = [(py "ABC123", result);
         (py "not a url", Failure None (py "Invalid YouTube URL"))].
Proof.
  intros H. apply batch_loop_inv in H as [(es & Hes & Hb)|(e & Hb & _)];
    [|discriminate].
  injection Hb as ->.
  inversion Hes as [|url v tr1 result urls tr' es' E Hf Hes'|url urls tr' es' E];
    subst; [|vm_compute in E; discriminate].
  vm_compute in E. injection E as <-.
  inversion Hes' as [|url v tr2 result2 urls tr'' es'' E|url urls tr'' es'' E Hnil];
    subst; [vm_compute in E; discriminate|].
  inversion Hnil; subst. rewrite app_nil_r in *.
  exists result. split; [exact Hf|]. reflexivity.
Qed.

(** C3: in every run of [extract_transcripts] that returns a batch, the
    batch is what storing one entry per URL, in input order, gives:
    for a URL the parser accepts, the record the fetcher returned, under
    the identifier; for any other URL, a record with status failed and
    error "Invalid YouTube URL", under the raw URL.  Storing is
    dictionary assignment, so the keys appear in order of first
    occurrence, and when the keys are pairwise different the batch is
    exactly that list of entries. *)
Theorem extract_transcripts_entries (urls : list str) tr (b : batch) :
  runs (extract_transcripts urls) tr (Returned b) ->
  exists entries,
    entries_for urls tr entries /\
    map fst entries = map batch_key urls /\
    b = store_all entries [] /\
    (forall k, In k (keys b) <-> In k (map batch_key urls)) /\
    (NoDup (map batch_key urls) -> b = entries) /\
    status invalid_url_record = py "failed".
Proof.
  intros H. apply batch_loop_inv in H as [(es & Hes & Hb)|(e & Hb & _)];
    [|discriminate].
  injection Hb as ->. exists es.
  pose proof (entries_for_keys _ _ _ Hes) as Hk.
  repeat split; auto.
  - intros Hin. apply in_keys_store_all in Hin as [Hin|[]]. now rewrite <- Hk.
  - intros Hin. apply in_keys_store_all. left. now rewrite Hk.
  - intros Hnd. now rewrite store_all_nodup by (simpl; now rewrite Hk).
Qed.

(** C4: when the captioning service raises an error (an [Exception]),
    [extract_single_transcript] returns a record with status failed
    carrying [str] of the error, and raises nothing; and a run of
    [extract_transcripts] in which every error of the service is an
    [Exception] returns a batch, after asking the service for every
    URL the parser accepts, in order, with a key for every URL; in
    particular running it in any world gives a batch. *)
Theorem fetch_failure_contained :
  (forall video_id tr o e,
      runs (extract_single_transcript video_id) tr o ->
      In e (service_errors tr) ->
      exn_is_Exception e = true ->
      o = Returned (Failure (Some video_id) (exn_str e)) /\
      status (Failure (Some video_id) (exn_str e)) = py "failed") /\
  (forall urls tr o,
      runs (extract_transcripts urls) tr o ->
      Forall (fun e => exn_is_Exception e = true) (service_errors tr) ->
      exists b,
        o = Returned b /\
        asked tr = parsed_ids urls /\
        forall url, In url urls -> In (batch_key url) (keys b)) /\
  (forall (W : Type) (E : world W) (w : W) urls,
      Forall (fun e => exn_is_Exception e = true)
             (service_errors (fst (fst (run E (extract_transcripts urls) w)))) ->
      exists b, snd (fst (run E (extract_transcripts urls) w)) = Returned b).
Proof.
  assert (Hbatch : forall urls tr o,
      runs (extract_transcripts urls) tr o ->
      Forall (fun e => exn_is_Exception e = true) (service_errors tr) ->
      exists b,
        o = Returned b /\
        asked tr = parsed_ids urls /\
        forall url, In url urls -> In (batch_key url) (keys b)).
  { intros urls tr o H Hall.
    apply batch_loop_inv in H as [(es & Hes & ->)|(e & _ & Hin & He)].
    - exists (store_all es []). repeat split.
      + now apply entries_for_asked in Hes.
      + intros url Hin. apply in_keys_store_all. left.
        rewrite (entries_for_keys _ _ _ Hes). now apply in_map.
    - rewrite Forall_forall in Hall. specialize (Hall e Hin). congruence. }
  split; [|split].
  - intros video_id tr o e H Hin He.
    apply fetch_runs_inv in H as (r & -> & Hr).
    destruct r as [cues|e']; simpl in Hin; [contradiction|].
    destruct Hin as [->|[]]. rewrite He in Hr. auto.
  - exact Hbatch.
  - intros W E w urls Hall.
    destruct (Hbatch urls _ _ (run_runs E (extract_transcripts urls) w) Hall)
      as (b & Hb & _).
    now exists b.
Qed.

(** ** The training-data preparer *)

Section PreparerFacts.

Variable N : Z.

Lemma prepare_step_app (acc : list training_chunk) (item : str * video_record) :
  prepare_step N acc item = acc ++ prepare_step N [] item.
Proof.
  destruct item as [video_id data]. unfold prepare_step.
  destruct (str_eqb (status data) (py "success")); [|now rewrite app_nil_r].
  destruct data; simpl; auto. now rewrite app_nil_r.
Qed.

Lemma prepare_fold (items : batch) (acc : list training_chunk) :
  fold_left (prepare_step N) items acc =
  acc ++ List.concat (map (prepare_step N []) items).
Proof.
  revert acc. induction items as [|item items IH]; intros acc; simpl.
  - now rewrite app_nil_r.
  - rewrite IH, prepare_step_app. now rewrite <- app_assoc.
Qed.

Lemma enumerate_from_index {A : Type} (l : list A) (i : Z) :
  map fst (enumerate_from i l) =
  map (fun k => i + Z.of_nat k) (seq 0 (List.length l)) /\
  map snd (enumerate_from i l) = l.
Proof.
  revert i. induction l as [|x l IH]; intros i; simpl.
  - auto.
  - destruct (IH (i + 1)) as [H1 H2]. rewrite H1, H2. split; auto.
    f_equal; [f_equal; lia|].
    rewrite <- seq_shift, map_map. apply map_ext. intros k. lia.
Qed.

End PreparerFacts.

(** C6: the list [prepare_for_training] returns is the concatenation,
    in batch order, of one block per entry; the block of a record whose
    status is not success is empty; the block of a success record under
    key [video_id] consists of the chunks of its full text, in order,
    each with that video identifier, numbered 0, 1, 2, ... from the
    start of the block. *)
Theorem prepare_for_training_blocks (N : Z) (transcripts : batch) :
  prepare_for_training N transcripts =
    List.concat (map (prepare_step N []) transcripts) /\
  (forall video_id data,
      status data <> py "success" ->
      prepare_step N [] (video_id, data) = []) /\
  (forall video_id v text segments total,
      let block := prepare_step N [] (video_id, Success v text segments total) in
      map tc_text block = chunk_text N text /\
      map tc_chunk_index block =
        map Z.of_nat (seq 0 (List.length (chunk_text N text))) /\
      Forall (fun c => tc_video_id c = video_id) block).
Proof.
  repeat split.
  - unfold prepare_for_training. now rewrite prepare_fold.
  - intros video_id data H. unfold prepare_step.
    destruct data; simpl in *; [congruence|reflexivity].
  - unfold prepare_step, enumerate. simpl.
    rewrite map_map. simpl.
    apply (enumerate_from_index (chunk_text N text) 0).
  - unfold prepare_step, enumerate. simpl.
    rewrite map_map. simpl.
    change (fun x : Z * str => fst x) with (@fst Z str).
    rewrite (proj1 (enumerate_from_index (chunk_text N text) 0)).
    apply map_ext. intros k. lia.
  - unfold prepare_step. simpl. apply Forall_map. now apply Forall_forall.
Qed.

(** ** The exporter *)

Section ExporterFacts.

Lemma supported_format_cases (format : str) :
  existsb (str_eqb format) SUPPORTED_FORMATS = true ->
  format = py "json" \/ format = py "txt" \/ format = py "csv".
Proof.
  intros H. apply existsb_exists in H as (f & Hin & Hf).
  apply str_eqb_eq in Hf. subst f. simpl in Hin. intuition.
Qed.

Lemma existsb_In_format (format : str) :
  existsb (str_eqb format) SUPPORTED_FORMATS = true <->
  In format SUPPORTED_FORMATS.
Proof.
  rewrite existsb_exists. split.
  - intros (f & Hin & Hf). apply str_eqb_eq in Hf. now subst.
  - intros Hin. exists format. split; auto. apply str_eqb_refl.
Qed.

(** The runs of [save_transcripts] with a supported format: one call,
    the write of the file. *)
Lemma save_supported_inv (self : extractor) (transcripts : batch)
    (format filename : str) tr o :
  In format SUPPORTED_FORMATS ->
  runs (save_transcripts self transcripts format filename) tr o ->
  exists content r,
    tr = [EvWriteFile (save_path self format filename) content r] /\
    o = match r with
        | Ok _ => Returned (save_path self format filename)
        | Err e => Raised e
        end.
Proof.
  intros Hin H. unfold save_transcripts in H.
  pose proof (proj2 (existsb_In_format format) Hin) as Hex.
  rewrite Hex in H. simpl negb in H. cbv iota in H.
  fold (save_path self format filename) in H.
  destruct (supported_format_cases _ Hex) as [ -> | [ -> | -> ] ].
  all: simpl in H; inversion H; subst.
  all: match goal with
       | Hk : runs (bind (reraise ?r) _) _ _ |- _ =>
           eexists _, r; destruct r as [ [] | e ]; simpl in Hk;
           inversion Hk; subst; auto
       end.
Qed.

Lemma save_unsupported_eq (self : extractor) (transcripts : batch)
    (format filename : str) :
  ~ In format SUPPORTED_FORMATS ->
  save_transcripts self transcripts format filename =
  Raise (ValueError (unsupported_format_message format)).
Proof.
  intros Hin. unfold save_transcripts.
  destruct (existsb (str_eqb format) SUPPORTED_FORMATS) eqn:E.
  - apply existsb_In_format in E. contradiction.
  - reflexivity.
Qed.

Lemma init_inv (d : str) tr o :
  runs (init d) tr o ->
  (tr = [EvPathExists d true] /\ o = Returned {| output_dir := d |}) \/
  (tr = [EvPathExists d false; EvMakeDirs d (Ok tt)] /\
   o = Returned {| output_dir := d |}) \/
  (exists e, tr = [EvPathExists d false; EvMakeDirs d (Err e)] /\
             o = Raised e).
Proof.
  unfold init, ensure_output_directory. simpl. intros H.
  inversion H as [| | |q k b tr1 o1 Hk| |]; subst.
  destruct b; simpl in Hk.
  - inversion Hk; subst. auto.
  - inversion Hk as [| | | |q k r tr2 o2 Hr|]; subst.
    destruct r as [ [] | e ]; simpl in Hr; inversion Hr; subst; eauto.
Qed.

Lemma save_only_writes (self : extractor) (transcripts : batch)
    (format filename : str) tr o :
  runs (save_transcripts self transcripts format filename) tr o ->
  Forall is_write tr.
Proof.
  intros H.
  destruct (in_dec (list_eq_dec N.eq_dec) format SUPPORTED_FORMATS) as [Hin|Hin].
  - destruct (save_supported_inv _ _ _ _ _ _ Hin H) as (c & r & -> & _).
    repeat constructor.
  - rewrite save_unsupported_eq in H by assumption.
    inversion H; subst. constructor.
Qed.

End ExporterFacts.

(** C7: when the format is outside [SUPPORTED_FORMATS] (json, txt,
    csv), [save_transcripts] raises the [ValueError] for an unsupported
    format without any call to the file system, so that in every world
    the state after the call is the state before it; when the format is
    inside the set, the method reaches the write of the file, and
    raises only what that write raises. *)
Theorem save_unsupported_format (self : extractor) (transcripts : batch)
    (format filename : str) :
  (~ In format SUPPORTED_FORMATS ->
     (forall tr o,
        runs (save_transcripts self transcripts format filename) tr o ->
        tr = [] /\ o = Raised (ValueError (unsupported_format_message format))) /\
     (forall (W : Type) (E : world W) (w : W),
        run E (save_transcripts self transcripts format filename) w =
        ([], Raised (ValueError (unsupported_format_message format)), w))) /\
  (In format SUPPORTED_FORMATS ->
     forall tr o,
       runs (save_transcripts self transcripts format filename) tr o ->
       exists content r,
         tr = [EvWriteFile (save_path self format filename) content r] /\
         o = match r with
             | Ok _ => Returned (save_path self format filename)
             | Err e => Raised e
             end).
Proof.
  split.
  - intros Hin. rewrite save_unsupported_eq by assumption. split.
    + intros tr o H. inversion H; subst. auto.
    + reflexivity.
  - intros Hin tr o H. eapply save_supported_inv; eauto.
Qed.

(** C9, as the code has it: the output directory is looked for, and
    created when absent, by the constructor; [save_transcripts] only
    writes the file, with no check or creation of the directory; so in
    a run of the constructor followed by [save_transcripts] every write
    comes after the directory was found or created. *)
Theorem directory_ensured_by_init (d : str) (transcripts : batch)
    (format filename : str) :
  (forall tr o,
     runs (init d) tr o ->
     (tr = [EvPathExists d true] /\ o = Returned {| output_dir := d |}) \/
     (tr = [EvPathExists d false; EvMakeDirs d (Ok tt)] /\
      o = Returned {| output_dir := d |}) \/
     (exists e, tr = [EvPathExists d false; EvMakeDirs d (Err e)] /\
                o = Raised e)) /\
  (forall self tr o,
     runs (save_transcripts self transcripts format filename) tr o ->
     Forall is_write tr) /\
  (forall tr o,
     runs (self <- init d ;; save_transcripts self transcripts format filename)
          tr o ->
     ensured_before_writes d tr).
Proof.
  split; [|split].
  - apply init_inv.
  - intros self tr o. apply save_only_writes.
  - intros tr o H.
    apply runs_bind_inv in H
      as [(tr1 & self & tr2 & H1 & H2 & ->)|(e & H1 & ->)].
    + apply save_only_writes in H2.
      apply init_inv in H1 as [[-> _]|[[-> _]|(e & -> & Ho)]];
        [| |discriminate];
        intros p q c r s E;
        (destruct p as [|ev1 p]; [discriminate|]);
        injection E as <- E.
      * left. now left.
      * destruct p as [|ev2 p]; [discriminate|].
        injection E as <- E. right. right. now left.
    + apply init_inv in H1 as [[-> _]|[[-> _]|(e' & -> & Ho)]];
        intros p q c r s E;
        (destruct p as [|ev1 p]; [discriminate|]);
        injection E as <- E;
        (destruct p as [|ev2 p]; [discriminate|]);
        try (injection E as <- E);
        try (destruct p; discriminate).
      all: try (destruct p; discriminate E).
Qed.

(** ** The recognized URL shapes *)

Section ShapeFacts.

Lemma plus_greedy_stop (cs : cset) (t : str) :
  (t = [] \/ exists c t', t = c :: t' /\ in_cset cs c = false) ->
  plus_greedy cs t = [].
Proof.
  intros [->|(c & t' & -> & Hc)]; simpl; [reflexivity|now rewrite Hc].
Qed.

(** The greedy run takes the whole identifier when what follows cannot
    continue it. *)
Lemma plus_greedy_head (cs : cset) (g t : str) :
  g <> [] -> Forall (fun c => in_cset cs c = true) g ->
  (t = [] \/ exists c t', t = c :: t' /\ in_cset cs c = false) ->
  exists l, plus_greedy cs (g ++ t) = (g, t) :: l.
Proof.
  intros Hne Hall Ht. induction g as [|c g IH]; [congruence|].
  inversion Hall as [|? ? Hc Hg]; subst. simpl. rewrite Hc.
  destruct g as [|c' g].
  - simpl app. rewrite (plus_greedy_stop cs t Ht). simpl. now exists [].
  - destruct (IH ltac:(discriminate) Hg) as (l & Hl).
    rewrite Hl. simpl. eexists. reflexivity.
Qed.

Lemma id_group_head (g t : str) :
  valid_id g -> trailing t ->
  exists l, matches id_group (g ++ t) =
            {| consumed := g; group1 := Some g; rest := t |} :: l.
Proof.
  intros [Hne Hall] Ht.
  destruct (plus_greedy_head (CNoneOf id_excluded) g t) as (l & Hl); auto.
  - eapply Forall_impl; [|exact Hall]. intros c Hc.
    now apply in_cset_none_of.
  - destruct Ht as [->|(c & t' & -> & Hc)]; auto.
    right. exists c, t'. split; auto.
    destruct (in_cset (CNoneOf id_excluded) c) eqn:E; auto.
    apply in_cset_none_of in E. contradiction.
  - unfold id_group. simpl. rewrite Hl. simpl. eexists. reflexivity.
Qed.

Lemma matches_cat_char (c : char) (r : regex) (s : str) :
  matches (Cat (One (CChar c)) r) (c :: s) =
  map (after (plain ([c], s))) (matches r s).
Proof. simpl. rewrite N.eqb_refl. simpl. apply app_nil_r. Qed.

Lemma lit_matches (l s : str) :
  l <> [] -> matches (lit l) (l ++ s) = [plain (l, s)].
Proof.
  induction l as [|c l IH]; intros H; [congruence|].
  destruct l as [|c' l].
  - simpl. now rewrite N.eqb_refl.
  - change (lit (c :: c' :: l)) with (Cat (One (CChar c)) (lit (c' :: l))).
    change ((c :: c' :: l) ++ s) with (c :: (c' :: l) ++ s).
    rewrite matches_cat_char, IH by discriminate. reflexivity.
Qed.

Lemma shape_head (l g t : str) :
  l <> [] -> valid_id g -> trailing t ->
  exists m ms, matches (Cat (lit l) id_group) (l ++ g ++ t) = m :: ms /\
               group1 m = Some g.
Proof.
  intros Hl Hg Ht. destruct (id_group_head g t Hg Ht) as (ms & Hms).
  change (matches (Cat (lit l) id_group) (l ++ g ++ t))
    with (flat_map (fun m1 => map (after m1) (matches id_group (rest m1)))
                   (matches (lit l) (l ++ g ++ t))).
  rewrite lit_matches by assumption.
  cbn [flat_map plain rest fst snd]. rewrite Hms. cbn [map app].
  eexists _, _. split; reflexivity.
Qed.

Lemma url_prefix_head (r : regex) (pre s g : str) m ms :
  In pre shape_prefixes ->
  matches r (ch "y" :: s) = m :: ms -> group1 m = Some g ->
  exists m' ms', matches (url_prefix r) (pre ++ ch "y" :: s) = m' :: ms' /\
                 group1 m' = Some g.
Proof.
  intros Hpre Hm Hg. unfold shape_prefixes in Hpre. simpl in Hpre.
  change (ch "y") with 121%N in *.
  repeat (destruct Hpre as [<-|Hpre]); try contradiction;
    cbn; rewrite Hm; cbn; (eexists _, _; split; [reflexivity|]);
    cbn; now rewrite Hg.
Qed.

Lemma re_search_head (r : regex) (s : str) m ms :
  matches r s = m :: ms -> re_search r s = Some m.
Proof. intros H. destruct s; simpl; now rewrite H. Qed.

(** A URL of one of the three shapes, searched with the pattern of its
    shape. *)
Lemma shape_search (l pre g t : str) :
  l <> [] -> In pre shape_prefixes -> valid_id g -> trailing t ->
  exists m, re_search (url_prefix (Cat (lit (ch "y" :: l)) id_group))
                      (pre ++ (ch "y" :: l) ++ g ++ t) = Some m /\
            group1 m = Some g.
Proof.
  intros Hl Hpre Hg Ht.
  destruct (shape_head (ch "y" :: l) g t ltac:(discriminate) Hg Ht)
    as (m & ms & Hm & Hgm).
  destruct (url_prefix_head _ pre (l ++ g ++ t) g m ms Hpre Hm Hgm)
    as (m' & ms' & Hm' & Hgm').
  exists m'. split; auto. eapply re_search_head. exact Hm'.
Qed.

End ShapeFacts.

(** Where the code keeps the identifier of a recognized shape:
    [extract_video_id] searches the URL with the watch, short-link and
    embed patterns in this order and returns group 1 of the first
    pattern that matches, or nothing; what it returns is non-empty and
    free of [&], newline, [?] and [#].  For a URL made of an optional
    scheme and [www.], a shape, an identifier and any trailing part
    that starts with an excluded character, the identifier is returned
    for the watch shape always, and for the short-link and embed shapes
    in the cases where no earlier pattern matches anywhere in the
    URL. *)
Theorem extract_video_id_shapes (url : str) :
  extract_video_id url =
    match re_search pattern_watch url with
    | Some m => group1 m
    | None =>
        match re_search pattern_short url with
        | Some m => group1 m
        | None =>
            match re_search pattern_embed url with
            | Some m => group1 m
            | None => None
            end
        end
    end /\
  (forall g, extract_video_id url = Some g -> valid_id g) /\
  (forall pre g t,
      In pre shape_prefixes -> valid_id g -> trailing t ->
      (url = pre ++ py "youtube.com/watch?v=" ++ g ++ t ->
       extract_video_id url = Some g) /\
      (url = pre ++ py "youtu.be/" ++ g ++ t ->
       re_search pattern_watch url = None ->
       extract_video_id url = Some g) /\
      (url = pre ++ py "youtube.com/embed/" ++ g ++ t ->
       re_search pattern_watch url = None ->
       re_search pattern_short url = None ->
       extract_video_id url = Some g)).
Proof.
  split; [reflexivity|]. split; [apply extract_video_id_valid|].
  intros pre g t Hpre Hg Ht. repeat split.
  - intros ->.
    destruct (shape_search (py "outube.com/watch?v=") pre g t
                ltac:(discriminate) Hpre Hg Ht) as (m & Hm & Hgm).
    assert (Hm' : re_search pattern_watch
                    (pre ++ py "youtube.com/watch?v=" ++ g ++ t) = Some m)
      by exact Hm.
    unfold extract_video_id, patterns, first_group. now rewrite Hm'.
  - intros -> Hw.
    destruct (shape_search (py "outu.be/") pre g t
                ltac:(discriminate) Hpre Hg Ht) as (m & Hm & Hgm).
    assert (Hm' : re_search pattern_short
                    (pre ++ py "youtu.be/" ++ g ++ t) = Some m)
      by exact Hm.
    unfold extract_video_id, patterns, first_group. now rewrite Hw, Hm'.
  - intros -> Hw Hs.
    destruct (shape_search (py "outube.com/embed/") pre g t
                ltac:(discriminate) Hpre Hg Ht) as (m & Hm & Hgm).
    assert (Hm' : re_search pattern_embed
                    (pre ++ py "youtube.com/embed/" ++ g ++ t) = Some m)
      by exact Hm.
    unfold extract_video_id, patterns, first_group. now rewrite Hw, Hs, Hm'.
Qed.

(** C8: the code breaks the claim.  The identifier of a short link is
    to be insensitive to what follows it, as the capture class intends
    and as the watch shape achieves; but the patterns are searched
    unanchored and the watch pattern first, so a short link followed by
    a query parameter whose value has the watch shape yields the
    identifier of the parameter, not the one of the link. *)
Lemma extract_video_id_trailing_sensitive :
  extract_video_id (py "https://youtu.be/ABC123") = Some (py "ABC123") /\
  extract_video_id
    (py "https://youtu.be/ABC123?feature=youtube.com/watch?v=XYZ") =
    Some (py "XYZ") /\
  ~ insensitive_to_trailing.
Proof.
  split; [vm_compute; reflexivity|]. split; [vm_compute; reflexivity|].
  intros H.
  specialize (H (py "https://") (py "youtu.be/") (py "ABC123")
                (py "?feature=youtube.com/watch?v=XYZ")).
  assert (E : extract_video_id
                (py "https://" ++ py "youtu.be/" ++ py "ABC123" ++
                 py "?feature=youtube.com/watch?v=XYZ") = Some (py "XYZ"))
    by (vm_compute; reflexivity).
  rewrite H in E.
  - vm_compute in E. discriminate E.
  - vm_compute. tauto.
  - vm_compute. tauto.
  - split; [discriminate|].
    repeat constructor; vm_compute; intuition discriminate.
  - right. eexists _, _. split; [reflexivity|]. vm_compute. tauto.
Qed.

(** C9, as stated, fails: [save_transcripts] on an extractor whose
    output directory is missing asks for the write at once; in a world
    without the directory the write fails and no directory has been
    created. *)
Lemma save_does_not_create_directory :
  let self := {| output_dir := py "output" |} in
  let w := {| SampleWorld.service := fun _ => Ok [];
              SampleWorld.dirs := []; SampleWorld.files := [] |} in
  run SampleWorld.sample (save_transcripts self [] (py "json") (py "x")) w =
    ([EvWriteFile (py "output/x.json") (JsonDoc [])
        (Err (SampleWorld.FileNotFoundError (py "output/x.json")))],
     Raised (SampleWorld.FileNotFoundError (py "output/x.json")), w) /\
  ~ save_ensures_directory.
Proof.
  split; [vm_compute; reflexivity|].
  intros H.
  pose proof (run_runs SampleWorld.sample
                (save_transcripts {| output_dir := py "output" |} []
                                  (py "json") (py "x"))
                {| SampleWorld.service := fun _ => Ok [];
                   SampleWorld.dirs := []; SampleWorld.files := [] |}) as Hr.
  apply H in Hr. vm_compute in Hr.
  destruct (Hr [] _ _ _ [] eq_refl) as [[]|[]].
Qed.

(** ** The theorems at sample inputs *)

Lemma success_record_invariant_witness :
  runs (extract_single_transcript (py "ABC123"))
       [EvGetTranscript (py "ABC123") (Ok Samples.cues)]
       (Returned Samples.record) /\
  2 = len Samples.segments /\
  py "hello there world" =
    strip (join [space] (map seg_text Samples.segments)) /\
  exists cues,
    [EvGetTranscript (py "ABC123") (Ok Samples.cues)] =
      [EvGetTranscript (py "ABC123") (Ok cues)] /\
    map seg_text Samples.segments =
      map (fun c => clean_transcript_text (cue_text c)) cues.
Proof.
  assert (H : runs (extract_single_transcript (py "ABC123"))
                   [EvGetTranscript (py "ABC123") (Ok Samples.cues)]
                   (Returned Samples.record)).
  { exact (run_runs SampleWorld.sample
             (extract_single_transcript (py "ABC123")) Samples.empty_world). }
  split; [exact H|].
  exact (success_record_invariant _ _ _ _ _ _ H).
Defined.

Lemma extract_transcripts_entries_witness :
  runs (extract_transcripts Samples.urls2)
       [EvGetTranscript (py "ABC123") (Ok Samples.cues)]
       (Returned Samples.batch2) /\
  exists entries,
    entries_for Samples.urls2
                [EvGetTranscript (py "ABC123") (Ok Samples.cues)] entries /\
    map fst entries = map batch_key Samples.urls2 /\
    Samples.batch2 = store_all entries [] /\
    (forall k, In k (keys Samples.batch2) <->
               In k (map batch_key Samples.urls2)) /\
    (NoDup (map batch_key Samples.urls2) -> Samples.batch2 = entries) /\
    status invalid_url_record = py "failed".
Proof.
  assert (H : runs (extract_transcripts Samples.urls2)
                   [EvGetTranscript (py "ABC123") (Ok Samples.cues)]
                   (Returned Samples.batch2)).
  { exact (run_runs SampleWorld.sample
             (extract_transcripts Samples.urls2) Samples.empty_world). }
  split; [exact H|].
  exact (extract_transcripts_entries _ _ _ H).
Defined.

Lemma fetch_failure_contained_witness :
  (runs (extract_single_transcript (py "bad1"))
        [EvGetTranscript (py "bad1") (Err Samples.disabled)]
        (Returned Samples.failed_record) /\
   Returned Samples.failed_record =
     Returned (Failure (Some (py "bad1")) (exn_str Samples.disabled)) /\
   status (Failure (Some (py "bad1")) (exn_str Samples.disabled)) =
     py "failed") /\
  (runs (extract_transcripts Samples.urls3) Samples.trace3
        (Returned Samples.batch3) /\
   exists b,
     Returned Samples.batch3 = Returned b /\
     asked Samples.trace3 = parsed_ids Samples.urls3 /\
     forall url, In url Samples.urls3 -> In (batch_key url) (keys b)).
Proof.
  assert (H1 : runs (extract_single_transcript (py "bad1"))
                    [EvGetTranscript (py "bad1") (Err Samples.disabled)]
                    (Returned Samples.failed_record)).
  { exact (run_runs SampleWorld.sample
             (extract_single_transcript (py "bad1")) Samples.empty_world). }
  assert (H2 : runs (extract_transcripts Samples.urls3) Samples.trace3
                    (Returned Samples.batch3)).
  { exact (run_runs SampleWorld.sample
             (extract_transcripts Samples.urls3) Samples.empty_world). }
  split; (split; [assumption|]).
  - apply (proj1 fetch_failure_contained _ _ _ Samples.disabled H1).
    + simpl. now left.
    + reflexivity.
  - apply (proj1 (proj2 fetch_failure_contained) _ _ _ H2).
    repeat constructor.
Defined.

Lemma prepare_for_training_blocks_witness :
  status Samples.failed_record <> py "success" /\
  prepare_step 12 [] (py "bad1", Samples.failed_record) = [] /\
  prepare_for_training 12 Samples.batch3 =
    [ {| tc_video_id := py "ABC123"; tc_chunk_index := 0;
         tc_text := py "hello there" |};
      {| tc_video_id := py "ABC123"; tc_chunk_index := 1;
         tc_text := py "world" |} ].
Proof.
  assert (H : status Samples.failed_record <> py "success") by discriminate.
  split; [exact H|]. split.
  - exact (proj1 (proj2 (prepare_for_training_blocks 12 Samples.batch3))
                 (py "bad1") Samples.failed_record H).
  - rewrite (proj1 (prepare_for_training_blocks 12 Samples.batch3)).
    reflexivity.
Defined.

Lemma save_unsupported_format_witness :
  (~ In (py "bogus") SUPPORTED_FORMATS /\
   run SampleWorld.sample
       (save_transcripts Samples.self Samples.batch2 (py "bogus") (py "x"))
       Samples.empty_world =
     ([], Raised (ValueError
                    (py "Unsupported format: bogus. Use one of ['json', 'txt', 'csv']")),
      Samples.empty_world)) /\
  (In (py "csv") SUPPORTED_FORMATS /\
   exists content r,
     fst (fst (run SampleWorld.sample
                 (save_transcripts Samples.self Samples.batch2 (py "csv") (py "x"))
                 Samples.empty_world)) =
       [EvWriteFile (py "output/x.csv") content r]).
Proof.
  assert (H1 : ~ In (py "bogus") SUPPORTED_FORMATS).
  { simpl. intuition discriminate. }
  assert (H2 : In (py "csv") SUPPORTED_FORMATS).
  { simpl. auto. }
  split; (split; [assumption|]).
  - exact (proj2 (proj1 (save_unsupported_format Samples.self Samples.batch2
                           (py "bogus") (py "x")) H1)
                 _ SampleWorld.sample Samples.empty_world).
  - destruct (proj2 (save_unsupported_format Samples.self Samples.batch2
                       (py "csv") (py "x")) H2 _ _
                    (run_runs SampleWorld.sample _ Samples.empty_world))
      as (content & r & Htr & _).
    exists content, r. exact Htr.
Defined.

Lemma extract_video_id_shapes_witness :
  extract_video_id (py "https://www.youtube.com/watch?v=ABC123&t=10") =
    Some (py "ABC123") /\
  extract_video_id (py "youtu.be/ABC123#start") = Some (py "ABC123") /\
  extract_video_id (py "http://youtube.com/embed/ABC123?rel=0") =
    Some (py "ABC123").
Proof.
  assert (Hid : valid_id (py "ABC123")).
  { split; [discriminate|].
    repeat constructor; simpl; intuition discriminate. }
  assert (Ht : forall c t, In c id_excluded -> trailing (c :: t)).
  { intros c t Hc. right. now exists c, t. }
  split; [|split].
  - refine (proj1 (proj2 (proj2 (extract_video_id_shapes _))
                     (py "https://www.") (py "ABC123") (py "&t=10") _ Hid _)
                  eq_refl).
    + simpl. auto 10.
    + apply Ht. simpl. auto.
  - refine (proj1 (proj2 (proj2 (proj2 (extract_video_id_shapes _))
                     (py "") (py "ABC123") (py "#start") _ Hid _))
                  eq_refl eq_refl).
    + simpl. auto 10.
    + apply Ht. simpl. auto.
  - refine (proj2 (proj2 (proj2 (proj2 (extract_video_id_shapes _))
                     (py "http://") (py "ABC123") (py "?rel=0") _ Hid _))
                  eq_refl eq_refl eq_refl).
    + simpl. auto 10.
    + apply Ht. simpl. auto.
Defined.

Lemma directory_ensured_by_init_witness :
  runs (self <- init (py "output") ;;
        save_transcripts self Samples.batch2 (py "json") (py "x"))
       Samples.trace_init_save (Returned (py "output/x.json")) /\
  ensured_before_writes (py "output") Samples.trace_init_save.
Proof.
  assert (H : runs (self <- init (py "output") ;;
                    save_transcripts self Samples.batch2 (py "json") (py "x"))
                   Samples.trace_init_save (Returned (py "output/x.json"))).
  { exact (run_runs SampleWorld.sample
             (self <- init (py "output") ;;
              save_transcripts self Samples.batch2 (py "json") (py "x"))
             Samples.empty_world). }
  split; [exact H|].
  exact (proj2 (proj2 (directory_ensured_by_init (py "output") Samples.batch2
                         (py "json") (py "x"))) _ _ H).
Defined.

Lemma chunk_text_length_bound_witness :
  chunk_text 4 (py "a bb ccccccccc dd") =
    [py "a"; py "bb"; py "ccccccccc"; py "dd"] /\
  Forall (fun chunk => len chunk <= Z.max 4 9)
         (chunk_text 4 (py "a bb ccccccccc dd")).
Proof.
  split; [reflexivity|].
  exact (proj1 (chunk_text_length_bound 4 (py "a bb ccccccccc dd"))).
Defined.

Lemma chunk_text_no_empty_chunk_witness :
  Forall (fun c => is_space c = true) [space; 9%N; newline] /\
  chunk_text 512 [space; 9%N; newline] = [].
Proof.
  assert (H : Forall (fun c => is_space c = true) [space; 9%N; newline])
    by (repeat constructor).
  split; [exact H|].
  exact (proj1 (chunk_text_no_empty_chunk 512 [space; 9%N; newline]) H).
Defined.

(** * Further properties of the code *)

(** ** The chunker: counts, small bounds, texts that fit, tightness *)

Section ChunkerShapeFacts.

Variable N : Z.

Lemma length_concat_nonempty {A : Type} (groups : list (list A)) :
  Forall (fun g => g <> []) groups ->
  (List.length groups <= List.length (List.concat groups))%nat.
Proof.
  induction 1 as [|g gs Hg _ IH]; simpl; [lia|].
  rewrite length_app. destruct g; [congruence|]. simpl. lia.
Qed.

Lemma chunk_text_flushed (text : str) :
  chunk_text N text = flushed (chunk_loop N (split text)).
Proof. reflexivity. Qed.

Lemma is_word_len (w : str) : is_word w -> 1 <= len w.
Proof.
  intros [Hne _]. destruct w; [congruence|]. rewrite len_cons.
  pose proof (len_nonneg w). lia.
Qed.

(** With a bound below 2 no word is ever added to a chunk. *)
Lemma small_bound_fold (ws : list str) (st : chunk_state) :
  N <= 1 -> Forall is_word ws -> 0 <= current_length st ->
  flushed (fold_left (chunk_step N) ws st) = flushed st ++ ws.
Proof.
  intros HN. revert st. induction ws as [|w ws IH]; intros st Hws Hlen; simpl.
  - now rewrite app_nil_r.
  - inversion Hws as [|? ? Hw Hws']; subst.
    pose proof (is_word_len w Hw) as Hw1.
    rewrite IH; auto.
    + unfold chunk_step.
      destruct (current_length st + len w + 1 <=? N) eqn:E.
      * apply Z.leb_le in E. lia.
      * unfold flushed at 1. simpl.
        fold (flushed st). now rewrite <- app_assoc.
    + unfold chunk_step.
      destruct (current_length st + len w + 1 <=? N) eqn:E; simpl; lia.
Qed.

Lemma mass_app (l1 l2 : list str) : mass (l1 ++ l2) = mass l1 + mass l2.
Proof. induction l1 as [|w l1 IH]; simpl; [reflexivity|]. rewrite IH. lia. Qed.

Lemma mass_nonneg (l : list str) : 0 <= mass l.
Proof.
  induction l as [|w l IH]; simpl; [lia|]. pose proof (len_nonneg w). lia.
Qed.

Lemma mass_join (l : list str) :
  l <> [] -> mass l = len (join [space] l) + 1.
Proof.
  induction l as [|w l IH]; intros H; [congruence|].
  destruct l as [|w' l].
  - simpl. lia.
  - change (join [space] (w :: w' :: l))
      with (w ++ [space] ++ join [space] (w' :: l)).
    rewrite !len_app. change (len [space]) with 1.
    change (mass (w :: w' :: l)) with (len w + 1 + mass (w' :: l)).
    rewrite IH by discriminate. lia.
Qed.

(** While everything read so far and to come fits, the loop only
    appends to the current chunk. *)
Lemma fitting_fold (ws : list str) (st : chunk_state) :
  current_length st = mass (current_chunk st) ->
  mass (current_chunk st ++ ws) <= N ->
  fold_left (chunk_step N) ws st =
    {| chunks := chunks st;
       current_chunk := current_chunk st ++ ws;
       current_length := mass (current_chunk st ++ ws) |}.
Proof.
  revert st. induction ws as [|w ws IH]; intros st Hlen Hfit; simpl.
  - rewrite app_nil_r. rewrite <- Hlen. now destruct st.
  - assert (Hstep : chunk_step N st w =
                    {| chunks := chunks st;
                       current_chunk := current_chunk st ++ [w];
                       current_length := mass (current_chunk st ++ [w]) |}).
    { unfold chunk_step.
      rewrite !mass_app in *. simpl in *.
      pose proof (mass_nonneg ws). pose proof (len_nonneg w).
      destruct (current_length st + len w + 1 <=? N) eqn:E.
      - f_equal. lia.
      - apply Z.leb_gt in E. lia. }
    rewrite Hstep. rewrite IH; simpl.
    + now rewrite <- app_assoc.
    + reflexivity.
    + now rewrite <- app_assoc.
Qed.

Lemma tight_snoc (groups : list (list str)) (g : list str) :
  tight N groups ->
  (groups <> [] ->
   N < len (join [space] (last groups [])) + len (hd [] g) + 2) ->
  tight N (groups ++ [g]).
Proof.
  induction groups as [|g0 gs IH]; intros Ht Hl; simpl.
  - auto.
  - destruct Ht as [Hh Ht]. destruct gs as [|g1 gs].
    + simpl. split; auto. apply Hl. discriminate.
    + split; [exact Hh|]. apply IH; auto.
      intros _. apply Hl. discriminate.
Qed.

Lemma hd_app_nonempty {A : Type} (d : A) (l1 l2 : list A) :
  l1 <> [] -> hd d (l1 ++ l2) = hd d l1.
Proof. destruct l1; [congruence|reflexivity]. Qed.

Lemma tight_inv_init : tight_inv N [] chunk_init.
Proof.
  exists []. simpl. repeat split; auto; try congruence. lia.
Qed.

Lemma tight_inv_step (ws : list str) (st : chunk_state) (word : str) :
  tight_inv N ws st -> tight_inv N (ws ++ [word]) (chunk_step N st word).
Proof.
  intros (groups & Hch & Hws & Ht & Hlen & Hlink).
  unfold chunk_step.
  destruct (current_length st + len word + 1 <=? N) eqn:Hfit.
  - exists groups. simpl. repeat split; auto.
    + now rewrite app_assoc, Hws.
    + rewrite mass_app. simpl. lia.
    + destruct (Hlink H) as [Hne _]. destruct (current_chunk st);
        [congruence|discriminate].
    + destruct (Hlink H) as [Hne Hl].
      now rewrite hd_app_nonempty.
  - apply Z.leb_gt in Hfit.
    destruct (nonempty (current_chunk st)) eqn:Hne.
    + apply nonempty_true in Hne.
      exists (groups ++ [current_chunk st]). simpl. repeat split.
      * now rewrite map_app, Hch.
      * rewrite concat_app. simpl. rewrite app_nil_r. now rewrite Hws.
      * apply tight_snoc; auto. intros H. now apply Hlink.
      * lia.
      * discriminate.
      * rewrite last_last. simpl. rewrite mass_join in Hlen by assumption.
        lia.
    + apply nonempty_false in Hne.
      exists groups. simpl. repeat split; auto.
      * rewrite Hne, app_nil_r in Hws. now rewrite Hws.
      * lia.
      * discriminate.
      * destruct (Hlink H) as [Hcur _]. congruence.
Qed.

Lemma tight_inv_fold (ws ws0 : list str) (st : chunk_state) :
  tight_inv N ws0 st ->
  tight_inv N (ws0 ++ ws) (fold_left (chunk_step N) ws st).
Proof.
  revert ws0 st. induction ws as [|w ws IH]; intros ws0 st H; simpl.
  - now rewrite app_nil_r.
  - replace (ws0 ++ w :: ws) with ((ws0 ++ [w]) ++ ws)
      by now rewrite <- app_assoc.
    apply IH. now apply tight_inv_step.
Qed.

End ChunkerShapeFacts.

(** X1: [chunk_text] returns at most as many chunks as the text has
    words, and returns the empty list exactly when the text has no
    word. *)
Theorem chunk_text_count (N : Z) (text : str) :
  (List.length (chunk_text N text) <= List.length (split text))%nat /\
  (chunk_text N text = [] <-> split text = []).
Proof.
  destruct (chunk_text_groups N text) as (groups & Hch & Hws & Hok).
  assert (Hne : Forall (fun g => g <> []) groups).
  { eapply Forall_impl; [|exact Hok]. now intros g [H _]. }
  split.
  - rewrite Hch, length_map, <- Hws. now apply length_concat_nonempty.
  - rewrite Hch, <- Hws. split.
    + intros H. destruct groups; [reflexivity|discriminate].
    + intros H. pose proof (length_concat_nonempty groups Hne) as Hl.
      rewrite H in Hl. destruct groups; [reflexivity|simpl in Hl; lia].
Qed.

(** X2: with a bound of 1 or less (zero and negative bounds included)
    nothing is raised and every word of the text is a chunk of its
    own. *)
Theorem chunk_text_small_bound (N : Z) (text : str) :
  N <= 1 -> chunk_text N text = split text.
Proof.
  intros HN. rewrite chunk_text_flushed. unfold chunk_loop.
  rewrite small_bound_fold; auto.
  - apply split_words.
  - simpl. lia.
Qed.

(** X3: a text with at least one word whose words, joined with single
    spaces, are shorter than the bound is returned as one chunk: that
    join.  (The first chunk is counted with one separator per word, so
    a join of exactly [N] characters does not qualify.) *)
Theorem chunk_text_fits (N : Z) (text : str) :
  split text <> [] ->
  len (join [space] (split text)) + 1 <= N ->
  chunk_text N text = [join [space] (split text)].
Proof.
  intros Hne Hfit. unfold chunk_text, chunk_loop.
  rewrite fitting_fold.
  - simpl. destruct (split text); [congruence|reflexivity].
  - reflexivity.
  - simpl. now rewrite mass_join.
Qed.

(** X4: the chunks are cut greedily: they are the joins of consecutive
    groups of the words, and for every group and the first word [w] of
    the group after it, [len(group joined) + len(w) + 2 > N]: the loop
    starts a new chunk only when its counter says the next word does
    not fit. *)
Theorem chunk_text_tight (N : Z) (text : str) :
  exists groups,
    chunk_text N text = map (join [space]) groups /\
    List.concat groups = split text /\
    tight N groups.
Proof.
  pose proof (tight_inv_fold N (split text) [] chunk_init (tight_inv_init N)) as H.
  simpl in H. fold (chunk_loop N (split text)) in H.
  destruct H as (groups & Hch & Hws & Ht & Hlen & Hlink).
  unfold chunk_text.
  destruct (nonempty (current_chunk (chunk_loop N (split text)))) eqn:Hne.
  - exists (groups ++ [current_chunk (chunk_loop N (split text))]).
    repeat split.
    + now rewrite map_app, Hch.
    + rewrite concat_app. simpl. now rewrite app_nil_r.
    + apply tight_snoc; auto. intros H. now apply Hlink.
  - apply nonempty_false in Hne.
    exists groups. rewrite Hne, app_nil_r in Hws. auto.
Qed.

(** ** The URL parser: what is accepted and what is returned *)

Section ParserFacts.

Lemma star_lazy_sound (cs : cset) (s m r : str) :
  In (m, r) (star_lazy cs s) -> s = m ++ r.
Proof.
  revert m r. induction s as [|c s IH]; intros m r H; simpl in H.
  - destruct H as [E|[]]. now injection E as <- <-.
  - destruct H as [E|H]; [now injection E as <- <-|].
    destruct (in_cset cs c); [|contradiction].
    apply in_map_iff in H as ([m' r'] & E & H). unfold extend in E.
    simpl in E. injection E as <- <-. simpl. f_equal. now apply IH.
Qed.

(** A match consumes a prefix of the text and leaves the rest. *)
Lemma matches_sound (r : regex) (s : str) (m : rmatch) :
  In m (matches r s) -> s = consumed m ++ rest m.
Proof.
  revert s m. induction r as [|cs|cs|cs|r1 IH1 r2 IH2|r IH|r IH];
    intros s m H; simpl in H.
  - destruct H as [<-|[]]. reflexivity.
  - destruct s as [|c s]; [contradiction|].
    destruct (in_cset cs c); [|contradiction].
    destruct H as [<-|[]]. reflexivity.
  - apply in_map_iff in H as ([g t] & <- & H).
    now apply plus_greedy_sound in H as (_ & _ & ->).
  - apply in_map_iff in H as ([g t] & <- & H).
    now apply star_lazy_sound in H.
  - apply in_flat_map in H as (m1 & H1 & H).
    apply in_map_iff in H as (m2 & <- & H2).
    simpl. rewrite (IH1 _ _ H1) at 1. rewrite (IH2 _ _ H2) at 1.
    now rewrite app_assoc.
  - apply in_app_or in H as [H|[<-|[]]]; [now apply IH|reflexivity].
  - apply in_map_iff in H as (m' & <- & H). simpl. now apply IH.
Qed.

Lemma flat_map_head {A B : Type} (f : A -> list B) (l : list A) x xs :
  flat_map f l = x :: xs -> exists a ys, In a l /\ f a = x :: ys.
Proof.
  induction l as [|a l IH]; simpl; [discriminate|].
  destruct (f a) as [|y ys] eqn:E; simpl.
  - intros H. destruct (IH H) as (a' & ys' & Hin & Hf). eauto.
  - intros H. injection H as <- _. exists a, ys. auto.
Qed.

(** The first match of a concatenation is made of a match of the left
    part and the first match of the right part after it. *)
Lemma matches_cat_head (r1 r2 : regex) (s : str) m ms :
  matches (Cat r1 r2) s = m :: ms ->
  exists m1 m2 ms2,
    In m1 (matches r1 s) /\ matches r2 (rest m1) = m2 :: ms2 /\
    m = after m1 m2.
Proof.
  simpl. intros H. apply flat_map_head in H as (m1 & ys & Hin & Hf).
  destruct (matches r2 (rest m1)) as [|m2 ms2] eqn:E; [discriminate|].
  simpl in Hf. injection Hf as <- _. exists m1, m2, ms2. auto.
Qed.

Lemma lit_consumed (l s : str) (m : rmatch) :
  In m (matches (lit l) s) -> consumed m = l /\ group1 m = None.
Proof.
  revert s m. induction l as [|c l IH]; intros s m H.
  - simpl in H. destruct H as [<-|[]]. auto.
  - destruct l as [|c' l].
    + simpl in H. destruct s as [|d s]; [contradiction|].
      destruct (N.eqb d c) eqn:E; [|contradiction].
      apply N.eqb_eq in E. subst d. destruct H as [<-|[]]. auto.
    + change (lit (c :: c' :: l)) with (Cat (One (CChar c)) (lit (c' :: l))) in H.
      simpl matches in H. apply in_flat_map in H as (m1 & H1 & H).
      apply in_map_iff in H as (m2 & <- & H2).
      destruct (IH _ _ H2) as [Hc Hg].
      destruct s as [|d s]; [contradiction|]. simpl in H1.
      destruct (N.eqb d c) eqn:E; [|contradiction].
      apply N.eqb_eq in E. subst d. destruct H1 as [<-|[]].
      simpl. now rewrite Hc, Hg.
Qed.

Lemma plus_greedy_nil (cs : cset) (s : str) :
  plus_greedy cs s = [] ->
  s = [] \/ exists c t, s = c :: t /\ in_cset cs c = false.
Proof.
  destruct s as [|c s]; [auto|]. simpl.
  destruct (in_cset cs c) eqn:E; [|eauto].
  intros H. apply app_eq_nil in H as [_ H]. discriminate.
Qed.

(** The first alternative of a greedy run is the whole run. *)
Lemma plus_greedy_maximal (cs : cset) (s g t : str) l :
  plus_greedy cs s = (g, t) :: l ->
  t = [] \/ exists c t', t = c :: t' /\ in_cset cs c = false.
Proof.
  revert g t l. induction s as [|c s IH]; intros g t l H; simpl in H.
  - discriminate.
  - destruct (in_cset cs c); [|discriminate].
    destruct (plus_greedy cs s) as [|[g' t'] l'] eqn:E.
    + simpl in H. injection H as <- <- <-. now apply plus_greedy_nil.
    + simpl in H. injection H as <- <- <-. eapply IH. reflexivity.
Qed.

Lemma id_group_first (s : str) m ms :
  matches id_group s = m :: ms ->
  exists g, consumed m = g /\ group1 m = Some g /\
            valid_id g /\ trailing (rest m).
Proof.
  intros H.
  assert (Hin : In m (matches id_group s)) by (rewrite H; now left).
  destruct (captures_id_group _ _ Hin) as (g & Hg & Hv).
  unfold id_group in H. simpl in H.
  destruct (plus_greedy (CNoneOf id_excluded) s) as [|[g0 t0] l] eqn:E;
    [discriminate|].
  simpl in H. injection H as <- <-. simpl in *.
  injection Hg as <-. exists g0. repeat split; try apply Hv.
  apply plus_greedy_maximal in E as [->|(c & t' & -> & Hc)]; [now left|].
  right. exists c, t'. split; auto.
  destruct (in_dec N.eq_dec c id_excluded) as [Hin'|Hn]; auto.
  apply in_cset_none_of in Hn. congruence.
Qed.

Lemma shape_pattern_first (l s : str) m ms :
  matches (shape_pattern l) s = m :: ms ->
  exists g, group1 m = Some g /\ found_after l s g.
Proof.
  unfold shape_pattern, url_prefix. intros H.
  apply matches_cat_head in H as (mA & m' & ms' & HA & H & ->).
  apply matches_cat_head in H as (mB & m'' & ms'' & HB & H & ->).
  apply matches_cat_head in H as (mL & mG & msG & HL & HG & ->).
  destruct (id_group_first _ _ _ HG) as (g & Hc & Hg & Hv & Ht).
  exists g. split.
  - simpl. now rewrite Hg.
  - exists (consumed mA ++ consumed mB), (rest mG).
    split; [|split; [exact Hv|exact Ht]].
    rewrite (matches_sound _ _ _ HA) at 1.
    rewrite (matches_sound _ _ _ HB) at 1.
    rewrite (matches_sound _ _ _ HL) at 1.
    destruct (lit_consumed _ _ _ HL) as [-> _].
    assert (HinG : In mG (matches id_group (rest mL)))
      by (rewrite HG; now left).
    rewrite (matches_sound _ _ _ HinG) at 1. rewrite Hc.
    now rewrite <- !app_assoc.
Qed.

Lemma re_search_first (r : regex) (url : str) m :
  re_search r url = Some m ->
  exists a s ms, url = a ++ s /\ matches r s = m :: ms.
Proof.
  induction url as [|c url IH]; simpl.
  - destruct (matches r []) as [|m' ms] eqn:E; [discriminate|].
    intros H. injection H as <-. exists [], [], ms. auto.
  - destruct (matches r (c :: url)) as [|m' ms] eqn:E.
    + intros H. destruct (IH H) as (a & s & ms & -> & Hm).
      exists (c :: a), s, ms. auto.
    + intros H. injection H as <-. exists [], (c :: url), ms. auto.
Qed.

Lemma found_after_app (l a s g : str) :
  found_after l s g -> found_after l (a ++ s) g.
Proof.
  intros (a' & t & -> & Hv & Ht). exists (a ++ a'), t.
  split; [now rewrite <- app_assoc|]. split; assumption.
Qed.

Lemma first_group_found (ls : list str) (url g : str) :
  first_group (map shape_pattern ls) url = Some g ->
  exists l, In l ls /\ found_after l url g.
Proof.
  induction ls as [|l ls IH]; simpl; [discriminate|].
  destruct (re_search (shape_pattern l) url) as [m|] eqn:E.
  - intros Hg. apply re_search_first in E as (a & s & ms & -> & Hm).
    apply shape_pattern_first in Hm as (g' & Hg' & Hf).
    assert (g' = g) by congruence. subst g'.
    exists l. split; [now left|]. now apply found_after_app.
  - intros H. destruct (IH H) as (l' & Hin & Hf). eauto.
Qed.

Lemma matches_url_prefix_nonempty (r : regex) (s : str) :
  matches r s <> [] -> matches (url_prefix r) s <> [].
Proof.
  intros H. unfold url_prefix. simpl.
  intros E. apply H.
  assert (Hin : forall (X : regex) t, In (plain ([], t)) (matches (Opt X) t)).
  { intros X t. simpl. apply in_or_app. right. now left. }
  destruct (matches r s) as [|m ms] eqn:Er; [reflexivity|exfalso].
  assert (Hm : In (after (plain ([], s)) (after (plain ([], s)) m))
                  (flat_map
                     (fun m1 => map (after m1)
                        (flat_map (fun m2 => map (after m2) (matches r (rest m2)))
                                  (matches (Opt (lit (py "www."))) (rest m1))))
                     (matches (Opt (Cat (lit (py "http"))
                                 (Cat (Opt (One (CChar (ch "s"))))
                                      (lit (py "://"))))) s))).
  { apply in_flat_map. exists (plain ([], s)). split; [apply Hin|].
    apply in_map. apply in_flat_map. exists (plain ([], s)).
    split; [apply Hin|]. apply in_map. simpl. rewrite Er. now left. }
  simpl in Hm. simpl in E. rewrite E in Hm. contradiction.
Qed.

Lemma shape_pattern_matches (l : str) (c : char) (t : str) :
  l <> [] -> ~ In c id_excluded ->
  matches (shape_pattern l) (l ++ c :: t) <> [].
Proof.
  intros Hl Hc. apply matches_url_prefix_nonempty.
  change (matches (Cat (lit l) id_group) (l ++ c :: t))
    with (flat_map (fun m1 => map (after m1) (matches id_group (rest m1)))
                   (matches (lit l) (l ++ c :: t))).
  rewrite lit_matches by assumption.
  cbn [flat_map plain rest fst snd]. rewrite app_nil_r.
  unfold id_group.
  change (matches (Group (PlusG (CNoneOf id_excluded))) (c :: t))
    with (map (fun m => {| consumed := consumed m;
                           group1 := Some (consumed m);
                           rest := rest m |})
              (map plain (plus_greedy (CNoneOf id_excluded) (c :: t)))).
  cbn [plus_greedy]. apply in_cset_none_of in Hc. rewrite Hc.
  rewrite !map_app. simpl. intros E.
  apply app_eq_nil in E as [_ E]. discriminate.
Qed.

Lemma re_search_app (r : regex) (a s : str) :
  matches r s <> [] -> re_search r (a ++ s) <> None.
Proof.
  intros H. induction a as [|c a IH]; simpl.
  - destruct s; simpl; destruct (matches r _); congruence.
  - destruct (matches r (c :: a ++ s)); [exact IH|discriminate].
Qed.

Lemma first_group_accepts (ls : list str) (url : str) (l : str) :
  In l ls -> re_search (shape_pattern l) url <> None ->
  first_group (map shape_pattern ls) url <> None.
Proof.
  induction ls as [|l0 ls IH]; intros Hin Hs; [contradiction|].
  simpl. destruct (re_search (shape_pattern l0) url) as [m|] eqn:E.
  - apply re_search_matches in E as (s' & Hm).
    destruct (captures_url_prefix _ l0 captures_id_group _ _ Hm)
      as (g & -> & _).
    discriminate.
  - destruct Hin as [->|Hin]; [congruence|]. now apply IH.
Qed.

End ParserFacts.

(** X5: whatever [extract_video_id] returns stands in the URL right
    after one of the three shape literals ([youtube.com/watch?v=],
    [youtu.be/], [youtube.com/embed/]) and runs to the end of the URL or
    to the next [&], newline, [?] or [#]; nothing is required of what
    comes before the literal. *)
Theorem extract_video_id_found (url g : str) :
  extract_video_id url = Some g ->
  exists l a t,
    In l shape_literals /\ url = a ++ l ++ g ++ t /\
    valid_id g /\ trailing t.
Proof.
  intros H.
  change (first_group (map shape_pattern shape_literals) url = Some g) in H.
  apply first_group_found in H as (l & Hin & a & t & Hu & Hv & Ht).
  exists l, a, t. auto.
Qed.

(** X6: [extract_video_id] returns an identifier exactly for the URLs
    that contain, anywhere, one of the three shape literals followed by
    a character other than [&], newline, [?] and [#]; for every other
    URL it returns nothing. *)
Theorem extract_video_id_accepts (url : str) :
  extract_video_id url <> None <->
  exists l a c t,
    In l shape_literals /\ ~ In c id_excluded /\ url = a ++ l ++ c :: t.
Proof.
  change (extract_video_id url)
    with (first_group (map shape_pattern shape_literals) url).
  split.
  - destruct (first_group (map shape_pattern shape_literals) url) as [g|] eqn:E;
      [|congruence].
    intros _. apply first_group_found in E as (l & Hin & a & t & -> & Hv & Ht).
    destruct Hv as [Hne Hall]. destruct g as [|c g]; [congruence|].
    exists l, a, c, (g ++ t). split; [exact Hin|]. split; [|reflexivity].
    now inversion Hall.
  - intros (l & a & c & t & Hin & Hc & ->).
    apply (first_group_accepts _ _ l Hin).
    apply re_search_app. apply shape_pattern_matches; auto.
    simpl in Hin. intuition (subst; discriminate).
Qed.

(** ** The text normalizer *)

Section NormalizerFacts.

Lemma lstrip_split (s : str) :
  exists p, s = p ++ lstrip s /\ Forall (fun c => is_space c = true) p /\
            starts_solid (lstrip s).
Proof.
  induction s as [|c s (p & Hs & Hp & Hh)]; simpl.
  - exists []. repeat split; constructor.
  - destruct (is_space c) eqn:E.
    + exists (c :: p). simpl. repeat split; auto. now f_equal.
    + exists []. simpl. repeat split; auto.
Qed.

(** [strip] cuts a run of white space from each end. *)
Lemma strip_split (s : str) :
  exists p q, s = p ++ strip s ++ q /\
              Forall (fun c => is_space c = true) p /\
              Forall (fun c => is_space c = true) q /\
              stripped (strip s).
Proof.
  destruct (lstrip_split s) as (p & Hs & Hp & Hh).
  destruct (lstrip_split (rev (lstrip s))) as (q & Hr & Hq & Hl).
  assert (Hu : lstrip s = strip s ++ rev q).
  { unfold strip, rstrip. rewrite <- rev_app_distr, <- Hr.
    now rewrite rev_involutive. }
  exists p, (rev q). repeat split.
  - now rewrite <- Hu.
  - exact Hp.
  - now apply Forall_rev.
  - intros c r E. rewrite E in Hu. rewrite Hu in Hh. exact Hh.
  - intros c r E. unfold strip, rstrip in E.
    apply (f_equal (@rev _)) in E. rewrite rev_involutive in E.
    rewrite rev_app_distr in E. simpl in E. rewrite E in Hl. exact Hl.
Qed.

Lemma no_double_app_r (a b : str) : no_double (a ++ b) -> no_double b.
Proof.
  induction a as [|c a IH]; simpl; [auto|]. intros [_ H]. now apply IH.
Qed.

Lemma no_double_app_l (a b : str) : no_double (a ++ b) -> no_double a.
Proof.
  induction a as [|c a IH]; simpl; [auto|]. intros [H1 H2]. split.
  - destruct a as [|d a]; auto.
  - now apply IH.
Qed.

Lemma no_double_infix (t a b : str) :
  no_double t -> t <> a ++ space :: space :: b.
Proof.
  intros H E. subst t. apply no_double_app_r in H. simpl in H.
  destruct H as [H _]. apply H. auto.
Qed.

(** Skipping the characters a match covers. *)
Lemma re_sub_skip (r : regex) (repl u t : str) :
  re_sub_from r repl (u ++ t) (List.length u) = re_sub_from r repl t 0.
Proof.
  induction u as [|c u IH]; simpl; [reflexivity|exact IH].
Qed.

Lemma re_sub_plus_miss (cs : cset) (repl : str) (c : char) (s : str) :
  in_cset cs c = false ->
  re_sub (PlusG cs) repl (c :: s) = c :: re_sub (PlusG cs) repl s.
Proof.
  intros H. unfold re_sub. simpl. now rewrite H.
Qed.

(** A run of the set is replaced as a whole. *)
Lemma re_sub_plus_hit (cs : cset) (repl : str) (c : char) (s : str) :
  in_cset cs c = true ->
  exists g t,
    c :: s = g ++ t /\ g <> [] /\
    Forall (fun d => in_cset cs d = true) g /\
    (t = [] \/ exists d t', t = d :: t' /\ in_cset cs d = false) /\
    (List.length t <= List.length s)%nat /\
    re_sub (PlusG cs) repl (c :: s) = repl ++ re_sub (PlusG cs) repl t.
Proof.
  intros Hc.
  destruct (plus_greedy cs (c :: s)) as [|[g t] l] eqn:E.
  { simpl in E. rewrite Hc in E.
    apply app_eq_nil in E as [_ E]. discriminate. }
  assert (Hin : In (g, t) (plus_greedy cs (c :: s))) by (rewrite E; now left).
  destruct (plus_greedy_sound _ _ _ _ Hin) as (Hne & Hall & Hs).
  exists g, t. repeat split; auto.
  - eapply plus_greedy_maximal; eauto.
  - apply (f_equal (@List.length _)) in Hs. rewrite length_app in Hs.
    simpl in Hs. destruct g; [congruence|]. simpl in Hs. lia.
  - unfold re_sub.
    change (re_sub_from (PlusG cs) repl (c :: s) 0)
      with (match matches (PlusG cs) (c :: s) with
            | m :: _ =>
                match List.length (consumed m) with
                | O => repl ++ c :: re_sub_from (PlusG cs) repl s 0
                | S k => repl ++ re_sub_from (PlusG cs) repl s k
                end
            | [] => c :: re_sub_from (PlusG cs) repl s 0
            end).
    change (matches (PlusG cs) (c :: s))
      with (map plain (plus_greedy cs (c :: s))).
    rewrite E. cbn [map plain consumed fst].
    destruct g as [|d g]; [congruence|]. simpl List.length.
    simpl in Hs. injection Hs as <- ->.
    now rewrite re_sub_skip.
Qed.

(** Induction on a text by dropping either its first character or a
    longer prefix. *)
Lemma str_length_ind (P : str -> Prop) :
  (forall s, (forall t, (List.length t < List.length s)%nat -> P t) -> P s) ->
  forall s, P s.
Proof.
  intros H s.
  assert (G : forall n t, (List.length t < n)%nat -> P t).
  { induction n as [|n IH]; intros t Ht; [lia|].
    apply H. intros u Hu. apply IH. lia. }
  apply (G (S (List.length s))). lia.
Qed.

(** Replacing the runs of white space by one space leaves single plain
    spaces only. *)
Lemma collapse_spaces_normal (s : str) :
  plain_spaces (re_sub (PlusG CSpace) [space] s) /\
  no_double (re_sub (PlusG CSpace) [space] s) /\
  (starts_solid s -> starts_solid (re_sub (PlusG CSpace) [space] s)).
Proof.
  induction s as [s IH] using str_length_ind.
  destruct s as [|c s].
  - split; [constructor|]. split; simpl; auto.
  - destruct (in_cset CSpace c) eqn:Hc.
    + destruct (re_sub_plus_hit CSpace [space] c s Hc)
        as (g & t & Hs & Hg & Hall & Ht & Hlen & ->).
      destruct (IH t) as (H1 & H2 & H3); [simpl; lia|].
      assert (Hsolid : starts_solid (re_sub (PlusG CSpace) [space] t)).
      { apply H3. destruct Ht as [->|(d & t' & -> & Hd)]; simpl; auto. }
      change ([space] ++ re_sub (PlusG CSpace) [space] t)
        with (space :: re_sub (PlusG CSpace) [space] t).
      split; [|split].
      * constructor; auto.
      * simpl. split; [|exact H2].
        destruct (re_sub (PlusG CSpace) [space] t) as [|b r]; [exact I|].
        intros [_ ->]. simpl in Hsolid. discriminate.
      * simpl. simpl in Hc. congruence.
    + rewrite re_sub_plus_miss by assumption.
      destruct (IH s) as (H1 & H2 & H3); [simpl; lia|].
      split; [|split].
      * constructor; auto. simpl in Hc. congruence.
      * simpl. split; [|exact H2].
        destruct (re_sub (PlusG CSpace) [space] s) as [|b r]; [exact I|].
        intros [-> _]. simpl in Hc. discriminate.
      * simpl. auto.
Qed.

Lemma plain_spaces_infix (p t q : str) :
  plain_spaces (p ++ t ++ q) -> plain_spaces t.
Proof.
  unfold plain_spaces. intros H.
  apply Forall_app in H as [_ H]. now apply Forall_app in H as [H _].
Qed.

Lemma no_double_mid (p t q : str) : no_double (p ++ t ++ q) -> no_double t.
Proof.
  intros H. apply no_double_app_r in H. now apply no_double_app_l in H.
Qed.

End NormalizerFacts.

(** X7: the text [clean_transcript_text] returns never starts or ends
    with white space, contains no white space other than the plain
    space (no newline, no tab), and never has two spaces in a row. *)
Theorem clean_transcript_text_normal (text : str) :
  let t := clean_transcript_text text in
  stripped t /\
  Forall (fun c => is_space c = true -> c = space) t /\
  (forall a b, t <> a ++ space :: space :: b).
Proof.
  unfold clean_transcript_text.
  set (u := re_sub (PlusG (CChar newline)) [space] _).
  destruct (collapse_spaces_normal u) as (H1 & H2 & _).
  destruct (strip_split (re_sub (PlusG CSpace) [space] u))
    as (p & q & Hs & _ & _ & Hst).
  rewrite Hs in H1, H2.
  split; [exact Hst|]. split.
  - now apply plain_spaces_infix in H1.
  - intros a b. apply no_double_infix. now apply no_double_mid in H2.
Qed.

(** ** Words are kept by the normalizer *)

Section WordFacts.

(** White space after a word only ends the word. *)
Lemma split_scan_spaces (q cur : str) :
  Forall (fun c => is_space c = true) q ->
  split_scan q cur = split_scan [] cur.
Proof.
  revert cur. induction q as [|c q IH]; intros cur H; [reflexivity|].
  inversion H as [|? ? Hc Hq]; subst. simpl. rewrite Hc.
  rewrite (IH [] Hq). simpl. now destruct (nonempty cur).
Qed.

Lemma split_scan_app_spaces (a q cur : str) :
  Forall (fun c => is_space c = true) q ->
  split_scan (a ++ q) cur = split_scan a cur.
Proof.
  intros Hq. revert cur. induction a as [|c a IH]; intros cur.
  - simpl app. now apply split_scan_spaces.
  - simpl. rewrite !IH. reflexivity.
Qed.

Lemma split_scan_leading (p s : str) :
  Forall (fun c => is_space c = true) p ->
  split_scan (p ++ s) [] = split_scan s [].
Proof.
  induction p as [|c p IH]; intros H; [reflexivity|].
  inversion H as [|? ? Hc Hp]; subst. simpl. rewrite Hc. now apply IH.
Qed.

(** [split] does not see what [strip] removes. *)
Lemma split_strip (s : str) : split (strip s) = split s.
Proof.
  destruct (strip_split s) as (p & q & Hs & Hp & Hq & _).
  unfold split. rewrite Hs at 2.
  rewrite split_scan_leading by assumption.
  now rewrite split_scan_app_spaces.
Qed.

(** A space between two texts separates their words. *)
Lemma split_scan_app_space (a b cur : str) :
  split_scan (a ++ space :: b) cur = split_scan a cur ++ split b.
Proof.
  revert cur. induction a as [|c a IH]; intros cur.
  - simpl. now destruct (nonempty cur).
  - simpl. destruct (is_space c).
    + rewrite IH. now destruct (nonempty cur).
    + apply IH.
Qed.

(** A run of white space counts as one space. *)
Lemma split_scan_run (g t cur : str) :
  g <> [] -> Forall (fun c => is_space c = true) g ->
  split_scan (g ++ t) cur = split_scan (space :: t) cur.
Proof.
  intros Hne Hg. destruct g as [|c g]; [congruence|].
  inversion Hg as [|? ? Hc Hg']; subst. simpl. rewrite Hc.
  rewrite (split_scan_leading g t Hg'). reflexivity.
Qed.

(** Replacing runs of white-space characters by one space keeps the
    words. *)
Lemma split_scan_collapse (cs : cset) (s : str) :
  (forall c, in_cset cs c = true -> is_space c = true) ->
  forall cur, split_scan (re_sub (PlusG cs) [space] s) cur = split_scan s cur.
Proof.
  intros Hcs. induction s as [s IH] using str_length_ind. intros cur.
  destruct s as [|c s]; [reflexivity|].
  destruct (in_cset cs c) eqn:Hc.
  - destruct (re_sub_plus_hit cs [space] c s Hc)
      as (g & t & Hs & Hg & Hall & Ht & Hlen & ->).
    rewrite Hs. rewrite (split_scan_run g t cur); auto.
    + simpl. rewrite !IH by (simpl; lia). reflexivity.
    + eapply Forall_impl; [|exact Hall]. intros d Hd. now apply Hcs.
  - rewrite re_sub_plus_miss by assumption. simpl.
    rewrite !IH by (simpl; lia). reflexivity.
Qed.

(** A pattern that matches nowhere leaves the text as it is. *)
Lemma re_sub_no_match (r : regex) (repl s : str) :
  matches r [] = [] ->
  (forall c t, In c s -> matches r (c :: t) = []) ->
  re_sub r repl s = s.
Proof.
  unfold re_sub. intros Hnil H. induction s as [|c s IH]; simpl.
  - now rewrite Hnil.
  - rewrite (H c s) by now left. f_equal. apply IH.
    intros d t Hd. apply H. now right.
Qed.

Lemma bracketed_no_match (o c : char) (s : str) :
  ~ In o s -> re_sub (bracketed o c) [] s = s.
Proof.
  intros Ho. apply re_sub_no_match; [reflexivity|].
  intros d t Hd. unfold bracketed. simpl.
  destruct (N.eqb d o) eqn:E; [|reflexivity].
  apply N.eqb_eq in E. subst. contradiction.
Qed.

Lemma span_solid (t : str) :
  exists w r, t = w ++ r /\ Forall (fun c => is_space c = false) w /\
              (r = [] \/ exists c r', r = c :: r' /\ is_space c = true).
Proof.
  induction t as [|c t (w & r & Ht & Hw & Hr)].
  - exists [], []. repeat split; auto.
  - destruct (is_space c) eqn:E.
    + exists [], (c :: t). split; [reflexivity|]. split; [constructor|].
      right. eauto.
    + exists (c :: w), r. split; [simpl; now f_equal|]. split; auto.
Qed.

(** A stripped text with single plain spaces is the join of its
    words. *)
Lemma normal_is_join (t : str) :
  stripped t -> plain_spaces t -> no_double t ->
  exists ws, Forall is_word ws /\ t = join [space] ws.
Proof.
  induction t as [t IH] using str_length_ind. intros Hst Hpl Hnd.
  destruct t as [|c0 t0] eqn:Et; [exists []; split; [constructor|reflexivity]|].
  rewrite <- Et in *.
  destruct (span_solid t) as (w & r & Ht & Hw & Hr).
  assert (Hwne : w <> []).
  { intros ->. simpl in Ht. destruct Hr as [->|(c & r' & -> & Hc)].
    - congruence.
    - destruct Hst as [Hhd _]. rewrite (Hhd c r' Ht) in Hc. discriminate. }
  destruct Hr as [->|(c & r' & -> & Hc)].
  - rewrite app_nil_r in Ht. exists [w]. split; [|exact Ht].
    constructor; [|constructor]. split; auto.
  - assert (c = space).
    { unfold plain_spaces in Hpl. rewrite Ht in Hpl.
      apply Forall_app in Hpl as [_ Hpl]. inversion Hpl; subst. auto. }
    subst c.
    assert (Hr'ne : r' <> []).
    { intros ->. destruct Hst as [_ Hlast].
      rewrite (Hlast space w Ht) in Hc. discriminate. }
    assert (Hr'st : stripped r').
    { split.
      - intros d r'' E. subst r'.
        destruct (is_space d) eqn:Ed; auto.
        assert (d = space).
        { unfold plain_spaces in Hpl. rewrite Ht in Hpl.
          apply Forall_app in Hpl as [_ Hpl]. inversion Hpl as [|? ? _ Hpl'].
          inversion Hpl'; subst. auto. }
        subst d. exfalso. rewrite Ht in Hnd.
        apply no_double_app_r in Hnd. simpl in Hnd. destruct Hnd as [Hnd _].
        apply Hnd. auto.
      - intros d r'' E. destruct Hst as [_ Hlast].
        apply (Hlast d (w ++ space :: r'')).
        rewrite Ht, E. now rewrite <- app_assoc. }
    destruct (IH r') as (ws & Hws & Hj).
    + rewrite Ht, length_app. simpl. lia.
    + exact Hr'st.
    + unfold plain_spaces in *. rewrite Ht in Hpl.
      apply Forall_app in Hpl as [_ Hpl]. now inversion Hpl.
    + rewrite Ht in Hnd. apply no_double_app_r in Hnd. simpl in Hnd. tauto.
    + exists (w :: ws). split.
      * constructor; auto. split; auto.
      * rewrite Ht, Hj. destruct ws as [|w' ws]; [simpl in Hj; congruence|].
        reflexivity.
Qed.

Lemma normal_join_split (t : str) :
  stripped t -> plain_spaces t -> no_double t ->
  join [space] (split t) = t.
Proof.
  intros H1 H2 H3. destruct (normal_is_join t H1 H2 H3) as (ws & Hws & ->).
  now rewrite split_join.
Qed.

Lemma in_cset_newline_space (c : char) :
  in_cset (CChar newline) c = true -> is_space c = true.
Proof. simpl. intros H. apply N.eqb_eq in H. now subst. Qed.

(** The words of the cleaned text when no bracket opens. *)
Lemma clean_plain_words (text : str) :
  ~ In (ch "[") text -> ~ In (ch "(") text ->
  split (clean_transcript_text text) = split text.
Proof.
  intros Hb Hp. unfold clean_transcript_text.
  rewrite (bracketed_no_match _ _ text Hb).
  rewrite (bracketed_no_match _ _ text Hp).
  rewrite split_strip. unfold split.
  rewrite split_scan_collapse by (intros c Hc; exact Hc).
  apply split_scan_collapse. exact in_cset_newline_space.
Qed.

End WordFacts.

(** X8: on a text in which no [[] and no [(] occurs,
    [clean_transcript_text] returns the words of the text joined by
    single spaces: [' '.join(text.split())]. *)
Theorem clean_transcript_text_plain (text : str) :
  ~ In (ch "[") text -> ~ In (ch "(") text ->
  clean_transcript_text text = join [space] (split text).
Proof.
  intros Hb Hp.
  rewrite <- (clean_plain_words text Hb Hp).
  symmetry. unfold clean_transcript_text.
  set (u := re_sub (PlusG (CChar newline)) [space] _).
  destruct (collapse_spaces_normal u) as (H1 & H2 & _).
  destruct (strip_split (re_sub (PlusG CSpace) [space] u))
    as (p & q & Hs & _ & _ & Hst).
  rewrite Hs in H1, H2.
  apply normal_join_split.
  - exact Hst.
  - now apply plain_spaces_infix in H1.
  - now apply no_double_mid in H2.
Qed.

(** ** The transcript fetcher: segments and words *)

Section FetcherSegments.

Lemma fetch_fold_segments (cues : list cue) (st : fetch_state) :
  processed_segments (fold_left fetch_step cues st) =
  processed_segments st ++ map segment_of cues.
Proof.
  revert st. induction cues as [|c cues IH]; intros st; simpl.
  - now rewrite app_nil_r.
  - rewrite IH. simpl. now rewrite <- app_assoc.
Qed.

Lemma split_concat_spaced (ts : list str) :
  split (List.concat (map (fun t => t ++ [space]) ts)) =
  List.concat (map split ts).
Proof.
  induction ts as [|t ts IH]; [reflexivity|].
  simpl. rewrite <- app_assoc. simpl.
  unfold split at 1. rewrite split_scan_app_space. now rewrite IH.
Qed.

End FetcherSegments.

(** X9: a record returned by [extract_single_transcript] carries the
    identifier it was asked for.  A success record has one segment per
    cue of the service's answer, in the same order, each with the cue's
    start, the cue's duration or 0 when the cue has none, and the
    cleaned text; its count is the number of cues.  A failed record
    comes from an [Exception] of the service and carries its [str]. *)
Theorem fetch_record_shape (video_id : str) tr (data : video_record) :
  runs (extract_single_transcript video_id) tr (Returned data) ->
  match data with
  | Success v text segments total =>
      exists cues,
        tr = [EvGetTranscript video_id (Ok cues)] /\
        v = video_id /\
        segments = map segment_of cues /\
        total = len cues
  | Failure v error =>
      exists e,
        tr = [EvGetTranscript video_id (Err e)] /\
        v = Some video_id /\
        error = exn_str e /\
        exn_is_Exception e = true
  end.
Proof.
  intros H. apply fetch_runs_inv in H as (r & -> & Hr).
  destruct r as [cues|e].
  - simpl in Hr. injection Hr as ->. exists cues.
    rewrite fetch_fold_segments. simpl.
    repeat split; auto. unfold len. now rewrite length_map.
  - destruct (exn_is_Exception e) eqn:E; [|discriminate].
    injection Hr as ->. exists e. auto.
Qed.

(** X10: the full text of a success record returned by
    [extract_single_transcript] has no white space at its ends, and its
    words are the words of the segment texts, segment after segment.
    (Two spaces in a row can occur, where a segment text is empty.) *)
Theorem fetch_full_text_words (video_id : str) tr v text segments total :
  runs (extract_single_transcript video_id) tr
       (Returned (Success v text segments total)) ->
  stripped text /\
  split text = List.concat (map (fun sg => split (seg_text sg)) segments).
Proof.
  intros H. apply fetch_runs_inv in H as (r & -> & Hr).
  destruct r as [cues|e].
  - simpl in Hr. injection Hr as -> -> -> ->.
    destruct (fetch_fold cues fetch_init) as (Hft & _ & _).
    simpl in Hft. rewrite Hft, fetch_fold_segments. simpl. split.
    + destruct (strip_split
                  (List.concat
                     (map (fun c => clean_transcript_text (cue_text c) ++ [space])
                          cues)))
        as (p & q & _ & _ & _ & Hst).
      exact Hst.
    + rewrite split_strip.
      rewrite <- (map_map (fun c => clean_transcript_text (cue_text c))
                          (fun t => t ++ [space])).
      rewrite split_concat_spaced. now rewrite !map_map.
  - destruct (exn_is_Exception e); discriminate.
Qed.

(** ** The batch extractor: keys, overwriting, calls *)

Section BatchKeys.

Lemma keys_store_all (es : list (str * video_record)) (d : batch) :
  keys (store_all es d) =
  fold_left (fun acc k => if existsb (str_eqb k) acc then acc else acc ++ [k])
            (map fst es) (keys d).
Proof.
  revert d. unfold store_all.
  induction es as [|[k v] es IH]; intros d; simpl; [reflexivity|].
  rewrite IH. now rewrite keys_dict_set.
Qed.

Lemma existsb_str_In (k : str) (l : list str) :
  existsb (str_eqb k) l = true <-> In k l.
Proof.
  rewrite existsb_exists. split.
  - intros (x & Hx & E). apply str_eqb_eq in E. now subst.
  - intros H. exists k. split; auto. apply str_eqb_refl.
Qed.

Lemma first_occurrences_fold (ks acc : list str) :
  NoDup acc ->
  let r := fold_left (fun acc k => if existsb (str_eqb k) acc then acc
                                   else acc ++ [k]) ks acc in
  NoDup r /\
  (List.length r <= List.length acc + List.length ks)%nat /\
  (forall k, In k r <-> In k acc \/ In k ks).
Proof.
  revert acc. induction ks as [|k ks IH]; intros acc Hnd; simpl.
  - split; [exact Hnd|]. split; [lia|]. intros k. tauto.
  - destruct (existsb (str_eqb k) acc) eqn:E.
    + destruct (IH acc Hnd) as (H1 & H2 & H3).
      split; [exact H1|]. split; [lia|].
      intros k'. rewrite H3. apply existsb_str_In in E.
      intuition (subst; auto).
    + assert (Hk : ~ In k acc).
      { intros Hin. apply existsb_str_In in Hin. congruence. }
      destruct (IH (acc ++ [k])) as (H1 & H2 & H3).
      { apply NoDup_app; auto.
        - repeat constructor. intros [].
        - intros x Hx [<-|[]]. contradiction. }
      split; [exact H1|]. split.
      * rewrite length_app in H2. simpl in H2. lia.
      * intros k'. rewrite H3, in_app_iff. simpl. intuition.
Qed.

Lemma find_app_last {A : Type} (f : A -> bool) (l : list A) (x : A) :
  find f (l ++ [x]) =
  match find f l with
  | Some y => Some y
  | None => if f x then Some x else None
  end.
Proof.
  induction l as [|a l IH]; simpl; [reflexivity|].
  destruct (f a); [reflexivity|exact IH].
Qed.

Lemma dict_get_set_other {V : Type} (d : dict V) (k k' : str) (v : V) :
  k' <> k -> dict_get (dict_set d k v) k' = dict_get d k'.
Proof.
  intros Hne. induction d as [|[k0 v0] d IH]; simpl.
  - assert (str_eqb k k' = false) as -> by (apply str_eqb_neq; congruence).
    reflexivity.
  - destruct (str_eqb k0 k) eqn:E; simpl.
    + apply str_eqb_eq in E. subst k0.
      assert (str_eqb k k' = false) as -> by (apply str_eqb_neq; congruence).
      reflexivity.
    + destruct (str_eqb k0 k'); auto.
Qed.

Lemma dict_get_store_all (es : list (str * video_record)) (d : batch) (k : str) :
  dict_get (store_all es d) k =
  match last_stored es k with
  | Some v => Some v
  | None => dict_get d k
  end.
Proof.
  revert d. unfold store_all, last_stored.
  induction es as [|[k0 v0] es IH]; intros d; simpl; [reflexivity|].
  rewrite IH, find_app_last.
  destruct (find (fun it => str_eqb (fst it) k) (rev es)) as [it|];
    [reflexivity|].
  simpl. destruct (str_eqb k0 k) eqn:E.
  - apply str_eqb_eq in E. subst. now rewrite dict_get_set.
  - apply str_eqb_neq in E. rewrite dict_get_set_other by congruence.
    reflexivity.
Qed.

Lemma fetch_only_fetches (video_id : str) tr o :
  valid_id video_id ->
  runs (extract_single_transcript video_id) tr o ->
  Forall is_fetch tr /\ List.length tr = 1%nat.
Proof.
  intros Hv H. apply fetch_runs_inv in H as (r & -> & _).
  split; [|reflexivity]. constructor; [exact Hv|constructor].
Qed.

Lemma batch_loop_calls (urls : list str) (results : batch) tr o :
  runs (for_each urls extract_one results) tr o ->
  Forall is_fetch tr /\ (List.length tr <= List.length urls)%nat.
Proof.
  revert results tr o.
  induction urls as [|url urls IH]; intros results tr o H; simpl in H.
  - inversion H; subst. split; [constructor|simpl; lia].
  - apply runs_bind_inv in H
      as [(tr1 & b1 & tr2 & H1 & H2 & ->)|(e & H1 & ->)];
      apply extract_one_inv in H1;
      destruct (extract_video_id url) as [video_id|] eqn:E.
    + destruct H1 as [(result & Hf & _)|(e & Hf & _)];
        destruct (fetch_only_fetches _ _ _ (extract_video_id_valid _ _ E) Hf)
          as [Hall Hlen];
        destruct (IH _ _ _ H2) as [Hall2 Hlen2];
        (split; [now apply Forall_app|rewrite length_app; simpl; lia]).
    + destruct H1 as [-> _]. destruct (IH _ _ _ H2) as [Hall2 Hlen2].
      split; [exact Hall2|simpl; lia].
    + destruct H1 as [(result & Hf & _)|(e' & Hf & _)];
        destruct (fetch_only_fetches _ _ _ (extract_video_id_valid _ _ E) Hf)
          as [Hall Hlen];
        (split; [exact Hall|simpl; lia]).
    + destruct H1 as [-> _]. split; [constructor|simpl; lia].
Qed.

End BatchKeys.

(** X11: the keys of a batch returned by [extract_transcripts] are the
    keys of the URLs in order of first occurrence: they are pairwise
    different, and the batch has at most as many entries as there are
    URLs (fewer when two URLs have the same key). *)
Theorem batch_keys_first_occurrences (urls : list str) tr (b : batch) :
  runs (extract_transcripts urls) tr (Returned b) ->
  keys b = first_occurrences (map batch_key urls) /\
  NoDup (keys b) /\
  (List.length b <= List.length urls)%nat.
Proof.
  intros H. apply batch_loop_inv in H as [(es & Hes & Hb)|(e & Hb & _)];
    [|discriminate].
  injection Hb as ->.
  pose proof (entries_for_keys _ _ _ Hes) as Hk.
  assert (Hkeys : keys (store_all es []) = first_occurrences (map batch_key urls)).
  { rewrite keys_store_all, Hk. reflexivity. }
  destruct (first_occurrences_fold (map batch_key urls) [] (NoDup_nil _))
    as (H1 & H2 & _).
  fold (first_occurrences (map batch_key urls)) in H1, H2.
  split; [exact Hkeys|]. split.
  - now rewrite Hkeys.
  - replace (List.length (store_all es [])) with
      (List.length (keys (store_all es []))) by apply length_map.
    rewrite Hkeys. rewrite length_map in H2. simpl in H2. exact H2.
Qed.

(** X12: when several URLs have the same key, the batch returned by
    [extract_transcripts] holds, under that key, the entry of the last
    of them; a key no URL has is absent. *)
Theorem batch_last_write_wins (urls : list str) tr (b : batch) :
  runs (extract_transcripts urls) tr (Returned b) ->
  exists entries,
    entries_for urls tr entries /\
    forall k, dict_get b k = last_stored entries k.
Proof.
  intros H. apply batch_loop_inv in H as [(es & Hes & Hb)|(e & Hb & _)];
    [|discriminate].
  injection Hb as ->. exists es. split; [exact Hes|].
  intros k. rewrite dict_get_store_all.
  now destruct (last_stored es k).
Qed.

(** X13: [extract_transcripts] calls nothing but the captioning
    service, never the file system; it calls it at most once per URL,
    and only with identifiers that are non-empty and free of [&],
    newline, [?] and [#].  This holds for the runs that raise too. *)
Theorem batch_calls_only_service (urls : list str) tr o :
  runs (extract_transcripts urls) tr o ->
  Forall is_fetch tr /\ (List.length tr <= List.length urls)%nat.
Proof.
  intros H. unfold extract_transcripts in H.
  destruct (batch_loop_calls _ _ _ _ H) as [Hfetch Hlen].
  split; [exact Hfetch|exact Hlen].
Qed.

(** ** The exporter: paths and contents *)

Section ExporterContents.

Lemma flat_map_filter {A B : Type} (f : A -> list B) (keep : A -> bool)
    (l : list A) :
  (forall a, keep a = false -> f a = []) ->
  flat_map f (filter keep l) = flat_map f l.
Proof.
  intros H. induction l as [|a l IH]; simpl; [reflexivity|].
  destruct (keep a) eqn:E; simpl; rewrite IH; [reflexivity|].
  now rewrite (H a E).
Qed.

Lemma csv_rows_length (video_id : str) (data : video_record) :
  len (csv_rows video_id data) = segment_count data /\
  Forall (fun row => row_video_id row = video_id) (csv_rows video_id data).
Proof.
  unfold csv_rows. destruct data as [v text segments total|v error]; simpl.
  - split; [unfold len; now rewrite length_map|].
    apply Forall_map. now apply Forall_forall.
  - split; [reflexivity|constructor].
Qed.

End ExporterContents.

(** X14: when [save_transcripts] returns, it has made one call, the
    write of the path it returns, and the format is a supported one.
    The path is the file name with a dot and the format; it is put
    under the output directory unless the file name starts with [/], in
    which case the output directory is not used at all. *)
Theorem save_returns_written_path (self : extractor) (transcripts : batch)
    (format filename : str) tr (path : str) :
  runs (save_transcripts self transcripts format filename) tr (Returned path) ->
  In format SUPPORTED_FORMATS /\
  (exists content, tr = [EvWriteFile path content (Ok tt)]) /\
  (forall name, filename = ch "/" :: name ->
                path = filename ++ py "." ++ format) /\
  ((forall name, filename <> ch "/" :: name) ->
   exists sep, (sep = [] \/ sep = py "/") /\
               path = output_dir self ++ sep ++ filename ++ py "." ++ format).
Proof.
  intros H.
  destruct (in_dec (list_eq_dec N.eq_dec) format SUPPORTED_FORMATS) as [Hin|Hin].
  - split; [exact Hin|].
    destruct (save_supported_inv _ _ _ _ _ _ Hin H) as (c & r & -> & Ho).
    destruct r as [ [] | e ]; [|discriminate]. injection Ho as ->.
    split; [now exists c|]. unfold save_path, path_join. split.
    + intros name ->. reflexivity.
    + intros Hrel.
      assert (Hj : exists sep, (sep = [] \/ sep = py "/") /\
                   match rev (output_dir self) with
                   | [] => filename ++ py "." ++ format
                   | d :: _ =>
                       if N.eqb d (ch "/")
                       then output_dir self ++ filename ++ py "." ++ format
                       else output_dir self ++ py "/" ++
                            filename ++ py "." ++ format
                   end = output_dir self ++ sep ++ filename ++ py "." ++ format).
      { destruct (rev (output_dir self)) as [|d r] eqn:Er.
        - exists []. split; auto.
          apply (f_equal (@rev _)) in Er. rewrite rev_involutive in Er.
          now rewrite Er.
        - destruct (N.eqb d (ch "/")); [exists []|exists (py "/")]; auto. }
      destruct filename as [|c0 name]; [exact Hj|].
      cbn [app]. destruct (N.eqb c0 (ch "/")) eqn:E; [|exact Hj].
      apply N.eqb_eq in E. subst c0. exfalso. now apply (Hrel name).
  - rewrite save_unsupported_eq in H by assumption. inversion H.
Qed.

(** X15: records whose status is not success never reach the txt and
    csv files: [save_transcripts] in these formats does exactly what it
    does on the batch without such records. *)
Theorem save_ignores_failures (self : extractor) (transcripts : batch)
    (format filename : str) :
  format = py "txt" \/ format = py "csv" ->
  save_transcripts self transcripts format filename =
  save_transcripts self (only_success transcripts) format filename.
Proof.
  intros [->| ->]; unfold save_transcripts, only_success; simpl;
    rewrite flat_map_filter; auto.
  - intros [k data] E. simpl in *. unfold txt_block. now rewrite E.
  - intros [k data] E. simpl in *. unfold csv_rows. now rewrite E.
Qed.

(** X16: in csv format [save_transcripts] hands over one row per
    segment of the success records: the number of rows is the sum of
    the numbers of segments, and every row carries the key of a success
    record of the batch.  A batch without success records gives no
    row. *)
Theorem save_csv_rows (self : extractor) (transcripts : batch)
    (filename : str) tr o :
  runs (save_transcripts self transcripts (py "csv") filename) tr o ->
  exists rows r,
    tr = [EvWriteFile (save_path self (py "csv") filename) (Csv rows) r] /\
    len rows =
      fold_right (fun it a => segment_count (snd it) + a) 0
                 (only_success transcripts) /\
    Forall (fun row => exists data,
                In (row_video_id row, data) transcripts /\
                status data = py "success") rows.
Proof.
  intros H. unfold save_transcripts in H. simpl in H.
  fold (save_path self (py "csv") filename) in H.
  inversion H as [| | | | |q c k r tr' o' Hk]; subst.
  exists (flat_map (fun it => csv_rows (fst it) (snd it)) transcripts), r.
  split.
  - destruct r as [ [] | e ]; simpl in Hk; inversion Hk; subst; reflexivity.
  - clear. split.
    + induction transcripts as [|[k data] b IH]; [reflexivity|].
      simpl flat_map. rewrite len_app.
      destruct (csv_rows_length k data) as [-> _]. rewrite IH.
      unfold only_success. simpl.
      destruct data as [v text segments total|v error]; simpl; lia.
    + induction transcripts as [|[k data] b IH]; [constructor|].
      simpl flat_map. apply Forall_app. split.
      * destruct (csv_rows_length k data) as [_ Hall].
        unfold csv_rows in *.
        destruct data as [v text segments total|v error]; simpl in *;
          [|constructor].
        eapply Forall_impl; [|exact Hall]. intros row Hrow.
        exists (Success v text segments total). rewrite Hrow.
        split; [now left|reflexivity].
      * eapply Forall_impl; [|exact IH].
        intros row (data' & Hin & Hst). exists data'. split; [now right|auto].
Qed.

(** ** The training-data preparer: what the chunks are *)

Section PreparerChunks.

Variable N : Z.

Lemma chunk_member (text chunk : str) :
  In chunk (chunk_text N text) ->
  chunk <> [] /\ stripped chunk /\
  len chunk <= Z.max N (longest_word text).
Proof.
  destruct (chunk_text_groups N text) as (groups & Hch & Hws & Hok).
  rewrite Hch. intros Hin. apply in_map_iff in Hin as (g & <- & Hg).
  rewrite Forall_forall in Hok. destruct (Hok g Hg) as [Hne Hfit].
  assert (Hwords : Forall is_word g).
  { apply Forall_forall. intros w Hw.
    pose proof (split_words text) as Hall. rewrite Forall_forall in Hall.
    apply Hall. rewrite <- Hws. eapply in_concat_words; eauto. }
  destruct (join_words_word g Hne Hwords) as (H1 & H2 & H3).
  split; [exact H1|]. split; [split; assumption|].
  destruct Hfit as [[w ->]|Hle]; [|lia].
  simpl. assert (In w (split text)).
  { rewrite <- Hws. eapply in_concat_words; eauto. now left. }
  pose proof (longest_word_bound text w H). lia.
Qed.

Lemma in_enumerate_from {A : Type} (l : list A) (k i : Z) (x : A) :
  In (i, x) (enumerate_from k l) -> k <= i < k + len l /\ In x l.
Proof.
  revert k. induction l as [|y l IH]; intros k H; simpl in H; [contradiction|].
  rewrite len_cons. pose proof (len_nonneg l).
  destruct H as [E|H].
  - injection E as <- <-. split; [lia|now left].
  - destruct (IH _ H) as [Hi Hx]. split; [lia|now right].
Qed.

Lemma prepare_single_texts (k v text : str) segments total :
  map tc_text
      (prepare_for_training N [(k, Success v text segments total)]) =
  chunk_text N text.
Proof.
  unfold prepare_for_training. simpl. rewrite map_map. simpl.
  apply (enumerate_from_index (chunk_text N text) 0).
Qed.

Lemma chunk_text_rejoin (text : str) :
  split (join [space] (chunk_text N text)) = split text.
Proof.
  destruct (chunk_text_groups N text) as (groups & Hch & Hws & Hok).
  assert (Hne : Forall (fun g => g <> []) groups).
  { eapply Forall_impl; [|exact Hok]. now intros g [H _]. }
  rewrite Hch, join_concat, Hws by assumption.
  apply split_join, split_words.
Qed.

End PreparerChunks.

(** X17: every element of the list [prepare_for_training] returns
    belongs to a success record of the batch: it carries the key of
    the record, its text is one of the chunks of the record's full
    text, non-empty, without white space at its ends and at most
    [max(N, longest word)] long, and its index is a position in the
    list of those chunks. *)
Theorem training_chunk_origin (N : Z) (transcripts : batch)
    (c : training_chunk) :
  In c (prepare_for_training N transcripts) ->
  exists v text segments total,
    In (tc_video_id c, Success v text segments total) transcripts /\
    In (tc_text c) (chunk_text N text) /\
    tc_text c <> [] /\ stripped (tc_text c) /\
    len (tc_text c) <= Z.max N (longest_word text) /\
    0 <= tc_chunk_index c < len (chunk_text N text).
Proof.
  unfold prepare_for_training. rewrite prepare_fold. simpl.
  intros H. apply in_concat in H as (blk & Hblk & Hc).
  apply in_map_iff in Hblk as ([k data] & <- & Hin).
  unfold prepare_step in Hc.
  destruct data as [v text segments total|v error]; simpl in Hc;
    [|contradiction].
  apply in_map_iff in Hc as ([i chunk] & <- & Hi).
  apply in_enumerate_from in Hi as [Hi Hchunk].
  destruct (chunk_member N text chunk Hchunk) as (H1 & H2 & H3).
  exists v, text, segments, total. simpl.
  split; [exact Hin|]. split; [exact Hchunk|]. split; [exact H1|].
  split; [exact H2|]. split; [exact H3|lia].
Qed.

(** X18: [prepare_for_training] works entry by entry: the list for two
    batches put one after the other is the list for the first followed
    by the list for the second (the indices of a video do not depend on
    the videos before it). *)
Theorem prepare_for_training_app (N : Z) (b1 b2 : batch) :
  prepare_for_training N (b1 ++ b2) =
  prepare_for_training N b1 ++ prepare_for_training N b2.
Proof.
  unfold prepare_for_training. rewrite !prepare_fold. simpl.
  now rewrite map_app, concat_app.
Qed.

(** X19: nothing is lost between a success record and its training
    data: the texts of the chunks made from it, joined with spaces and
    split again, are the words of its full text. *)
Theorem training_chunks_keep_words (N : Z) (k v text : str) segments total :
  split (join [space]
           (map tc_text
              (prepare_for_training N [(k, Success v text segments total)]))) =
  split text.
Proof. rewrite prepare_single_texts. apply chunk_text_rejoin. Qed.

(** X20: from the service to the training data: when
    [extract_single_transcript] returns a success record, the chunks
    [prepare_for_training] makes of it hold, in order, exactly the
    words of the cleaned texts of the cues the service returned. *)
Theorem fetched_words_reach_training (N : Z) (video_id : str)
    (cues : list cue) (data : video_record) :
  runs (extract_single_transcript video_id)
       [EvGetTranscript video_id (Ok cues)] (Returned data) ->
  split (join [space]
           (map tc_text (prepare_for_training N [(video_id, data)]))) =
  List.concat (map (fun c => split (clean_transcript_text (cue_text c))) cues).
Proof.
  intros H. apply fetch_runs_inv in H as (r & Hr & Ho).
  injection Hr as <-. simpl in Ho. injection Ho as ->.
  rewrite prepare_single_texts, chunk_text_rejoin, split_strip.
  destruct (fetch_fold cues fetch_init) as (Hft & _ & _).
  simpl in Hft. rewrite Hft.
  rewrite <- (map_map (fun c => clean_transcript_text (cue_text c))
                      (fun t => t ++ [space])).
  rewrite split_concat_spaced. now rewrite map_map.
Qed.

(** ** The example scripts *)

Section ExampleFacts.

Lemma init_returned_inv (d : str) tr self :
  runs (init d) tr (Returned self) ->
  self = {| output_dir := d |} /\ init_calls d tr.
Proof.
  intros H. unfold init_calls.
  apply init_inv in H as [[-> Ho]|[[-> Ho]|(e & _ & Ho)]];
    [| |discriminate]; injection Ho as <-; auto.
Qed.

(** A trace of calls to the service, spelled out. *)
Lemma fetch_trace_events tr :
  Forall is_fetch tr ->
  exists rs, tr = map (fun p => EvGetTranscript (fst p) (snd p)) rs /\
             map fst rs = asked tr.
Proof.
  induction 1 as [|ev tr Hev _ (rs & -> & Hrs)].
  - now exists [].
  - destruct ev as [v r| | |]; simpl in Hev; try contradiction.
    exists ((v, r) :: rs). simpl. split; [reflexivity|].
    f_equal. exact Hrs.
Qed.

Lemma save_json_returned (self : extractor) (b : batch) (filename : str)
    tr (p : str) :
  runs (save_transcripts self b (py "json") filename) tr (Returned p) ->
  tr = [EvWriteFile (save_path self (py "json") filename) (JsonDoc b) (Ok tt)].
Proof.
  intros H. unfold save_transcripts in H. simpl in H.
  fold (save_path self (py "json") filename) in H.
  inversion H as [| | | | |q c k r tr1 o1 Hk]; subst.
  destruct r as [ [] | e ]; simpl in Hk; inversion Hk; subst; reflexivity.
Qed.

Lemma save_txt_returned (self : extractor) (b : batch) (filename : str)
    tr (p : str) :
  runs (save_transcripts self b (py "txt") filename) tr (Returned p) ->
  tr = [EvWriteFile (save_path self (py "txt") filename) (txt_of b) (Ok tt)].
Proof.
  intros H. unfold save_transcripts in H. simpl in H.
  fold (save_path self (py "txt") filename) in H.
  inversion H as [| | | | |q c k r tr1 o1 Hk]; subst.
  destruct r as [ [] | e ]; simpl in Hk; inversion Hk; subst; reflexivity.
Qed.

Lemma save_csv_returned (self : extractor) (b : batch) (filename : str)
    tr (p : str) :
  runs (save_transcripts self b (py "csv") filename) tr (Returned p) ->
  tr = [EvWriteFile (save_path self (py "csv") filename) (csv_of b) (Ok tt)].
Proof.
  intros H. unfold save_transcripts in H. simpl in H.
  fold (save_path self (py "csv") filename) in H.
  inversion H as [| | | | |q c k r tr1 o1 Hk]; subst.
  destruct r as [ [] | e ]; simpl in Hk; inversion Hk; subst; reflexivity.
Qed.

(** The runs of the shared steps that get through, cut into the calls
    of each step, in order. *)
Lemma export_twice_inv {A : Type} (d : str) (urls : list str)
    (f1 n1 f2 n2 : str) (k : batch -> prog A) tr (x : A) :
  (forall b tr' o, runs (k b) tr' o -> tr' = []) ->
  runs (export_twice d urls f1 n1 f2 n2 k) tr (Returned x) ->
  exists tr0 trx (b : batch) tr1 p1 tr2 p2,
    tr = tr0 ++ trx ++ tr1 ++ tr2 /\
    init_calls d tr0 /\
    runs (extract_transcripts urls) trx (Returned b) /\
    runs (save_transcripts {| output_dir := d |} b f1 n1) tr1 (Returned p1) /\
    runs (save_transcripts {| output_dir := d |} b f2 n2) tr2 (Returned p2) /\
    runs (k b) [] (Returned x).
Proof.
  intros Hk H. unfold export_twice in H.
  apply runs_bind_inv in H
    as [(tr0 & self & ta & H0 & H & ->)|(e & _ & Ho)]; [|discriminate].
  destruct (init_returned_inv _ _ _ H0) as [-> Hinit].
  apply runs_bind_inv in H
    as [(trx & b & tb & Hx & H & ->)|(e & _ & Ho)]; [|discriminate].
  apply runs_bind_inv in H
    as [(tr1 & p1 & tc & H1 & H & ->)|(e & _ & Ho)]; [|discriminate].
  apply runs_bind_inv in H
    as [(tr2 & p2 & tr3 & H2 & H & ->)|(e & _ & Ho)]; [|discriminate].
  pose proof (Hk _ _ _ H) as ->.
  exists tr0, trx, b, tr1, p1, tr2, p2.
  rewrite app_nil_r. repeat (split; [first [reflexivity|assumption]|]).
  exact H.
Qed.

End ExampleFacts.

(** X21: every run of [basic_extraction_example] that returns consists
    of these calls, in this order: the constructor's look for the
    output directory (and its creation when it is not found), the
    request of the transcript of [YOUR_VIDEO_ID_1], the request of the
    transcript of [YOUR_VIDEO_ID_2] (whatever the first request gave),
    the write of the whole batch to [basic_transcripts.json], the write
    of the text of the success records to [basic_transcripts.txt].  The
    value returned is the batch [extract_transcripts] made of the two
    answers; its keys are the two identifiers. *)
Theorem basic_example_run (DEFAULT_OUTPUT_DIR : str) tr (b : batch) :
  runs (basic_extraction_example DEFAULT_OUTPUT_DIR) tr (Returned b) ->
  exists tr0 r1 r2,
    init_calls DEFAULT_OUTPUT_DIR tr0 /\
    tr = tr0 ++
         [EvGetTranscript (py "YOUR_VIDEO_ID_1") r1;
          EvGetTranscript (py "YOUR_VIDEO_ID_2") r2;
          EvWriteFile (save_path {| output_dir := DEFAULT_OUTPUT_DIR |}
                                 (py "json") (py "basic_transcripts"))
                      (JsonDoc b) (Ok tt);
          EvWriteFile (save_path {| output_dir := DEFAULT_OUTPUT_DIR |}
                                 (py "txt") (py "basic_transcripts"))
                      (txt_of b) (Ok tt)] /\
    runs (extract_transcripts video_urls)
         [EvGetTranscript (py "YOUR_VIDEO_ID_1") r1;
          EvGetTranscript (py "YOUR_VIDEO_ID_2") r2]
         (Returned b) /\
    keys b = [py "YOUR_VIDEO_ID_1"; py "YOUR_VIDEO_ID_2"].
Proof.
  intros H.
  change (runs (export_twice DEFAULT_OUTPUT_DIR video_urls
                  (py "json") (py "basic_transcripts")
                  (py "txt") (py "basic_transcripts")
                  (fun t => Ret t)) tr (Returned b)) in H.
  apply export_twice_inv in H
    as (tr0 & trx & b' & tr1 & p1 & tr2 & p2 & -> & H0 & Hx & H1 & H2 & Hk);
    [|intros ? ? ? Hr; now inversion Hr].
  inversion Hk; subst.
  apply save_json_returned in H1. apply save_txt_returned in H2. subst.
  destruct (batch_loop_calls _ _ _ _ Hx) as [Hfetch _].
  destruct (fetch_trace_events _ Hfetch) as (rs & Htrx & Hrs).
  pose proof Hx as Hx'.
  apply batch_loop_inv in Hx' as [(es & Hes & Hb)|(e & Hb & _)];
    [|discriminate].
  pose proof (entries_for_keys _ _ _ Hes) as Hkeys.
  pose proof (entries_for_asked _ _ _ Hes) as Hasked.
  rewrite Hasked in Hrs.
  change (parsed_ids video_urls)
    with [py "YOUR_VIDEO_ID_1"; py "YOUR_VIDEO_ID_2"] in Hrs.
  destruct rs as [|[v1 r1] [|[v2 r2] [|? ?]]]; try discriminate Hrs.
  simpl in Hrs. injection Hrs as -> ->. simpl in Htrx. subst trx.
  exists tr0, r1, r2.
  split; [exact H0|]. split; [reflexivity|]. split; [exact Hx|].
  injection Hb as ->. rewrite keys_store_all, Hkeys. reflexivity.
Qed.

(** X22: every run of [extract_business_content] that returns consists
    of these calls, in this order: the constructor's look for the
    output directory (and its creation when it is not found), the
    requests of the transcripts of [BUSINESS_VIDEO_1],
    [TRAINING_VIDEO_2] and [TESTIMONIAL_VIDEO_3], the write of the
    rows of the success records to [business_transcripts.csv], the
    write of the whole batch to [business_transcripts.json].  The
    value returned is the batch [extract_transcripts] made of the three
    answers, with the three identifiers as keys, together with the
    list [prepare_for_training] makes of that batch with the bound
    256. *)
Theorem business_example_run (DEFAULT_OUTPUT_DIR : str) tr (b : batch)
    (training_data : list training_chunk) :
  runs (extract_business_content DEFAULT_OUTPUT_DIR) tr
       (Returned (b, training_data)) ->
  exists tr0 r1 r2 r3,
    init_calls DEFAULT_OUTPUT_DIR tr0 /\
    tr = tr0 ++
         [EvGetTranscript (py "BUSINESS_VIDEO_1") r1;
          EvGetTranscript (py "TRAINING_VIDEO_2") r2;
          EvGetTranscript (py "TESTIMONIAL_VIDEO_3") r3;
          EvWriteFile (save_path {| output_dir := DEFAULT_OUTPUT_DIR |}
                                 (py "csv") (py "business_transcripts"))
                      (csv_of b) (Ok tt);
          EvWriteFile (save_path {| output_dir := DEFAULT_OUTPUT_DIR |}
                                 (py "json") (py "business_transcripts"))
                      (JsonDoc b) (Ok tt)] /\
    runs (extract_transcripts business_urls)
         [EvGetTranscript (py "BUSINESS_VIDEO_1") r1;
          EvGetTranscript (py "TRAINING_VIDEO_2") r2;
          EvGetTranscript (py "TESTIMONIAL_VIDEO_3") r3]
         (Returned b) /\
    keys b = [py "BUSINESS_VIDEO_1"; py "TRAINING_VIDEO_2";
              py "TESTIMONIAL_VIDEO_3"] /\
    training_data = prepare_for_training 256 b.
Proof.
  intros H.
  change (runs (export_twice DEFAULT_OUTPUT_DIR business_urls
                  (py "csv") (py "business_transcripts")
                  (py "json") (py "business_transcripts")
                  (fun t => Ret (t, prepare_for_training 256 t)))
               tr (Returned (b, training_data))) in H.
  apply export_twice_inv in H
    as (tr0 & trx & b' & tr1 & p1 & tr2 & p2 & -> & H0 & Hx & H1 & H2 & Hk);
    [|intros ? ? ? Hr; now inversion Hr].
  inversion Hk; subst.
  apply save_csv_returned in H1. apply save_json_returned in H2. subst.
  destruct (batch_loop_calls _ _ _ _ Hx) as [Hfetch _].
  destruct (fetch_trace_events _ Hfetch) as (rs & Htrx & Hrs).
  pose proof Hx as Hx'.
  apply batch_loop_inv in Hx' as [(es & Hes & Hb)|(e & Hb & _)];
    [|discriminate].
  pose proof (entries_for_keys _ _ _ Hes) as Hkeys.
  pose proof (entries_for_asked _ _ _ Hes) as Hasked.
  rewrite Hasked in Hrs.
  change (parsed_ids business_urls)
    with [py "BUSINESS_VIDEO_1"; py "TRAINING_VIDEO_2";
          py "TESTIMONIAL_VIDEO_3"] in Hrs.
  destruct rs as [|[v1 r1] [|[v2 r2] [|[v3 r3] [|? ?]]]];
    try discriminate Hrs.
  simpl in Hrs. injection Hrs as -> -> ->. simpl in Htrx. subst trx.
  exists tr0, r1, r2, r3.
  split; [exact H0|]. split; [reflexivity|]. split; [exact Hx|].
  split; [|reflexivity].
  injection Hb as ->. rewrite keys_store_all, Hkeys. reflexivity.
Qed.

(** ** The further properties at sample inputs *)

Lemma chunk_text_small_bound_witness :
  chunk_text 0 (py "to be  or not") = [py "to"; py "be"; py "or"; py "not"].
Proof.
  apply (chunk_text_small_bound 0 (py "to be  or not")). lia.
Defined.

Lemma chunk_text_fits_witness :
  chunk_text 14 (py " to be  or not ") = [py "to be or not"].
Proof.
  apply (chunk_text_fits 14 (py " to be  or not ")).
  - discriminate.
  - vm_compute. discriminate.
Defined.

Lemma extract_video_id_found_witness :
  exists l a t,
    In l shape_literals /\
    py "https://m.youtube.com/watch?v=ABC123&t=10" = a ++ l ++ py "ABC123" ++ t /\
    valid_id (py "ABC123") /\ trailing t.
Proof.
  apply (extract_video_id_found
           (py "https://m.youtube.com/watch?v=ABC123&t=10") (py "ABC123")).
  reflexivity.
Defined.

Lemma clean_transcript_text_plain_witness :
  clean_transcript_text (py "  so   it
goes ") = py "so it goes".
Proof.
  apply (clean_transcript_text_plain (py "  so   it
goes ")).
  - simpl. intuition discriminate.
  - simpl. intuition discriminate.
Defined.

Lemma fetch_record_shape_witness :
  exists cues,
    [EvGetTranscript (py "ABC123") (Ok Samples.cues)] =
      [EvGetTranscript (py "ABC123") (Ok cues)] /\
    py "ABC123" = py "ABC123" /\
    Samples.segments = map segment_of cues /\
    2 = len cues.
Proof.
  apply (fetch_record_shape (py "ABC123")
           [EvGetTranscript (py "ABC123") (Ok Samples.cues)] Samples.record).
  exact (run_runs SampleWorld.sample
           (extract_single_transcript (py "ABC123")) Samples.empty_world).
Defined.

Lemma fetch_full_text_words_witness :
  stripped (py "hello there world") /\
  split (py "hello there world") =
    List.concat (map (fun sg => split (seg_text sg)) Samples.segments).
Proof.
  apply (fetch_full_text_words (py "ABC123")
           [EvGetTranscript (py "ABC123") (Ok Samples.cues)]
           (py "ABC123") (py "hello there world") Samples.segments 2).
  exact (run_runs SampleWorld.sample
           (extract_single_transcript (py "ABC123")) Samples.empty_world).
Defined.

Lemma batch_keys_first_occurrences_witness :
  let b := SampleRuns.returned [] (SampleRuns.outcome_of SampleRuns.batch_run) in
  keys b = [py "ABC123"; py "not a url"] /\
  keys b = first_occurrences (map batch_key SampleRuns.urls_twice) /\
  NoDup (keys b) /\
  (List.length b <= List.length SampleRuns.urls_twice)%nat.
Proof.
  split; [reflexivity|].
  apply (batch_keys_first_occurrences SampleRuns.urls_twice
           (SampleRuns.trace_of SampleRuns.batch_run)).
  exact (run_runs SampleWorld.sample
           (extract_transcripts SampleRuns.urls_twice) Samples.empty_world).
Defined.

Lemma batch_last_write_wins_witness :
  let b := SampleRuns.returned [] (SampleRuns.outcome_of SampleRuns.batch_run) in
  dict_get b (py "ABC123") = Some Samples.record /\
  exists entries,
    entries_for SampleRuns.urls_twice
                (SampleRuns.trace_of SampleRuns.batch_run) entries /\
    forall k, dict_get b k = last_stored entries k.
Proof.
  split; [reflexivity|].
  apply (batch_last_write_wins SampleRuns.urls_twice
           (SampleRuns.trace_of SampleRuns.batch_run)).
  exact (run_runs SampleWorld.sample
           (extract_transcripts SampleRuns.urls_twice) Samples.empty_world).
Defined.

Lemma batch_calls_only_service_witness :
  asked (SampleRuns.trace_of SampleRuns.batch_run) =
    [py "ABC123"; py "ABC123"] /\
  Forall is_fetch (SampleRuns.trace_of SampleRuns.batch_run) /\
  (List.length (SampleRuns.trace_of SampleRuns.batch_run) <=
   List.length SampleRuns.urls_twice)%nat.
Proof.
  split; [reflexivity|].
  apply (batch_calls_only_service SampleRuns.urls_twice
           (SampleRuns.trace_of SampleRuns.batch_run)
           (SampleRuns.outcome_of SampleRuns.batch_run)).
  exact (run_runs SampleWorld.sample
           (extract_transcripts SampleRuns.urls_twice) Samples.empty_world).
Defined.

Lemma save_returns_written_path_witness :
  SampleRuns.outcome_of SampleRuns.csv_run = Returned (py "output/x.csv") /\
  In (py "csv") SUPPORTED_FORMATS /\
  (exists content,
      SampleRuns.trace_of SampleRuns.csv_run =
        [EvWriteFile (py "output/x.csv") content (Ok tt)]) /\
  (forall name, py "x" = ch "/" :: name ->
                py "output/x.csv" = py "x" ++ py "." ++ py "csv") /\
  ((forall name, py "x" <> ch "/" :: name) ->
   exists sep, (sep = [] \/ sep = py "/") /\
               py "output/x.csv" =
                 output_dir Samples.self ++ sep ++ py "x" ++ py "." ++ py "csv").
Proof.
  split; [reflexivity|].
  apply (save_returns_written_path Samples.self Samples.batch3
           (py "csv") (py "x") (SampleRuns.trace_of SampleRuns.csv_run)
           (py "output/x.csv")).
  exact (run_runs SampleWorld.sample
           (save_transcripts Samples.self Samples.batch3 (py "csv") (py "x"))
           {| SampleWorld.service := Samples.service;
              SampleWorld.dirs := [py "output"]; SampleWorld.files := [] |}).
Defined.

Lemma save_ignores_failures_witness :
  only_success Samples.batch3 = [(py "ABC123", Samples.record)] /\
  save_transcripts Samples.self Samples.batch3 (py "txt") (py "x") =
  save_transcripts Samples.self (only_success Samples.batch3) (py "txt") (py "x").
Proof.
  split; [reflexivity|].
  apply (save_ignores_failures Samples.self Samples.batch3 (py "txt") (py "x")).
  now left.
Defined.

Lemma save_csv_rows_witness :
  exists rows r,
    SampleRuns.trace_of SampleRuns.csv_run =
      [EvWriteFile (save_path Samples.self (py "csv") (py "x")) (Csv rows) r] /\
    len rows =
      fold_right (fun it a => segment_count (snd it) + a) 0
                 (only_success Samples.batch3) /\
    Forall (fun row => exists data,
                In (row_video_id row, data) Samples.batch3 /\
                status data = py "success") rows.
Proof.
  apply (save_csv_rows Samples.self Samples.batch3 (py "x")
           (SampleRuns.trace_of SampleRuns.csv_run)
           (SampleRuns.outcome_of SampleRuns.csv_run)).
  exact (run_runs SampleWorld.sample
           (save_transcripts Samples.self Samples.batch3 (py "csv") (py "x"))
           {| SampleWorld.service := Samples.service;
              SampleWorld.dirs := [py "output"]; SampleWorld.files := [] |}).
Defined.

Lemma training_chunk_origin_witness :
  let c := {| tc_video_id := py "ABC123"; tc_chunk_index := 1;
              tc_text := py "world" |} in
  In c (prepare_for_training 12 Samples.batch3) /\
  exists v text segments total,
    In (tc_video_id c, Success v text segments total) Samples.batch3 /\
    In (tc_text c) (chunk_text 12 text) /\
    tc_text c <> [] /\ stripped (tc_text c) /\
    len (tc_text c) <= Z.max 12 (longest_word text) /\
    0 <= tc_chunk_index c < len (chunk_text 12 text).
Proof.
  assert (H : In {| tc_video_id := py "ABC123"; tc_chunk_index := 1;
                    tc_text := py "world" |}
                 (prepare_for_training 12 Samples.batch3)).
  { vm_compute. right. left. reflexivity. }
  split; [exact H|].
  exact (training_chunk_origin 12 Samples.batch3 _ H).
Defined.

Lemma fetched_words_reach_training_witness :
  split (join [space]
           (map tc_text
              (prepare_for_training 12 [(py "ABC123", Samples.record)]))) =
  [py "hello"; py "there"; py "world"].
Proof.
  rewrite (fetched_words_reach_training 12 (py "ABC123") Samples.cues
             Samples.record).
  - reflexivity.
  - exact (run_runs SampleWorld.sample
             (extract_single_transcript (py "ABC123")) Samples.empty_world).
Defined.

Lemma basic_example_run_witness :
  let tr := SampleRuns.trace_of SampleRuns.basic_run in
  let b := SampleRuns.returned [] (SampleRuns.outcome_of SampleRuns.basic_run) in
  exists tr0 r1 r2,
    init_calls (py "output") tr0 /\
    tr = tr0 ++
         [EvGetTranscript (py "YOUR_VIDEO_ID_1") r1;
          EvGetTranscript (py "YOUR_VIDEO_ID_2") r2;
          EvWriteFile (save_path {| output_dir := py "output" |}
                                 (py "json") (py "basic_transcripts"))
                      (JsonDoc b) (Ok tt);
          EvWriteFile (save_path {| output_dir := py "output" |}
                                 (py "txt") (py "basic_transcripts"))
                      (txt_of b) (Ok tt)] /\
    runs (extract_transcripts video_urls)
         [EvGetTranscript (py "YOUR_VIDEO_ID_1") r1;
          EvGetTranscript (py "YOUR_VIDEO_ID_2") r2]
         (Returned b) /\
    keys b = [py "YOUR_VIDEO_ID_1"; py "YOUR_VIDEO_ID_2"].
Proof.
  apply (basic_example_run (py "output")
           (SampleRuns.trace_of SampleRuns.basic_run)).
  exact (run_runs SampleWorld.sample
           (basic_extraction_example (py "output")) Samples.empty_world).
Defined.

Lemma business_example_run_witness :
  let tr := SampleRuns.trace_of SampleRuns.business_run in
  let r := SampleRuns.returned ([], []) (SampleRuns.outcome_of SampleRuns.business_run) in
  exists tr0 r1 r2 r3,
    init_calls (py "output") tr0 /\
    tr = tr0 ++
         [EvGetTranscript (py "BUSINESS_VIDEO_1") r1;
          EvGetTranscript (py "TRAINING_VIDEO_2") r2;
          EvGetTranscript (py "TESTIMONIAL_VIDEO_3") r3;
          EvWriteFile (save_path {| output_dir := py "output" |}
                                 (py "csv") (py "business_transcripts"))
                      (csv_of (fst r)) (Ok tt);
          EvWriteFile (save_path {| output_dir := py "output" |}
                                 (py "json") (py "business_transcripts"))
                      (JsonDoc (fst r)) (Ok tt)] /\
    runs (extract_transcripts business_urls)
         [EvGetTranscript (py "BUSINESS_VIDEO_1") r1;
          EvGetTranscript (py "TRAINING_VIDEO_2") r2;
          EvGetTranscript (py "TESTIMONIAL_VIDEO_3") r3]
         (Returned (fst r)) /\
    keys (fst r) = [py "BUSINESS_VIDEO_1"; py "TRAINING_VIDEO_2";
                    py "TESTIMONIAL_VIDEO_3"] /\
    snd r = prepare_for_training 256 (fst r).
Proof.
  apply (business_example_run (py "output")
           (SampleRuns.trace_of SampleRuns.business_run)).
  exact (run_runs SampleWorld.sample
           (extract_business_content (py "output")) Samples.empty_world).
Defined.

(** ** The text normalizer: asides and length *)

Section AsideFacts.

Lemma thinned_refl (s : str) : thinned s s.
Proof. induction s; constructor; auto. Qed.

Lemma thinned_drop_all (s : str) : thinned s [].
Proof. induction s; constructor; auto. Qed.

Lemma thinned_in (s t : str) (y : char) :
  thinned s t -> In y t -> In y s \/ y = space.
Proof.
  induction 1 as [|x s t _ IH|x s t _ IH|s t _ IH]; intros Hin.
  - contradiction.
  - destruct Hin as [->|Hin]; [left; now left|].
    destruct (IH Hin); [left; now right|now right].
  - destruct (IH Hin); [left; now right|now right].
  - destruct Hin as [<-|Hin]; [now right|auto].
Qed.

Lemma thinned_trans_app (p s t q : str) :
  thinned s t -> thinned (p ++ s ++ q) t.
Proof.
  intros H. induction p as [|x p IH]; simpl.
  - induction H as [|x s t _ IH|x s t _ IH|s t _ IH]; simpl.
    + apply thinned_drop_all.
    + now constructor.
    + now constructor.
    + now constructor.
  - now constructor.
Qed.

Lemma has_pair_cons (o c x : char) (s : str) :
  has_pair o c (x :: s) <-> (x = o /\ In c s) \/ has_pair o c s.
Proof.
  split.
  - intros (a & b & d & E). destruct a as [|y a]; simpl in E.
    + injection E as -> ->. left. split; auto.
      apply in_or_app. right. now left.
    + injection E as -> ->. right. now exists a, b, d.
  - intros [[-> Hin]|(a & b & d & ->)].
    + apply in_split in Hin as (b & d & ->). now exists [], b, d.
    + now exists (x :: a), b, d.
Qed.

Lemma has_pair_nil (o c : char) : ~ has_pair o c [].
Proof. intros (a & b & d & E). destruct a; discriminate. Qed.

(** Leaving characters out and putting spaces in makes no new pair. *)
Lemma thinned_has_pair (o c : char) (s t : str) :
  o <> space -> c <> space ->
  thinned s t -> has_pair o c t -> has_pair o c s.
Proof.
  intros Ho Hc. induction 1 as [|x s t Hth IH|x s t Hth IH|s t Hth IH];
    intros H.
  - exact H.
  - apply has_pair_cons in H as [[-> Hin]|H]; apply has_pair_cons.
    + left. split; auto.
      destruct (thinned_in _ _ _ Hth Hin); [assumption|congruence].
    + right. auto.
  - apply has_pair_cons. right. auto.
  - apply has_pair_cons in H as [[E _]|H]; [congruence|auto].
Qed.

Lemma re_sub_thinned (r : regex) (repl s : str) (k : nat) :
  repl = [] \/ repl = [space] ->
  thinned s (re_sub_from r repl s k).
Proof.
  intros Hrepl. revert k. induction s as [|c s IH]; intros k.
  - simpl. destruct k; [|constructor].
    destruct (matches r []); [constructor|].
    destruct Hrepl as [->| ->]; repeat constructor.
  - simpl. destruct k as [|k]; [|constructor; apply IH].
    destruct (matches r (c :: s)) as [|m ms]; [constructor; apply IH|].
    destruct (List.length (consumed m)).
    + destruct Hrepl as [->| ->]; simpl; repeat constructor; apply IH.
    + destruct Hrepl as [->| ->]; simpl; repeat constructor; apply IH.
Qed.

(** With an empty replacement nothing new appears. *)
Lemma re_sub_delete_in (r : regex) (s : str) (k : nat) (y : char) :
  In y (re_sub_from r [] s k) -> In y s.
Proof.
  revert k. induction s as [|c s IH]; intros k; simpl.
  - destruct k; [destruct (matches r [])|]; simpl; tauto.
  - destruct k as [|k].
    + destruct (matches r (c :: s)) as [|m ms].
      * intros [->|H]; [now left|right; eauto].
      * destruct (List.length (consumed m)); simpl; intros H.
        -- destruct H as [->|H]; [now left|right; eauto].
        -- right. eauto.
    + intros H. right. eauto.
Qed.

Lemma star_lazy_prefix (cs : cset) (a b : str) :
  Forall (fun x => in_cset cs x = true) a ->
  In (a, b) (star_lazy cs (a ++ b)).
Proof.
  induction 1 as [|x a Hx _ IH]; simpl.
  - destruct b; now left.
  - right. rewrite Hx. apply in_map_iff. exists (a, b). auto.
Qed.

(** On one line, an opening character with a closing one after it is
    the start of a match. *)
Lemma bracketed_matches (o c : char) (s : str) :
  ~ In newline s -> In c s -> matches (bracketed o c) (o :: s) <> [].
Proof.
  intros Hnl Hin E. apply in_split in Hin as (a & d & ->).
  assert (Ha : Forall (fun x => in_cset CDot x = true) a).
  { apply Forall_forall. intros x Hx. simpl.
    destruct (N.eqb x newline) eqn:Ex; [|reflexivity].
    apply N.eqb_eq in Ex. subst x. exfalso. apply Hnl.
    apply in_or_app. now left. }
  pose proof (star_lazy_prefix CDot a (c :: d) Ha) as Hstar.
  unfold bracketed in E. rewrite matches_cat_char in E.
  apply map_eq_nil in E.
  assert (Hm : In (after (plain (a, c :: d)) (plain ([c], d)))
                  (matches (Cat (StarL CDot) (One (CChar c))) (a ++ c :: d))).
  { change (matches (Cat (StarL CDot) (One (CChar c))) (a ++ c :: d))
      with (flat_map (fun m1 => map (after m1)
                                    (matches (One (CChar c)) (rest m1)))
                     (map plain (star_lazy CDot (a ++ c :: d)))).
    apply in_flat_map. exists (plain (a, c :: d)). split.
    - now apply in_map.
    - simpl. rewrite N.eqb_refl. now left. }
  rewrite E in Hm. contradiction.
Qed.

Lemma bracketed_consumed (o c : char) (s : str) m :
  In m (matches (bracketed o c) s) -> consumed m <> [].
Proof.
  unfold bracketed. simpl. intros H.
  apply in_flat_map in H as (m1 & H1 & H).
  apply in_map_iff in H as (m2 & <- & _).
  destruct s as [|x s]; [contradiction|].
  destruct (N.eqb x o); [|contradiction].
  destruct H1 as [<-|[]]. simpl. discriminate.
Qed.

Lemma re_sub_miss (r : regex) (repl : str) (c : char) (s : str) :
  matches r (c :: s) = [] ->
  re_sub r repl (c :: s) = c :: re_sub r repl s.
Proof. intros H. unfold re_sub. simpl. now rewrite H. Qed.

(** The step of [re.sub] at the start of a match that consumes
    something. *)
Lemma re_sub_match_step (r : regex) (repl : str) (c : char) (s : str) m ms :
  matches r (c :: s) = m :: ms -> consumed m <> [] ->
  re_sub r repl (c :: s) = repl ++ re_sub r repl (rest m) /\
  (List.length (rest m) <= List.length s)%nat /\
  (forall y, In y (rest m) -> In y s).
Proof.
  intros Hm Hne.
  assert (Hin : In m (matches r (c :: s))) by (rewrite Hm; now left).
  pose proof (matches_sound _ _ _ Hin) as Hs.
  destruct (consumed m) as [|x g] eqn:Eg; [congruence|].
  simpl in Hs. injection Hs as <- ->.
  split; [|split].
  - unfold re_sub. simpl. rewrite Hm, Eg. simpl.
    now rewrite re_sub_skip.
  - rewrite length_app. lia.
  - intros y Hy. apply in_or_app. now right.
Qed.

(** After the substitution a one-line text has no aside of that kind
    left. *)
Lemma bracketed_removed (o c : char) (s : str) :
  ~ In newline s -> ~ has_pair o c (re_sub (bracketed o c) [] s).
Proof.
  induction s as [s IH] using str_length_ind. intros Hnl.
  destruct s as [|x s]; [apply has_pair_nil|].
  destruct (matches (bracketed o c) (x :: s)) as [|m ms] eqn:Em.
  - rewrite (re_sub_miss _ [] _ _ Em). intros H. apply has_pair_cons in H as [[-> Hin]|H].
    + assert (Hc : In c s) by (eapply re_sub_delete_in; exact Hin).
      apply (bracketed_matches o c s); auto.
      intros Hn. apply Hnl. now right.
    + apply (IH s); auto. intros Hn. apply Hnl. now right.
  - assert (Hne : consumed m <> []).
    { apply (bracketed_consumed o c (x :: s)). rewrite Em. now left. }
    destruct (re_sub_match_step _ [] _ _ _ _ Em Hne) as (E & Hlen & Hsub).
    rewrite E. simpl. apply IH; [simpl; lia|].
    intros Hn. apply Hnl. right. now apply Hsub.
Qed.

End AsideFacts.

(** X23: on a text without newline, [clean_transcript_text] leaves no
    aside behind: in what it returns no [[] has a []] after it and no
    [(] has a [)] after it.  (Across a newline an aside is not removed,
    and the newline then becomes a space.) *)
Theorem clean_transcript_text_no_aside (text : str) :
  ~ In newline text ->
  ~ has_pair (ch "[") (ch "]") (clean_transcript_text text) /\
  ~ has_pair (ch "(") (ch ")") (clean_transcript_text text).
Proof.
  intros Hnl. unfold clean_transcript_text.
  set (t1 := re_sub (bracketed (ch "[") (ch "]")) [] text).
  set (t2 := re_sub (bracketed (ch "(") (ch ")")) [] t1).
  set (t3 := re_sub (PlusG (CChar newline)) [space] t2).
  set (t4 := re_sub (PlusG CSpace) [space] t3).
  assert (H12 : thinned t1 t2) by (apply re_sub_thinned; now left).
  assert (H23 : thinned t2 t3) by (apply re_sub_thinned; now right).
  assert (H34 : thinned t3 t4) by (apply re_sub_thinned; now right).
  assert (H4s : thinned t4 (strip t4)).
  { destruct (strip_split t4) as (p & q & Hs & _).
    rewrite Hs at 1. apply thinned_trans_app, thinned_refl. }
  assert (Hnl1 : ~ In newline t1).
  { intros Hin. apply Hnl. unfold t1, re_sub in Hin.
    eapply re_sub_delete_in. exact Hin. }
  assert (Ho1 : ch "[" <> space) by discriminate.
  assert (Hc1 : ch "]" <> space) by discriminate.
  assert (Ho2 : ch "(" <> space) by discriminate.
  assert (Hc2 : ch ")" <> space) by discriminate.
  split; intros H.
  - apply (bracketed_removed (ch "[") (ch "]") text Hnl). fold t1.
    apply (thinned_has_pair _ _ _ _ Ho1 Hc1 H12).
    apply (thinned_has_pair _ _ _ _ Ho1 Hc1 H23).
    apply (thinned_has_pair _ _ _ _ Ho1 Hc1 H34).
    apply (thinned_has_pair _ _ _ _ Ho1 Hc1 H4s).
    exact H.
  - apply (bracketed_removed (ch "(") (ch ")") t1 Hnl1). fold t2.
    apply (thinned_has_pair _ _ _ _ Ho2 Hc2 H23).
    apply (thinned_has_pair _ _ _ _ Ho2 Hc2 H34).
    apply (thinned_has_pair _ _ _ _ Ho2 Hc2 H4s).
    exact H.
Qed.

Lemma clean_transcript_text_no_aside_witness :
  clean_transcript_text (py "we [Music] are (applause) here ] [") =
    py "we are here ] [" /\
  ~ has_pair (ch "[") (ch "]")
      (clean_transcript_text (py "we [Music] are (applause) here ] [")) /\
  ~ has_pair (ch "(") (ch ")")
      (clean_transcript_text (py "we [Music] are (applause) here ] [")).
Proof.
  split; [vm_compute; reflexivity|].
  apply (clean_transcript_text_no_aside
           (py "we [Music] are (applause) here ] [")).
  simpl. intuition discriminate.
Defined.

Section LengthFacts.

(** When every match consumes something and the replacement is at most
    one character, [re.sub] does not lengthen the text. *)
Lemma re_sub_length (r : regex) (repl s : str) (k : nat) :
  (forall t m, In m (matches r t) -> consumed m <> []) ->
  (List.length repl <= 1)%nat ->
  (List.length (re_sub_from r repl s k) <= List.length s - k)%nat.
Proof.
  intros Hr Hrepl. revert k. induction s as [|c s IH]; intros k; simpl.
  - destruct k; [|simpl; lia].
    destruct (matches r []) as [|m ms] eqn:E; [simpl; lia|].
    assert (Hin : In m (matches r [])) by (rewrite E; now left).
    pose proof (matches_sound _ _ _ Hin) as Hs.
    pose proof (Hr _ _ Hin) as Hne.
    destruct (consumed m); [congruence|discriminate].
  - destruct k as [|k]; [|apply IH].
    destruct (matches r (c :: s)) as [|m ms] eqn:E.
    + simpl. specialize (IH 0%nat). lia.
    + assert (Hin : In m (matches r (c :: s))) by (rewrite E; now left).
      pose proof (Hr _ _ Hin) as Hne.
      destruct (consumed m) as [|x g]; [congruence|]. simpl List.length.
      rewrite length_app. specialize (IH (List.length g)). lia.
Qed.

Lemma plus_consumed (cs : cset) (t : str) m :
  In m (matches (PlusG cs) t) -> consumed m <> [].
Proof.
  simpl. intros H. apply in_map_iff in H as ([g u] & <- & H).
  now apply plus_greedy_sound in H as (Hne & _).
Qed.

Lemma strip_length (s : str) : (List.length (strip s) <= List.length s)%nat.
Proof.
  destruct (strip_split s) as (p & q & Hs & _).
  rewrite Hs at 2. rewrite !length_app. lia.
Qed.

End LengthFacts.

(** X24: [clean_transcript_text] never returns a text longer than the
    one it is given. *)
Theorem clean_transcript_text_length (text : str) :
  len (clean_transcript_text text) <= len text.
Proof.
  unfold clean_transcript_text, len, re_sub.
  pose proof (strip_length
    (re_sub_from (PlusG CSpace) [space]
       (re_sub_from (PlusG (CChar newline)) [space]
          (re_sub_from (bracketed (ch "(") (ch ")")) []
             (re_sub_from (bracketed (ch "[") (ch "]")) [] text 0) 0) 0) 0)) as H5.
  pose proof (re_sub_length (PlusG CSpace) [space]
    (re_sub_from (PlusG (CChar newline)) [space]
       (re_sub_from (bracketed (ch "(") (ch ")")) []
          (re_sub_from (bracketed (ch "[") (ch "]")) [] text 0) 0) 0) 0
    (plus_consumed CSpace) (le_n 1)) as H4.
  pose proof (re_sub_length (PlusG (CChar newline)) [space]
    (re_sub_from (bracketed (ch "(") (ch ")")) []
       (re_sub_from (bracketed (ch "[") (ch "]")) [] text 0) 0) 0
    (plus_consumed (CChar newline)) (le_n 1)) as H3.
  pose proof (re_sub_length (bracketed (ch "(") (ch ")")) []
    (re_sub_from (bracketed (ch "[") (ch "]")) [] text 0) 0
    (bracketed_consumed (ch "(") (ch ")")) (le_S 0 0 (le_n 0))) as H2.
  pose proof (re_sub_length (bracketed (ch "[") (ch "]")) [] text 0
    (bracketed_consumed (ch "[") (ch "]")) (le_S 0 0 (le_n 0))) as H1.
  lia.
Qed.
